(** * An 8-puzzle solver: best-first graph search (UCS / A-star)

    Shallow embedding of [Project1_NuoXu.py] and the properties of its
    search core.  Python integers are [Z], list indices are [nat], a puzzle
    state (a list of lists of integers) is a [list (list Z)], the explored [set] of
    tuples is a [gset], the module-global dictionary [goal_pos] is a [gmap]
    threaded explicitly, and Python exceptions are values of an error
    monad.  The frontier is the list that [heapq] manipulates in place; the
    [heapq] routines are modelled after CPython's [Lib/heapq.py].  What
    the program prints is left out.  A loop that may run for ever takes
    the number of rounds it is allowed. *)

From stdpp Require Import gmap strings list sorting.
From Stdlib Require Import ZArith Lia ZifyNat.

Set Warnings "-register-all,-clear-no-such-hyp".
Open Scope Z_scope.

(** ** Exceptions *)

Inductive PyExn := IndexError | TypeError | KeyError.

Inductive result (A : Type) : Type :=
  | Ok (a : A)
  | Raise (e : PyExn).
Arguments Ok {A} a.
Arguments Raise {A} e.

#[global] Instance result_ret : MRet result := λ A a, Ok a.
#[global] Instance result_bind : MBind result := λ A B f m,
  match m with Ok a => f a | Raise e => Raise e end.

(** [l[i]] for an index known to be non-negative. *)
Definition getitem {A} (l : list A) (i : nat) : result A :=
  match l !! i with Some x => Ok x | None => Raise IndexError end.

(** [for i in xs: body], where the body may [return] from the enclosing
    function ([Ok (Some v)]) or fall through ([Ok None]). *)
Fixpoint for_return {I A} (xs : list I) (body : I → result (option A))
  : result (option A) :=
  match xs with
  | [] => Ok None
  | i :: xs' =>
    match body i with
    | Ok None => for_return xs' body
    | r => r
    end
  end.

(** [for i in xs: acc = body(i, acc)] *)
Fixpoint for_acc {I S} (xs : list I) (body : I → S → result S) (acc : S)
  : result S :=
  match xs with
  | [] => Ok acc
  | i :: xs' => acc' ← body i acc; for_acc xs' body acc'
  end.

(** [range(n)] *)
Definition range (n : nat) : list nat := seq 0 n.

(** ** Node structure *)

Abbreviation State := (list (list Z)).

Inductive PuzzleNode : Type := mkPuzzleNode {
  state : State;
  parent : option PuzzleNode;
  action : option string;
  g_cost : Z;
  h_cost : Z;
  f_cost : Z;
}.

(** [PuzzleNode.__init__] *)
Definition PuzzleNode_init (state : State) (parent : option PuzzleNode)
    (action : option string) (g_cost h_cost : Z) : PuzzleNode :=
  mkPuzzleNode state parent action g_cost h_cost (g_cost + h_cost).

(** [PuzzleNode.__lt__] *)
Definition PuzzleNode_lt (self other : PuzzleNode) : bool :=
  if bool_decide (f_cost self = f_cost other)
  then bool_decide (g_cost self < g_cost other)
  else bool_decide (f_cost self < f_cost other).

(** [PuzzleNode.__eq__] on two nodes *)
Definition PuzzleNode_eq (self other : PuzzleNode) : bool :=
  bool_decide (state self = state other).

(** ** Blank tile *)

Definition find_blank (state : State) : result (option (nat * nat)) :=
  for_return (range (length state)) (λ r,
    for_return (range (length state)) (λ c,
      row ← getitem state r;
      v ← getitem row c;
      if bool_decide (v = 0) then Ok (Some (r, c)) else Ok None)).

(** [tuple(map(tuple, state))]: the same contents, as a hashable value. *)
Definition state_to_tuple (state : State) : list (list Z) := state.

(** ** Heuristics *)

Definition no_heuristic (state goal_state : State) : result Z := Ok 0.

Definition misplaced_tile_heuristic (state goal_state : State) : result Z :=
  for_acc (range (length state)) (λ r misplaced_count,
    for_acc (range (length state)) (λ c misplaced_count,
      row ← getitem state r;
      v ← getitem row c;
      if bool_decide (v ≠ 0) then
        grow ← getitem goal_state r;
        gv ← getitem grow c;
        if bool_decide (v ≠ gv) then Ok (misplaced_count + 1)
        else Ok misplaced_count
      else Ok misplaced_count) misplaced_count) 0.

(** The module-global [goal_pos] dictionary. *)
Abbreviation GoalPos := (gmap Z (nat * nat)).

(** Code that writes the global: the store goes in and comes out, also
    when an exception escapes. *)
Definition Glob (A : Type) : Type := GoalPos → result A * GoalPos.

Fixpoint for_glob {I} (xs : list I) (body : I → Glob unit) : Glob unit :=
  λ gp,
  match xs with
  | [] => (Ok (), gp)
  | i :: xs' =>
    match body i gp with
    | (Ok _, gp') => for_glob xs' body gp'
    | (Raise e, gp') => (Raise e, gp')
    end
  end.

Definition precompute_goal_pos (goal_state : State) : Glob unit :=
  λ _,
  for_glob (range (length goal_state)) (λ r,
    for_glob (range (length goal_state)) (λ c gp,
      match row ← getitem goal_state r; getitem row c with
      | Ok v => (Ok (), <[v := (r, c)]> gp)
      | Raise e => (Raise e, gp)
      end)) ∅.

Definition manhattan_distance_heuristic (state goal_state : State)
    (goal_pos : GoalPos) : result Z :=
  for_acc (range (length goal_state)) (λ r total,
    for_acc (range (length goal_state)) (λ c total,
      row ← getitem state r;
      tile ← getitem row c;
      if bool_decide (tile ≠ 0) then
        match goal_pos !! tile with
        | Some (goal_r, goal_c) =>
          Ok (total + (Z.abs (Z.of_nat r - Z.of_nat goal_r)
                       + Z.abs (Z.of_nat c - Z.of_nat goal_c)))
        | None => Raise KeyError
        end
      else Ok total) total) 0.

(** The three functions that can be passed as [heuristic_func]. *)
Inductive Heuristic := NoHeuristic | MisplacedTile | ManhattanDistance.

#[global] Instance Heuristic_eq_dec : EqDecision Heuristic.
Proof. solve_decision. Defined.

Definition heuristic_call (heuristic_func : Heuristic) (goal_pos : GoalPos)
    (state goal_state : State) : result Z :=
  match heuristic_func with
  | NoHeuristic => no_heuristic state goal_state
  | MisplacedTile => misplaced_tile_heuristic state goal_state
  | ManhattanDistance => manhattan_distance_heuristic state goal_state goal_pos
  end.

(** ** Successor nodes *)

Definition moves : list (Z * Z * string) :=
  [(-1, 0, "Up"); (1, 0, "Down"); (0, -1, "Left"); (0, 1, "Right")]%string.

(** [s[r][c] = v] *)
Definition setitem2 (s : State) (r c : nat) (v : Z) : State :=
  alter (λ row, <[c := v]> row) r s.

(** The swap [s[r1][c1], s[r2][c2] = s[r2][c2], s[r1][c1]] on a fresh
    copy: both right-hand sides are read, then the two cells are written
    from left to right.  A grid is a value here, so its rows are lists of
    their own: [copy.deepcopy] keeps rows that are one and the same list
    object shared, and on such a grid the swap of the code writes to all
    of them.  Two rows of a Configuration differ in their contents, so on
    Configurations the rows are distinct objects and this is what the
    code does. *)
Definition swap_cells (s : State) (r1 c1 r2 c2 : nat) : result State :=
  row2 ← getitem s r2;
  v2 ← getitem row2 c2;
  row1 ← getitem s r1;
  v1 ← getitem row1 c1;
  Ok (setitem2 (setitem2 s r1 c1 v2) r2 c2 v1).

Definition expand (node : PuzzleNode) (goal_state : State)
    (heuristic_func : Heuristic) (goal_pos : GoalPos)
  : result (list PuzzleNode) :=
  let state := state node in
  blank ← find_blank state;
  match blank with
  | None => Raise TypeError
  | Some (blank_r, blank_c) =>
    for_acc moves (λ '(change_r, change_c, action) successors,
      let new_r := Z.of_nat blank_r + change_r in
      let new_c := Z.of_nat blank_c + change_c in
      if bool_decide (0 ≤ new_r < Z.of_nat (length state)) &&
         bool_decide (0 ≤ new_c < Z.of_nat (length state))
      then
        new_state ← swap_cells state blank_r blank_c
                      (Z.to_nat new_r) (Z.to_nat new_c);
        let new_g_cost := g_cost node + 1 in
        new_h_cost ← heuristic_call heuristic_func goal_pos new_state goal_state;
        Ok (successors ++
            [PuzzleNode_init new_state (Some node) (Some action)
               new_g_cost new_h_cost])
      else Ok successors) []
  end.

Definition goal_test (state goal_state : State) : bool :=
  bool_decide (state = goal_state).

(** ** The [heapq] module (CPython's [Lib/heapq.py])

    A heap is a Python list [heap] with [heap[k] <= heap[2*k+1]] and
    [heap[k] <= heap[2*k+2]]; only [<] is ever applied to the items. *)

Module heapq.
Section heapq.
Context {A : Type} (lt : A → A → bool).

(** The [while pos > startpos] loop of [_siftdown]; [pos] strictly
    decreases, so [pos] rounds are enough. *)
Fixpoint siftdown_loop (rounds : nat) (heap : list A) (newitem : A)
    (startpos pos : nat) : list A * nat :=
  match rounds with
  | O => (heap, pos)
  | S rounds' =>
    if bool_decide (startpos < pos)%nat then
      let parentpos := ((pos - 1) / 2)%nat in
      match heap !! parentpos with
      | Some parent =>
        if lt newitem parent
        then siftdown_loop rounds' (<[pos := parent]> heap) newitem
               startpos parentpos
        else (heap, pos)
      | None => (heap, pos)
      end
    else (heap, pos)
  end.

Definition _siftdown (heap : list A) (startpos pos : nat) : list A :=
  match heap !! pos with
  | Some newitem =>
    let '(heap', pos') := siftdown_loop pos heap newitem startpos pos in
    <[pos' := newitem]> heap'
  | None => heap
  end.

(** The [while childpos < endpos] loop of [_siftup]: the smaller child
    is moved up until a leaf is hit; [pos] strictly increases. *)
Fixpoint siftup_loop (rounds : nat) (heap : list A) (pos : nat)
  : list A * nat :=
  match rounds with
  | O => (heap, pos)
  | S rounds' =>
    let endpos := length heap in
    let childpos := (2 * pos + 1)%nat in
    if bool_decide (childpos < endpos)%nat then
      let rightpos := (childpos + 1)%nat in
      let childpos :=
        match heap !! childpos, heap !! rightpos with
        | Some l, Some r => if negb (lt l r) then rightpos else childpos
        | _, _ => childpos
        end in
      match heap !! childpos with
      | Some child => siftup_loop rounds' (<[pos := child]> heap) childpos
      | None => (heap, pos)
      end
    else (heap, pos)
  end.

Definition _siftup (heap : list A) (pos : nat) : list A :=
  match heap !! pos with
  | Some newitem =>
    let startpos := pos in
    let '(heap', pos') := siftup_loop (length heap) heap pos in
    _siftdown (<[pos' := newitem]> heap') startpos pos'
  | None => heap
  end.

Definition heappush (heap : list A) (item : A) : list A :=
  _siftdown (heap ++ [item]) 0 (length heap).

(** Returns the popped item and the heap left; [IndexError] on an
    empty heap. *)
Definition heappop (heap : list A) : result (A * list A) :=
  match last heap with
  | None => Raise IndexError
  | Some lastelt =>
    match removelast heap with
    | [] => Ok (lastelt, [])
    | returnitem :: rest => Ok (returnitem, _siftup (lastelt :: rest) 0)
    end
  end.

Definition heapify (x : list A) : list A :=
  foldl _siftup x (reverse (range (length x / 2))).
End heapq.
End heapq.

(** ** General search *)

Record SearchState := mkSearchState {
  frontier : list PuzzleNode;
  explored : gset (list (list Z));
  expanded_count : nat;
  max_queue_size : nat;
}.

Definition SearchResult : Type := option PuzzleNode * nat * nat.

(** What one round of the [while frontier] loop does. *)
Inductive Round :=
  | Continue (st : SearchState)
  | Return (res : SearchResult).

(** [for child_node in successors: ...] *)
Definition push_successors (explored : gset (list (list Z)))
    (successors : list PuzzleNode) (frontier : list PuzzleNode)
  : list PuzzleNode :=
  foldl (λ frontier child_node,
           let child_state_tuple := state_to_tuple (state child_node) in
           if bool_decide (child_state_tuple ∉ explored)
           then heapq.heappush PuzzleNode_lt frontier child_node
           else frontier)
        frontier successors.

(** The loop test and one execution of the loop body. *)
Definition search_round (goal_state : State) (heuristic_func : Heuristic)
    (goal_pos : GoalPos) (st : SearchState) : result Round :=
  match frontier st with
  | [] =>
    (* the loop ends: "Search failed. Frontier is empty." *)
    Ok (Return (None, expanded_count st, max_queue_size st))
  | _ :: _ =>
    let max_queue_size :=
      Nat.max (max_queue_size st) (length (frontier st)) in
    '(current_node, frontier) ← heapq.heappop PuzzleNode_lt (frontier st);
    if goal_test (state current_node) goal_state then
      Ok (Return (Some current_node, expanded_count st, max_queue_size))
    else
      let current_state_tuple := state_to_tuple (state current_node) in
      if bool_decide (current_state_tuple ∈ explored st) then
        Ok (Continue (mkSearchState frontier (explored st)
                        (expanded_count st) max_queue_size))
      else
        let explored := {[current_state_tuple]} ∪ explored st in
        let expanded_count := S (expanded_count st) in
        successors ← expand current_node goal_state heuristic_func goal_pos;
        Ok (Continue (mkSearchState
                        (push_successors explored successors frontier)
                        explored expanded_count max_queue_size))
  end.

(** The [while] loop, for at most [rounds] rounds; [None] when the
    rounds are used up before the loop has ended. *)
Fixpoint search_loop (rounds : nat) (goal_state : State)
    (heuristic_func : Heuristic) (goal_pos : GoalPos) (st : SearchState)
  : option (result SearchResult) :=
  match rounds with
  | O => None
  | S rounds' =>
    match search_round goal_state heuristic_func goal_pos st with
    | Raise e => Some (Raise e)
    | Ok (Return res) => Some (Ok res)
    | Ok (Continue st') =>
      search_loop rounds' goal_state heuristic_func goal_pos st'
    end
  end.

(** The state in which the loop is entered. *)
Definition search_init (initial_state goal_state : State)
    (heuristic_func : Heuristic) (goal_pos : GoalPos) : result SearchState :=
  initial_h ← heuristic_call heuristic_func goal_pos initial_state goal_state;
  let start_node := PuzzleNode_init initial_state None None 0 initial_h in
  let frontier := heapq.heapify PuzzleNode_lt [start_node] in
  Ok (mkSearchState frontier ∅ 0 1).

Definition general_search (rounds : nat) (initial_state goal_state : State)
    (heuristic_func : Heuristic)
  : GoalPos → option (result SearchResult) * GoalPos :=
  λ goal_pos,
  let '(r, goal_pos) :=
    if bool_decide (heuristic_func = ManhattanDistance)
    then precompute_goal_pos goal_state goal_pos
    else (Ok (), goal_pos) in
  match r with
  | Raise e => (Some (Raise e), goal_pos)
  | Ok _ =>
    match search_init initial_state goal_state heuristic_func goal_pos with
    | Raise e => (Some (Raise e), goal_pos)
    | Ok st =>
      (search_loop rounds goal_state heuristic_func goal_pos st, goal_pos)
    end
  end.

(** ** Path reconstruction *)

Fixpoint path_to_root (current : PuzzleNode) : list State :=
  state current ::
  match parent current with
  | Some p => path_to_root p
  | None => []
  end.

Definition reconstruct_path (goal_node : option PuzzleNode) : list State :=
  reverse (from_option path_to_root [] goal_node).

(** ** The input check of [get_user_puzzle] *)

Definition check_user_puzzle (puzzle : State) : option State :=
  let flat_puzzle := concat puzzle in
  if bool_decide (merge_sort Z.le flat_puzzle ≠ seqZ 0 9) then None
  else Some puzzle.

(** ** The input loop of [get_user_puzzle]

    The lines that the user enters are read from [inputs]: an element is
    what [[int(x) for x in row_str.split()]] makes of one line, the row
    of numbers, or [None] when [int] raises [ValueError].  A line that is
    not accepted is asked for again, so the loop goes on with the next
    element.  [read_rows] is [None] when [inputs] ends before three rows
    are accepted. *)
Fixpoint read_rows (inputs : list (option (list Z))) (puzzle : State)
  : option State :=
  let size := 3%nat in
  if bool_decide (length puzzle < size)%nat then
    match inputs with
    | [] => None
    | None :: inputs => read_rows inputs puzzle
    | Some row :: inputs =>
      if bool_decide (length row ≠ size) then read_rows inputs puzzle
      else if negb (forallb (λ x, bool_decide (0 ≤ x ≤ 8)) row)
      then read_rows inputs puzzle
      else read_rows inputs (puzzle ++ [row])
    end
  else Some puzzle.

Definition get_user_puzzle (inputs : list (option (list Z)))
  : option (option State) :=
  puzzle ← read_rows inputs [];
  Some (check_user_puzzle puzzle).

Definition GOAL_STATE_8_PUZZLE : State := [[1; 2; 3]; [4; 5; 6]; [7; 8; 0]].

(** * Properties *)

(** ** The error monad and the loops *)

Lemma bind_Ok {A B} (f : A → result B) (m : result A) (b : B) :
  m ≫= f = Ok b ↔ ∃ a, m = Ok a ∧ f a = Ok b.
Proof.
  destruct m; simpl; [|split; [done|by intros (? & ? & ?)]].
  split; [by eexists|]. by intros (? & ? & ?); simplify_eq.
Qed.

Lemma Ok_bind {A B} (f : A → result B) (a : A) : Ok a ≫= f = f a.
Proof. done. Qed.

Lemma for_acc_app {I S} (xs ys : list I) (body : I → S → result S) acc :
  for_acc (xs ++ ys) body acc = for_acc xs body acc ≫= for_acc ys body.
Proof.
  revert acc. induction xs as [|i xs IH]; intros acc; simpl; [done|].
  destruct (body i acc); simpl; auto.
Qed.

Lemma for_acc_ext {I S} (xs : list I) (f g : I → S → result S) acc :
  (∀ i a, i ∈ xs → f i a = g i a) → for_acc xs f acc = for_acc xs g acc.
Proof.
  revert acc. induction xs as [|i xs IH]; intros acc Hfg; simpl; [done|].
  rewrite Hfg by left. destruct (g i acc); simpl; [|done].
  apply IH. intros. apply Hfg. by right.
Qed.

(** A nested accumulating loop is a single loop over the index pairs. *)
Definition pairs (xs ys : list nat) : list (nat * nat) :=
  r ← xs; c ← ys; [(r, c)].

Lemma for_acc_nested {S} (xs ys : list nat) (body : nat → nat → S → result S) acc :
  for_acc xs (λ r a, for_acc ys (body r) a) acc
  = for_acc (pairs xs ys) (λ p, body p.1 p.2) acc.
Proof.
  unfold pairs. revert acc. induction xs as [|r xs IH]; intros acc; [done|].
  cbn [for_acc mbind]. simpl. rewrite for_acc_app.
  assert (for_acc (ys ≫= λ c, [(r, c)]) (λ p, body p.1 p.2) acc
          = for_acc ys (body r) acc) as ->.
  { clear. revert acc. induction ys as [|c ys IH]; intros acc; [done|].
    simpl. destruct (body r c acc); simpl; auto. }
  destruct (for_acc ys (body r) acc); simpl; auto.
Qed.

Lemma for_return_app {I A} (xs ys : list I) (body : I → result (option A)) :
  for_return (xs ++ ys) body
  = match for_return xs body with Ok None => for_return ys body | r => r end.
Proof.
  induction xs as [|i xs IH]; simpl; [done|].
  destruct (body i) as [[?|]|]; auto.
Qed.

Lemma for_return_nested {A} (xs ys : list nat)
    (body : nat → nat → result (option A)) :
  for_return xs (λ r, for_return ys (body r))
  = for_return (pairs xs ys) (λ p, body p.1 p.2).
Proof.
  unfold pairs. induction xs as [|r xs IH]; [done|].
  change (for_return (r :: xs) (λ r, for_return ys (body r))
          = for_return ((ys ≫= λ c, [(r, c)])
                        ++ (xs ≫= λ r, ys ≫= λ c, [(r, c)]))
              (λ p, body p.1 p.2)).
  rewrite for_return_app, <- IH.
  assert (for_return (ys ≫= λ c, [(r, c)]) (λ p, body p.1 p.2)
          = for_return ys (body r)) as ->; [|done].
  clear. induction ys as [|c ys IH]; simpl; [done|].
  destruct (body r c) as [[?|]|]; auto.
Qed.

Lemma elem_of_pairs xs ys r c : (r, c) ∈ pairs xs ys ↔ r ∈ xs ∧ c ∈ ys.
Proof.
  unfold pairs. rewrite list_elem_of_bind. split.
  - intros (r' & Hin & Hr). apply list_elem_of_bind in Hin as (c' & Hin & Hc).
    apply list_elem_of_singleton in Hin. by simplify_eq.
  - intros [Hr Hc]. exists r. split; [|done].
    apply list_elem_of_bind. exists c. split; [|done]. by left.
Qed.

Lemma elem_of_range n i : i ∈ range n ↔ (i < n)%nat.
Proof. unfold range. rewrite elem_of_seq. lia. Qed.

(** An early-return loop finds the first index at which the body returns. *)
Lemma for_return_Some {I A} (xs : list I) (body : I → result (option A)) v :
  for_return xs body = Ok (Some v) ↔
  ∃ xs1 i xs2, xs = xs1 ++ i :: xs2 ∧ body i = Ok (Some v) ∧
               Forall (λ j, body j = Ok None) xs1.
Proof.
  induction xs as [|i xs IH]; simpl.
  - split; [done|]. intros (xs1 & ? & ? & ? & _). by destruct xs1.
  - destruct (body i) as [[w|]|] eqn:Hb.
    + split.
      * intros ?; simplify_eq. by exists [], i, xs.
      * intros ([|j xs1] & i' & xs2 & Heq & Hi & Hall); simplify_eq/=; [congruence|].
        apply Forall_cons in Hall as [? _]. congruence.
    + rewrite IH. split.
      * intros (xs1 & i' & xs2 & -> & ? & ?). exists (i :: xs1), i', xs2.
        split_and!; [done..|]. by constructor.
      * intros ([|j xs1] & i' & xs2 & Heq & Hi & Hall); simplify_eq/=;
          [congruence|].
        apply Forall_cons in Hall as [_ ?]. by exists xs1, i', xs2.
    + split; [done|].
      intros ([|j xs1] & i' & xs2 & Heq & Hi & Hall); simplify_eq/=;
        [congruence|].
      apply Forall_cons in Hall as [? _]. congruence.
Qed.

Lemma for_return_None {I A} (xs : list I) (body : I → result (option A)) :
  for_return xs body = Ok None ↔ Forall (λ j, body j = Ok None) xs.
Proof.
  induction xs as [|i xs IH]; simpl; [by split|].
  rewrite Forall_cons. destruct (body i) as [[w|]|] eqn:Hb; naive_solver.
Qed.

Lemma for_return_total {I A} (xs : list I) (body : I → result (option A)) :
  Forall (λ j, ∃ o, body j = Ok o) xs → ∃ o, for_return xs body = Ok o.
Proof.
  induction 1 as [|i xs [o Ho] _ IH]; simpl; [by eexists|].
  rewrite Ho. destruct o; eauto.
Qed.

(** ** Grids *)

(** [s[r][c]], when both indices are in range. *)
Definition cell (s : State) (r c : nat) : option Z := row ← s !! r; row !! c.

(** An [n] by [n] grid. *)
Definition square (n : nat) (s : State) : Prop :=
  length s = n ∧ Forall (λ row, length row = n) s.

(** A Configuration: an [n] by [n] grid holding each of [0 .. n*n-1]
    exactly once. *)
Definition valid (n : nat) (s : State) : Prop :=
  square n s ∧ mjoin s ≡ₚ seqZ 0 (Z.of_nat (n * n)).

#[global] Instance square_dec n s : Decision (square n s).
Proof. unfold square. apply _. Defined.

Lemma getitem2_cell {B} (s : State) r c (k : Z → result B) v :
  cell s r c = Some v →
  (row ← getitem s r; x ← getitem row c; k x) = k v.
Proof.
  unfold cell, getitem. destruct (s !! r) as [row|]; simpl; [|done].
  by intros ->.
Qed.

Lemma getitem2_cell_Ok (s : State) r c v :
  cell s r c = Some v → (row ← getitem s r; getitem row c) = Ok v.
Proof.
  unfold cell, getitem. destruct (s !! r) as [row|]; simpl; [|done].
  by intros ->.
Qed.

Lemma getitem2_None {B} (s : State) r c (k : Z → result B) :
  cell s r c = None →
  (row ← getitem s r; x ← getitem row c; k x) = Raise IndexError.
Proof.
  unfold cell, getitem. destruct (s !! r) as [row|]; simpl; [|done].
  by intros ->.
Qed.

Lemma square_row n s r row : square n s → s !! r = Some row → length row = n.
Proof. intros [_ Hall] Hr. by eapply (Forall_lookup_1 _ _ _ _ Hall). Qed.

Lemma cell_is_Some n s r c :
  square n s → is_Some (cell s r c) ↔ (r < n)%nat ∧ (c < n)%nat.
Proof.
  intros Hsq. unfold cell. split.
  - intros [v Hv]. destruct (s !! r) as [row|] eqn:Hr; simplify_eq/=.
    pose proof (square_row _ _ _ _ Hsq Hr).
    apply lookup_lt_Some in Hr, Hv. destruct Hsq. lia.
  - intros [Hr Hc]. destruct (lookup_lt_is_Some_2 s r) as [row Hrow].
    { destruct Hsq. lia. }
    rewrite Hrow. simpl. apply lookup_lt_is_Some_2.
    rewrite (square_row _ _ _ _ Hsq Hrow). lia.
Qed.

Lemma cell_Some_lt n s r c v :
  square n s → cell s r c = Some v → (r < n)%nat ∧ (c < n)%nat.
Proof. intros Hsq Hv. apply (cell_is_Some n s r c Hsq). by eexists. Qed.

Lemma join_lookup_square n s r c :
  Forall (λ row, length row = n) s → (c < n)%nat →
  mjoin s !! (r * n + c)%nat = cell s r c.
Proof.
  intros Hall Hc. revert r. induction Hall as [|row s Hrow _ IH]; intros r.
  - done.
  - destruct r as [|r]; simpl.
    + unfold cell. simpl. rewrite lookup_app_l by lia. done.
    + rewrite lookup_app_r by lia.
      replace (n + r * n + c - length row)%nat with (r * n + c)%nat by lia.
      apply IH.
Qed.

Lemma elem_of_join_cell (s : State) v :
  v ∈ mjoin s ↔ ∃ r c, cell s r c = Some v.
Proof.
  rewrite list_elem_of_join. unfold cell. split.
  - intros (row & Hv & Hrow).
    apply list_elem_of_lookup in Hv as [c Hc], Hrow as [r Hr].
    exists r, c. by rewrite Hr.
  - intros (r & c & Hv). destruct (s !! r) as [row|] eqn:Hr; simplify_eq/=.
    exists row. split; by eapply list_elem_of_lookup_2.
Qed.

Lemma cell_inj n s r c r' c' v :
  square n s → NoDup (mjoin s) →
  cell s r c = Some v → cell s r' c' = Some v → r = r' ∧ c = c'.
Proof.
  intros Hsq Hnd H1 H2.
  destruct (cell_Some_lt _ _ _ _ _ Hsq H1), (cell_Some_lt _ _ _ _ _ Hsq H2).
  destruct Hsq as [_ Hall].
  rewrite <- (join_lookup_square n) in H1, H2 by done.
  pose proof (NoDup_lookup _ _ _ _ Hnd H1 H2) as Heq.
  assert (r = r') as ->; [|lia].
  destruct (Nat.lt_trichotomy r r') as [Hlt|[?|Hlt]]; [|done|].
  - pose proof (Nat.mul_le_mono_r (S r) r' n Hlt). lia.
  - pose proof (Nat.mul_le_mono_r (S r') r n Hlt). lia.
Qed.

Lemma valid_square n s : valid n s → square n s.
Proof. by intros []. Qed.

Lemma valid_NoDup n s : valid n s → NoDup (mjoin s).
Proof. intros [_ Hp]. rewrite Hp. apply NoDup_seqZ. Qed.

Lemma valid_elem_of n s v : valid n s → v ∈ mjoin s ↔ 0 ≤ v < Z.of_nat (n * n).
Proof. intros [_ Hp]. rewrite Hp, elem_of_seqZ. lia. Qed.

(** Writing cells. *)
Lemma length_setitem2 s r c v : length (setitem2 s r c v) = length s.
Proof. apply length_alter. Qed.

Lemma square_setitem2 n s r c v : square n s → square n (setitem2 s r c v).
Proof.
  intros [Hlen Hall]. split; [by rewrite length_setitem2|].
  unfold setitem2. apply Forall_alter; [done|].
  intros row _ Hrow. by rewrite length_insert.
Qed.

Lemma cell_setitem2_eq s r c v :
  is_Some (cell s r c) → cell (setitem2 s r c v) r c = Some v.
Proof.
  unfold cell, setitem2. intros [w Hw].
  destruct (s !! r) as [row|] eqn:Hr; simplify_eq/=.
  rewrite list_lookup_alter_eq, Hr. simpl.
  apply list_lookup_insert_eq. by eapply lookup_lt_Some.
Qed.

Lemma cell_setitem2_ne s r c v r' c' :
  (r, c) ≠ (r', c') → cell (setitem2 s r c v) r' c' = cell s r' c'.
Proof.
  unfold cell, setitem2. intros Hne. destruct (decide (r = r')) as [->|].
  - rewrite list_lookup_alter_eq. destruct (s !! r') as [row|]; simpl; [|done].
    apply list_lookup_insert_ne. congruence.
  - by rewrite list_lookup_alter_ne.
Qed.

Lemma join_setitem2 n s r c v :
  Forall (λ row, length row = n) s → (c < n)%nat →
  mjoin (setitem2 s r c v) = <[(r * n + c)%nat := v]> (mjoin s).
Proof.
  intros Hall Hc. revert r. unfold setitem2.
  induction Hall as [|row s Hrow _ IH]; intros r; [done|].
  destruct r as [|r]; simpl.
  - rewrite insert_app_l by lia. done.
  - change (list_alter ?f r s) with (alter f r s). rewrite IH.
    replace (n + r * n + c)%nat with (length row + (r * n + c))%nat by lia.
    by rewrite insert_app_r.
Qed.

Lemma insert_cons_Permutation {A} (l : list A) i x y :
  l !! i = Some x → x :: <[i := y]> l ≡ₚ y :: l.
Proof.
  revert i. induction l as [|z l IH]; intros [|i] Hi; simplify_eq/=.
  - apply perm_swap.
  - rewrite perm_swap. rewrite (IH _ Hi). apply perm_swap.
Qed.

Lemma setitem2_cons_Permutation n s r c x y :
  square n s → cell s r c = Some x →
  x :: mjoin (setitem2 s r c y) ≡ₚ y :: mjoin s.
Proof.
  intros Hsq Hx. destruct (cell_Some_lt _ _ _ _ _ Hsq Hx) as [Hr Hc].
  destruct Hsq as [_ Hall]. rewrite (join_setitem2 n) by done.
  apply insert_cons_Permutation. by rewrite (join_lookup_square n).
Qed.

Lemma swap_cells_Ok s r1 c1 r2 c2 s' :
  swap_cells s r1 c1 r2 c2 = Ok s' ↔
  ∃ v1 v2, cell s r1 c1 = Some v1 ∧ cell s r2 c2 = Some v2 ∧
           s' = setitem2 (setitem2 s r1 c1 v2) r2 c2 v1.
Proof.
  unfold swap_cells. destruct (cell s r2 c2) as [v2|] eqn:H2.
  - rewrite (getitem2_cell _ _ _ _ _ H2).
    destruct (cell s r1 c1) as [v1|] eqn:H1.
    + rewrite (getitem2_cell _ _ _ _ _ H1). naive_solver.
    + rewrite (getitem2_None _ _ _ _ H1). naive_solver.
  - rewrite (getitem2_None _ _ _ _ H2). naive_solver.
Qed.

Lemma square_swap_cells n s r1 c1 r2 c2 s' :
  square n s → swap_cells s r1 c1 r2 c2 = Ok s' → square n s'.
Proof.
  intros Hsq (v1 & v2 & _ & _ & ->)%swap_cells_Ok.
  by do 2 apply square_setitem2.
Qed.

Lemma join_swap_cells n s r1 c1 r2 c2 s' :
  square n s → (r1, c1) ≠ (r2, c2) →
  swap_cells s r1 c1 r2 c2 = Ok s' → mjoin s' ≡ₚ mjoin s.
Proof.
  intros Hsq Hne (v1 & v2 & H1 & H2 & ->)%swap_cells_Ok.
  apply (Permutation_cons_inv (a := v2)).
  rewrite (setitem2_cons_Permutation n); first last.
  { by rewrite cell_setitem2_ne. }
  { by apply square_setitem2. }
  by rewrite (setitem2_cons_Permutation n).
Qed.

Lemma valid_swap_cells n s r1 c1 r2 c2 s' :
  valid n s → (r1, c1) ≠ (r2, c2) →
  swap_cells s r1 c1 r2 c2 = Ok s' → valid n s'.
Proof.
  intros [Hsq Hp] Hne Hs. split; [by eapply square_swap_cells|].
  by rewrite (join_swap_cells n _ _ _ _ _ _ Hsq Hne Hs).
Qed.

(** ** [find_blank] *)

Lemma find_blank_body_cell (s : State) r c :
  (row ← getitem s r; v ← getitem row c;
   if bool_decide (v = 0) then Ok (Some (r, c)) else Ok None)
  = match cell s r c with
    | Some v => if bool_decide (v = 0) then Ok (Some (r, c)) else Ok None
    | None => Raise IndexError
    end.
Proof.
  destruct (cell s r c) eqn:Hc.
  - by rewrite (getitem2_cell _ _ _ _ _ Hc).
  - by rewrite (getitem2_None _ _ _ _ Hc).
Qed.

(** Whatever position [find_blank] returns holds the blank. *)
Lemma find_blank_Some s r c :
  find_blank s = Ok (Some (r, c)) → cell s r c = Some 0.
Proof.
  unfold find_blank. rewrite for_return_nested.
  intros (_ & [r' c'] & _ & _ & Hbody & _)%for_return_Some.
  simpl in Hbody. rewrite find_blank_body_cell in Hbody.
  destruct (cell s r' c') as [v|] eqn:Hc; [|done].
  case_bool_decide; by simplify_eq.
Qed.

(** On a square grid that holds a blank, [find_blank] returns a position. *)
Lemma find_blank_square n s :
  square n s → 0 ∈ mjoin s →
  ∃ r c, find_blank s = Ok (Some (r, c)) ∧ cell s r c = Some 0.
Proof.
  intros Hsq H0.
  assert (∃ o, find_blank s = Ok o) as [o Ho].
  { unfold find_blank. rewrite for_return_nested. apply for_return_total.
    apply Forall_forall. intros [r c] [Hr Hc]%elem_of_pairs. simpl.
    rewrite find_blank_body_cell.
    apply elem_of_range in Hr, Hc. destruct Hsq as [Hlen Hall].
    destruct (proj2 (cell_is_Some n s r c (conj Hlen Hall))) as [v ->]; [lia|].
    case_bool_decide; eauto. }
  destruct o as [[r c]|].
  - exists r, c. split; [done|]. by apply find_blank_Some.
  - exfalso. unfold find_blank in Ho.
    rewrite for_return_nested, for_return_None, Forall_forall in Ho.
    apply elem_of_join_cell in H0 as (r & c & Hc).
    destruct (cell_Some_lt _ _ _ _ _ Hsq Hc) as [Hr Hc'].
    specialize (Ho (r, c)). simpl in Ho.
    rewrite find_blank_body_cell, Hc in Ho. simpl in Ho.
    destruct Hsq as [Hlen _]. rewrite Hlen in Ho.
    discriminate Ho. apply elem_of_pairs. by rewrite !elem_of_range.
Qed.

Lemma valid_has_blank n s : valid n s → (0 < n)%nat → 0 ∈ mjoin s.
Proof. intros Hv Hn. apply (valid_elem_of n s 0 Hv). nia. Qed.

(** In a Configuration the blank is where [find_blank] says, and nowhere
    else. *)
Lemma find_blank_valid n s :
  valid n s → (0 < n)%nat →
  ∃ r c, find_blank s = Ok (Some (r, c)) ∧
         ∀ r' c', cell s r' c' = Some 0 ↔ r' = r ∧ c' = c.
Proof.
  intros Hv Hn.
  destruct (find_blank_square n s) as (r & c & Hfb & Hc);
    [by apply valid_square|by eapply valid_has_blank|].
  exists r, c. split; [done|]. intros r' c'. split.
  - intros Hc'. eapply cell_inj; eauto using valid_square, valid_NoDup.
  - by intros [-> ->].
Qed.

(** ** [expand] *)

(** [for x in xs: results.append(g(x))] with exceptions. *)
Fixpoint collect {I B} (g : I → result B) (xs : list I) : result (list B) :=
  match xs with
  | [] => Ok []
  | x :: xs' => y ← g x; ys ← collect g xs'; Ok (y :: ys)
  end.

Lemma collect_Ok {I B} (g : I → result B) xs ys :
  collect g xs = Ok ys ↔ Forall2 (λ x y, g x = Ok y) xs ys.
Proof.
  revert ys. induction xs as [|x xs IH]; intros ys; simpl.
  - split; [by intros [= <-]|by inv 1].
  - rewrite bind_Ok. split.
    + intros (y & Hy & (ys' & Hys & [= <-])%bind_Ok).
      constructor; [done|by apply IH].
    + inv 1. eexists. split; [done|]. apply bind_Ok. eexists.
      split; [by apply IH|done].
Qed.

Lemma for_acc_collect {I B} (xs : list I) (P : I → bool) (g : I → result B) acc :
  for_acc xs (λ x acc, if P x then y ← g x; Ok (acc ++ [y]) else Ok acc) acc
  = ys ← collect g (filter P xs); Ok (acc ++ ys).
Proof.
  revert acc. induction xs as [|x xs IH]; intros acc; simpl.
  - by rewrite app_nil_r.
  - rewrite filter_cons. destruct (P x); simpl.
    + destruct (g x) as [y|]; simpl; [|done]. rewrite IH.
      destruct (collect g (filter P xs)); simpl; [|done].
      by rewrite <- app_assoc.
    + apply IH.
Qed.

(** The test [0 <= new_r < len(state) and 0 <= new_c < len(state)]. *)
Definition in_grid (n blank_r blank_c : nat) (m : Z * Z * string) : bool :=
  bool_decide (0 ≤ Z.of_nat blank_r + m.1.1 < Z.of_nat n) &&
  bool_decide (0 ≤ Z.of_nat blank_c + m.1.2 < Z.of_nat n).

(** The moves that pass the test, in the order of [moves]. *)
Definition legal_moves (n blank_r blank_c : nat) : list (Z * Z * string) :=
  filter (λ m, in_grid n blank_r blank_c m) moves.

(** The node built for one move that passed the test. *)
Definition successor (node : PuzzleNode) (goal_state : State)
    (heuristic_func : Heuristic) (goal_pos : GoalPos)
    (blank_r blank_c : nat) (m : Z * Z * string) : result PuzzleNode :=
  new_state ← swap_cells (state node) blank_r blank_c
                (Z.to_nat (Z.of_nat blank_r + m.1.1))
                (Z.to_nat (Z.of_nat blank_c + m.1.2));
  new_h_cost ← heuristic_call heuristic_func goal_pos new_state goal_state;
  Ok (PuzzleNode_init new_state (Some node) (Some m.2)
        (g_cost node + 1) new_h_cost).

Lemma expand_collect node goal_state h gp :
  expand node goal_state h gp =
  blank ← find_blank (state node);
  match blank with
  | None => Raise TypeError
  | Some (br, bc) =>
    collect (successor node goal_state h gp br bc)
      (legal_moves (length (state node)) br bc)
  end.
Proof.
  unfold expand.
  destruct (find_blank (state node)) as [[[br bc]|]|]; try reflexivity.
  rewrite !Ok_bind. unfold legal_moves.
  rewrite (for_acc_ext _ _
    (λ m acc, if in_grid (length (state node)) br bc m
              then y ← successor node goal_state h gp br bc m; Ok (acc ++ [y])
              else Ok acc)).
  - rewrite for_acc_collect.
    by destruct (collect _ _).
  - intros [[dr dc] a] acc _. unfold in_grid, successor. simpl.
    destruct (_ && _); [|done].
    destruct (swap_cells _ _ _ _ _); simpl; [|done].
    by destruct (heuristic_call _ _ _ _).
Qed.

Lemma expand_Ok node goal_state h gp succs :
  expand node goal_state h gp = Ok succs ↔
  ∃ br bc, find_blank (state node) = Ok (Some (br, bc)) ∧
    Forall2 (λ m child, successor node goal_state h gp br bc m = Ok child)
      (legal_moves (length (state node)) br bc) succs.
Proof.
  rewrite expand_collect, bind_Ok. split.
  - intros ([[br bc]|] & Hfb & Hc); [|done].
    exists br, bc. split; [done|]. by apply collect_Ok.
  - intros (br & bc & Hfb & Hc). exists (Some (br, bc)).
    split; [done|]. by apply collect_Ok.
Qed.

Lemma successor_Ok node goal_state h gp br bc m child :
  successor node goal_state h gp br bc m = Ok child ↔
  ∃ new_state new_h_cost,
    swap_cells (state node) br bc (Z.to_nat (Z.of_nat br + m.1.1))
      (Z.to_nat (Z.of_nat bc + m.1.2)) = Ok new_state ∧
    heuristic_call h gp new_state goal_state = Ok new_h_cost ∧
    child = PuzzleNode_init new_state (Some node) (Some m.2)
              (g_cost node + 1) new_h_cost.
Proof.
  unfold successor. rewrite bind_Ok. setoid_rewrite bind_Ok.
  split.
  - intros (s' & ? & hv & ? & [= <-]). by exists s', hv.
  - intros (s' & hv & ? & ? & ->). exists s'. split; [done|]. by exists hv.
Qed.

(** Two cells next to each other in a row or in a column. *)
Definition adjacent (p q : nat * nat) : Prop :=
  (p.1 = q.1 ∧ (p.2 = S q.2 ∨ q.2 = S p.2)) ∨
  (p.2 = q.2 ∧ (p.1 = S q.1 ∨ q.1 = S p.1)).

#[global] Instance adjacent_dec p q : Decision (adjacent p q).
Proof. unfold adjacent. apply _. Defined.

(** One move of the puzzle: the blank at [p] changes places with the tile
    [v] in an adjacent cell [q]. *)
Definition slide (s s' : State) : Prop :=
  ∃ p q v, cell s p.1 p.2 = Some 0 ∧ cell s q.1 q.2 = Some v ∧ adjacent p q ∧
           s' = setitem2 (setitem2 s p.1 p.2 v) q.1 q.2 0.

Lemma elem_of_moves m :
  m ∈ moves ↔ m = (-1, 0, "Up"%string) ∨ m = (1, 0, "Down"%string) ∨
              m = (0, -1, "Left"%string) ∨ m = (0, 1, "Right"%string).
Proof. unfold moves. rewrite !elem_of_cons, elem_of_nil. tauto. Qed.

Lemma elem_of_legal_moves n br bc m :
  m ∈ legal_moves n br bc ↔
  m ∈ moves ∧ 0 ≤ Z.of_nat br + m.1.1 < Z.of_nat n
            ∧ 0 ≤ Z.of_nat bc + m.1.2 < Z.of_nat n.
Proof.
  unfold legal_moves, in_grid. rewrite list_elem_of_filter, andb_True.
  rewrite !bool_decide_spec. tauto.
Qed.

Lemma legal_move_target n br bc m :
  m ∈ legal_moves n br bc →
  (Z.to_nat (Z.of_nat br + m.1.1) < n)%nat ∧
  (Z.to_nat (Z.of_nat bc + m.1.2) < n)%nat ∧
  adjacent (br, bc) (Z.to_nat (Z.of_nat br + m.1.1),
                     Z.to_nat (Z.of_nat bc + m.1.2)).
Proof.
  intros (Hm & Hr & Hc)%elem_of_legal_moves.
  apply elem_of_moves in Hm. unfold adjacent.
  destruct Hm as [-> | [-> | [-> | ->]]]; simpl in *; lia.
Qed.

Lemma adjacent_legal_move n br bc r' c' :
  adjacent (br, bc) (r', c') → (r' < n)%nat → (c' < n)%nat →
  ∃ m, m ∈ legal_moves n br bc ∧
       Z.to_nat (Z.of_nat br + m.1.1) = r' ∧
       Z.to_nat (Z.of_nat bc + m.1.2) = c'.
Proof.
  unfold adjacent. simpl. intros Hadj Hr Hc.
  destruct Hadj as [[Heq [Heq'|Heq']]|[Heq [Heq'|Heq']]]; subst.
  - exists (0, -1, "Left"%string).
    rewrite elem_of_legal_moves, elem_of_moves. simpl. split_and!; auto; lia.
  - exists (0, 1, "Right"%string).
    rewrite elem_of_legal_moves, elem_of_moves. simpl. split_and!; auto; lia.
  - exists (-1, 0, "Up"%string).
    rewrite elem_of_legal_moves, elem_of_moves. simpl. split_and!; auto; lia.
  - exists (1, 0, "Down"%string).
    rewrite elem_of_legal_moves, elem_of_moves. simpl. split_and!; auto; lia.
Qed.

Lemma adjacent_ne p q : adjacent p q → p ≠ q.
Proof. unfold adjacent. intros H ->. lia. Qed.

(** Every node that [expand] returns is one move away from its parent. *)
Lemma expand_sound node goal_state h gp succs child :
  expand node goal_state h gp = Ok succs → child ∈ succs →
  slide (state node) (state child) ∧
  parent child = Some node ∧
  g_cost child = g_cost node + 1 ∧
  f_cost child = g_cost child + h_cost child ∧
  heuristic_call h gp (state child) goal_state = Ok (h_cost child).
Proof.
  intros (br & bc & Hfb & Hall)%expand_Ok Hin.
  apply list_elem_of_lookup in Hin as [i Hi].
  destruct (Forall2_lookup_r _ _ _ _ _ Hall Hi) as (m & Hm & Hsucc).
  apply list_elem_of_lookup_2 in Hm. apply legal_move_target in Hm as (_ & _ & Hadj).
  apply successor_Ok in Hsucc as (s' & hv & Hswap & Hh & ->). simpl.
  split_and!; try done.
  apply swap_cells_Ok in Hswap as (v1 & v2 & H1 & H2 & ->).
  apply find_blank_Some in Hfb.
  exists (br, bc), (Z.to_nat (Z.of_nat br + m.1.1), Z.to_nat (Z.of_nat bc + m.1.2)), v2.
  simpl. split_and!; try done. congruence.
Qed.

Lemma slide_valid n s s' : valid n s → slide s s' → valid n s'.
Proof.
  intros Hv ([r c] & [r' c'] & v & Hp & Hq & Hadj & ->). simpl in *.
  apply (valid_swap_cells n s r c r' c'); [done|by apply adjacent_ne|].
  apply swap_cells_Ok. by exists 0, v.
Qed.

(** On a Configuration, [expand] returns a node for every move of the
    puzzle, provided the heuristic can be evaluated. *)
Lemma expand_complete n node goal_state h gp :
  valid n (state node) → (0 < n)%nat →
  (∀ s', valid n s' → ∃ hv, heuristic_call h gp s' goal_state = Ok hv) →
  ∃ succs, expand node goal_state h gp = Ok succs ∧
    ∀ s', slide (state node) s' → ∃ child, child ∈ succs ∧ state child = s'.
Proof.
  intros Hv Hn Hh.
  destruct (find_blank_valid n _ Hv Hn) as (br & bc & Hfb & Huniq).
  pose proof (valid_square _ _ Hv) as Hsq.
  assert (Hlen : length (state node) = n) by apply Hsq.
  assert (∀ m, m ∈ legal_moves n br bc →
    ∃ child, successor node goal_state h gp br bc m = Ok child) as Htot.
  { intros m (Hr & Hc & Hadj)%legal_move_target.
    destruct (proj2 (cell_is_Some n (state node) _ _ Hsq) (conj Hr Hc)) as [v Hcv].
    assert (cell (state node) br bc = Some 0) as Hb by by apply Huniq.
    destruct (Hh (setitem2 (setitem2 (state node) br bc v)
                    (Z.to_nat (Z.of_nat br + m.1.1))
                    (Z.to_nat (Z.of_nat bc + m.1.2)) 0)) as [hv Hhv].
    { eapply slide_valid; [done|]. eexists (br, bc), (_, _), v. by simpl. }
    eexists. apply successor_Ok. eexists _, hv. split_and!; [|done..].
    apply swap_cells_Ok. by exists 0, v. }
  assert (∃ succs, Forall2 (λ m child, successor node goal_state h gp br bc m = Ok child)
            (legal_moves n br bc) succs) as [succs Hsuccs].
  { revert Htot. generalize (legal_moves n br bc). intros ms.
    induction ms as [|m ms IH]; intros Htot; [by exists []|].
    destruct IH as [succs Hs]. { intros. apply Htot. by right. }
    destruct (Htot m) as [child Hchild]; [by left|].
    exists (child :: succs). by constructor. }
  exists succs. split.
  { apply expand_Ok. exists br, bc. by rewrite Hlen. }
  intros s' ([r c] & [r' c'] & v & Hp & Hq & Hadj & ->). simpl in *.
  apply Huniq in Hp as [-> ->].
  destruct (cell_Some_lt _ _ _ _ _ Hsq Hq) as [Hr' Hc'].
  destruct (adjacent_legal_move n br bc r' c' Hadj Hr' Hc') as (m & Hm & <- & <-).
  apply list_elem_of_lookup in Hm as [i Hi].
  destruct (Forall2_lookup_l _ _ _ _ _ Hsuccs Hi) as (child & Hchild & Hsucc).
  exists child. split; [by eapply list_elem_of_lookup_2|].
  apply successor_Ok in Hsucc as (s' & hv & Hswap & _ & ->). simpl.
  apply swap_cells_Ok in Hswap as (v1 & v2 & H1 & H2 & ->).
  assert (cell (state node) br bc = Some 0) as Hb by by apply Huniq.
  congruence.
Qed.

(** ** The heuristics as sums over the cells *)

Definition Zsum (l : list Z) : Z := foldr Z.add 0 l.

Lemma Zsum_cons x l : Zsum (x :: l) = x + Zsum l.
Proof. done. Qed.

(** The index pairs of an [n] by [n] grid, row by row. *)
Definition cells (n : nat) : list (nat * nat) := pairs (range n) (range n).

(** The sum over all cells of a weight that depends on the position and
    on the value found there. *)
Definition cellsum (W : nat → nat → Z → Z) (n : nat) (s : State) : Z :=
  Zsum ((λ p, W p.1 p.2 (default 0 (cell s p.1 p.2))) <$> cells n).

Lemma elem_of_cells n r c : (r, c) ∈ cells n ↔ (r < n)%nat ∧ (c < n)%nat.
Proof. unfold cells. by rewrite elem_of_pairs, !elem_of_range. Qed.

Lemma NoDup_cells n : NoDup (cells n).
Proof.
  unfold cells, pairs. apply NoDup_bind.
  - intros r1 r2 [r c] _ _ (c1 & Hc1 & _)%list_elem_of_bind
                           (c2 & Hc2 & _)%list_elem_of_bind.
    apply list_elem_of_singleton in Hc1, Hc2. congruence.
  - intros r _. apply NoDup_bind.
    + intros c1 c2 p _ _ H1%list_elem_of_singleton H2%list_elem_of_singleton.
      congruence.
    + intros. apply NoDup_singleton.
    + apply NoDup_seq.
  - apply NoDup_seq.
Qed.

Lemma for_acc_sum {X} (xs : list X) (w : X → Z) (body : X → Z → result Z) acc :
  (∀ i a, i ∈ xs → body i a = Ok (a + w i)) →
  for_acc xs body acc = Ok (acc + Zsum (w <$> xs)).
Proof.
  revert acc. induction xs as [|i xs IH]; intros acc Hb.
  - simpl. by rewrite Z.add_0_r.
  - cbn [for_acc]. rewrite Hb by left.
    rewrite Ok_bind, IH by (intros; apply Hb; by right).
    rewrite fmap_cons, Zsum_cons. by rewrite Z.add_assoc.
Qed.

(** Changing the summand at one index of a duplicate-free list. *)
Lemma Zsum_change {X} (xs : list X) (f g : X → Z) p :
  NoDup xs → p ∈ xs → (∀ x, x ∈ xs → x ≠ p → g x = f x) →
  Zsum (g <$> xs) = Zsum (f <$> xs) + g p - f p.
Proof.
  intros Hnd Hp Hfg. induction Hnd as [|x xs Hx Hnd IH]; [by inv Hp|].
  rewrite !fmap_cons, !Zsum_cons. apply elem_of_cons in Hp as [->|Hp].
  - assert (Zsum (g <$> xs) = Zsum (f <$> xs)) as ->; [|lia].
    f_equal. apply list_fmap_ext. intros i y Hy. apply Hfg.
    + right. by eapply list_elem_of_lookup_2.
    + intros ->. apply Hx. by eapply list_elem_of_lookup_2.
  - rewrite IH.
    + rewrite (Hfg x); [lia|by left|by intros ->].
    + done.
    + intros. apply Hfg; [by right|done].
Qed.

Lemma cellsum_setitem2 W n s r c old v :
  square n s → cell s r c = Some old →
  cellsum W n (setitem2 s r c v) = cellsum W n s + W r c v - W r c old.
Proof.
  intros Hsq Hold. unfold cellsum.
  rewrite (Zsum_change (cells n)
    (λ p, W p.1 p.2 (default 0 (cell s p.1 p.2))) _ (r, c)).
  - simpl. rewrite cell_setitem2_eq by by eexists. rewrite Hold. done.
  - apply NoDup_cells.
  - apply elem_of_cells. by eapply cell_Some_lt.
  - intros [r' c'] _ Hne. simpl. by rewrite cell_setitem2_ne.
Qed.

(** What one move does to such a sum, when the blank weighs nothing. *)
Lemma cellsum_slide W n s s' :
  square n s → (∀ r c, W r c 0 = 0) → slide s s' →
  ∃ p q v, adjacent p q ∧
    cellsum W n s' = cellsum W n s + W p.1 p.2 v - W q.1 q.2 v.
Proof.
  intros Hsq HW ([r c] & [r' c'] & v & Hp & Hq & Hadj & ->). simpl in *.
  exists (r, c), (r', c'), v. split; [done|]. simpl.
  rewrite (cellsum_setitem2 W n _ r' c' v 0).
  - rewrite (cellsum_setitem2 W n _ r c 0 v) by done. rewrite !HW. lia.
  - by apply square_setitem2.
  - rewrite cell_setitem2_ne; [done|]. by apply adjacent_ne in Hadj.
Qed.

(** The weight of a cell for the misplaced-tile count. *)
Definition misplaced_weight (goal_state : State) (r c : nat) (v : Z) : Z :=
  if bool_decide (v ≠ 0) && bool_decide (cell goal_state r c ≠ Some v)
  then 1 else 0.

Lemma misplaced_tile_cellsum n s goal_state :
  square n s → square n goal_state →
  misplaced_tile_heuristic s goal_state
  = Ok (cellsum (misplaced_weight goal_state) n s).
Proof.
  intros Hs Hg. unfold misplaced_tile_heuristic, cellsum.
  rewrite for_acc_nested.
  assert (length s = n) as -> by apply Hs.
  rewrite (for_acc_sum _
    (λ p, misplaced_weight goal_state p.1 p.2 (default 0 (cell s p.1 p.2))));
    [done|].
  intros [r c] a Hin. simpl. apply elem_of_cells in Hin.
  destruct (proj2 (cell_is_Some n s r c Hs) Hin) as [v Hv].
  destruct (proj2 (cell_is_Some n goal_state r c Hg) Hin) as [gv Hgv].
  rewrite (getitem2_cell _ _ _ _ _ Hv), Hv. unfold misplaced_weight. simpl.
  rewrite Hgv. case_bool_decide; simpl; [|f_equal; lia].
  rewrite (getitem2_cell _ _ _ _ _ Hgv).
  repeat case_bool_decide; simplify_eq; f_equal; lia.
Qed.

(** The weight of a cell for the Manhattan distance. *)
Definition manhattan_weight (goal_pos : GoalPos) (r c : nat) (v : Z) : Z :=
  if bool_decide (v ≠ 0) then
    match goal_pos !! v with
    | Some (goal_r, goal_c) =>
      Z.abs (Z.of_nat r - Z.of_nat goal_r) + Z.abs (Z.of_nat c - Z.of_nat goal_c)
    | None => 0
    end
  else 0.

Lemma manhattan_distance_cellsum n s goal_state gp :
  square n s → length goal_state = n →
  (∀ v, v ∈ mjoin s → v ≠ 0 → is_Some (gp !! v)) →
  manhattan_distance_heuristic s goal_state gp
  = Ok (cellsum (manhattan_weight gp) n s).
Proof.
  intros Hs Hg Hgp. unfold manhattan_distance_heuristic, cellsum.
  rewrite for_acc_nested, Hg.
  rewrite (for_acc_sum _
    (λ p, manhattan_weight gp p.1 p.2 (default 0 (cell s p.1 p.2))));
    [done|].
  intros [r c] a Hin. simpl. apply elem_of_cells in Hin.
  destruct (proj2 (cell_is_Some n s r c Hs) Hin) as [v Hv].
  rewrite (getitem2_cell _ _ _ _ _ Hv), Hv. unfold manhattan_weight. simpl.
  case_bool_decide; [|f_equal; lia].
  destruct (Hgp v) as [[gr gc] ->]; [|done..].
  apply elem_of_join_cell. eauto.
Qed.

(** ** [precompute_goal_pos] *)

Lemma for_glob_app {X} (xs ys : list X) (body : X → Glob unit) gp :
  for_glob (xs ++ ys) body gp =
  match for_glob xs body gp with
  | (Ok _, gp') => for_glob ys body gp'
  | r => r
  end.
Proof.
  revert gp. induction xs as [|x xs IH]; intros gp; simpl; [done|].
  destruct (body x gp) as [[[]|e] gp']; [apply IH|done].
Qed.

Lemma for_glob_nested (xs ys : list nat) (body : nat → nat → Glob unit) gp :
  for_glob xs (λ r, for_glob ys (body r)) gp
  = for_glob (pairs xs ys) (λ p, body p.1 p.2) gp.
Proof.
  unfold pairs. revert gp. induction xs as [|r xs IH]; intros gp; [done|].
  change (for_glob (r :: xs) (λ r, for_glob ys (body r)) gp
          = for_glob ((ys ≫= λ c, [(r, c)])
                      ++ (xs ≫= λ r, ys ≫= λ c, [(r, c)]))
              (λ p, body p.1 p.2) gp).
  rewrite for_glob_app.
  assert (for_glob (ys ≫= λ c, [(r, c)]) (λ p, body p.1 p.2) gp
          = for_glob ys (body r) gp) as ->.
  { clear. revert gp. induction ys as [|c ys IH]; intros gp; simpl; [done|].
    destruct (body r c gp) as [[[]|e] gp']; [apply IH|done]. }
  cbn [for_glob]. destruct (for_glob ys (body r) gp) as [[[]|e] gp']; [|done].
  apply IH.
Qed.

(** The dictionary that the two loops build on a square goal. *)
Definition goal_positions (n : nat) (goal_state : State) : GoalPos :=
  foldl (λ gp p, <[default 0 (cell goal_state p.1 p.2) := p]> gp) ∅ (cells n).

Lemma precompute_goal_pos_square n goal_state gp0 :
  square n goal_state →
  precompute_goal_pos goal_state gp0 = (Ok (), goal_positions n goal_state).
Proof.
  intros Hsq. unfold precompute_goal_pos, goal_positions.
  rewrite for_glob_nested.
  assert (length goal_state = n) as -> by apply Hsq.
  fold (cells n).
  assert (∀ p, p ∈ cells n → is_Some (cell goal_state p.1 p.2)) as Hcells.
  { intros [r c] Hin%elem_of_cells. by apply (cell_is_Some n). }
  revert Hcells. generalize (cells n) (∅ : GoalPos).
  intros ps. induction ps as [|[r c] ps IH]; intros gp Hcells; simpl; [done|].
  destruct (Hcells (r, c)) as [v Hv]; [by left|]. simpl in Hv.
  rewrite (getitem2_cell_Ok _ _ _ _ Hv), Hv. simpl.
  apply IH. intros. apply Hcells. by right.
Qed.

Section foldl_insert.
Context {P : Type} (key : P → Z).
Implicit Types (gp : gmap Z P) (ps : list P).

Lemma foldl_insert_notin ps gp k :
  k ∉ key <$> ps →
  foldl (λ gp p, <[key p := p]> gp) gp ps !! k = gp !! k.
Proof.
  revert gp. induction ps as [|p ps IH]; intros gp Hk; simpl; [done|].
  rewrite fmap_cons, not_elem_of_cons in Hk. destruct Hk as [Hne Hk].
  rewrite IH by done. by rewrite lookup_insert_ne.
Qed.

Lemma foldl_insert_lookup ps gp p :
  NoDup (key <$> ps) → p ∈ ps →
  foldl (λ gp p, <[key p := p]> gp) gp ps !! key p = Some p.
Proof.
  revert gp. induction ps as [|q ps IH]; intros gp Hnd Hp; [by inv Hp|].
  rewrite fmap_cons in Hnd. apply NoDup_cons in Hnd as [Hq Hnd]. simpl.
  apply elem_of_cons in Hp as [->|Hp]; [|by apply IH].
  rewrite foldl_insert_notin by done. by rewrite lookup_insert_eq.
Qed.

Lemma foldl_insert_Some ps gp k p :
  foldl (λ gp p, <[key p := p]> gp) gp ps !! k = Some p →
  gp !! k = Some p ∨ (p ∈ ps ∧ key p = k).
Proof.
  revert gp. induction ps as [|q ps IH]; intros gp Hk; simpl in *; [by left|].
  apply IH in Hk as [Hk|[Hin Hkey]].
  - destruct (decide (key q = k)) as [<-|Hne].
    + rewrite lookup_insert_eq in Hk. simplify_eq. right. split; [by left|done].
    + rewrite lookup_insert_ne in Hk by done. by left.
  - right. split; [by right|done].
Qed.

Lemma foldl_insert_is_Some ps gp k :
  k ∈ key <$> ps →
  is_Some (foldl (λ gp p, <[key p := p]> gp) gp ps !! k).
Proof.
  revert gp. induction ps as [|q ps IH]; intros gp Hk; [by inv Hk|].
  simpl. destruct (decide (k ∈ key <$> ps)) as [Hin|Hnot]; [by apply IH|].
  rewrite fmap_cons in Hk. apply elem_of_cons in Hk as [->|Hk]; [|done].
  rewrite foldl_insert_notin by done. rewrite lookup_insert_eq. by eexists.
Qed.
End foldl_insert.

(** For a goal Configuration the dictionary maps each value to the one
    cell that holds it. *)
Lemma goal_positions_lookup n goal_state v r c :
  valid n goal_state →
  goal_positions n goal_state !! v = Some (r, c) ↔ cell goal_state r c = Some v.
Proof.
  intros Hv. pose proof (valid_square _ _ Hv) as Hsq.
  unfold goal_positions. split.
  - intros [Hk|[Hin Hkey]]%foldl_insert_Some; [done|].
    apply elem_of_cells in Hin.
    destruct (proj2 (cell_is_Some n goal_state r c Hsq) Hin) as [w Hw].
    simpl in Hkey. rewrite Hw in Hkey. simpl in Hkey. by subst.
  - intros Hc.
    pose proof (foldl_insert_lookup
      (λ p : nat * nat, default 0 (cell goal_state p.1 p.2)) (cells n) ∅ (r, c)) as Hl.
    simpl in Hl. rewrite Hc in Hl. simpl in Hl. apply Hl.
    + apply NoDup_fmap_2_strong; [|apply NoDup_cells].
      intros [r1 c1] [r2 c2] H1%elem_of_cells H2%elem_of_cells Heq. simpl in *.
      destruct (proj2 (cell_is_Some n goal_state r1 c1 Hsq) H1) as [w1 Hw1].
      destruct (proj2 (cell_is_Some n goal_state r2 c2 Hsq) H2) as [w2 Hw2].
      rewrite Hw1, Hw2 in Heq. simpl in Heq. subst w2.
      destruct (cell_inj n goal_state r1 c1 r2 c2 w1) as [-> ->];
        eauto using valid_NoDup.
    + apply elem_of_cells. by eapply cell_Some_lt.
Qed.

(** ** The three heuristics on Configurations *)

(** The value of a heuristic, as a function. *)
Definition hval (h : Heuristic) (gp : GoalPos) (goal_state : State)
    (n : nat) (s : State) : Z :=
  match h with
  | NoHeuristic => 0
  | MisplacedTile => cellsum (misplaced_weight goal_state) n s
  | ManhattanDistance => cellsum (manhattan_weight gp) n s
  end.

(** The dictionary is the one that [general_search] installs. *)
Definition gp_ready (h : Heuristic) (gp : GoalPos) (n : nat)
    (goal_state : State) : Prop :=
  h = ManhattanDistance → gp = goal_positions n goal_state.

Lemma valid_same_values n s1 s2 v :
  valid n s1 → valid n s2 → v ∈ mjoin s1 → v ∈ mjoin s2.
Proof. intros [_ H1] [_ H2]. by rewrite H1, H2. Qed.

Lemma heuristic_call_valid h gp n goal_state s :
  valid n goal_state → gp_ready h gp n goal_state → valid n s →
  heuristic_call h gp s goal_state = Ok (hval h gp goal_state n s).
Proof.
  intros Hg Hgp Hs. destruct h; simpl.
  - done.
  - apply misplaced_tile_cellsum; by apply valid_square.
  - apply manhattan_distance_cellsum; [by apply valid_square|apply Hg|].
    intros v Hv _. rewrite Hgp by done.
    apply (valid_same_values n s goal_state) in Hv; [|done..].
    apply elem_of_join_cell in Hv as (r & c & Hc).
    exists (r, c). by apply goal_positions_lookup.
Qed.

Lemma cellsum_zero W n s :
  (∀ r c, (r < n)%nat → (c < n)%nat → W r c (default 0 (cell s r c)) = 0) →
  cellsum W n s = 0.
Proof.
  intros HW. unfold cellsum.
  assert (∀ p, p ∈ cells n → W p.1 p.2 (default 0 (cell s p.1 p.2)) = 0) as H.
  { intros [r c] [??]%elem_of_cells. by apply HW. }
  revert H. generalize (cells n). intros ps.
  induction ps as [|p ps IH]; intros H; [done|].
  rewrite fmap_cons, Zsum_cons, IH, H; [done|by left|].
  intros. apply H. by right.
Qed.

(** At the goal every heuristic is zero. *)
Lemma hval_goal h gp n goal_state :
  valid n goal_state → gp_ready h gp n goal_state →
  hval h gp goal_state n goal_state = 0.
Proof.
  intros Hg Hgp. pose proof (valid_square _ _ Hg) as Hsq. destruct h; simpl.
  - done.
  - apply cellsum_zero. intros r c Hr Hc. unfold misplaced_weight.
    destruct (proj2 (cell_is_Some n goal_state r c Hsq) (conj Hr Hc)) as [v Hv].
    rewrite Hv. simpl. rewrite (bool_decide_eq_false_2 (Some v ≠ Some v)) by tauto.
    by rewrite andb_false_r.
  - apply cellsum_zero. intros r c Hr Hc. unfold manhattan_weight.
    destruct (proj2 (cell_is_Some n goal_state r c Hsq) (conj Hr Hc)) as [v Hv].
    rewrite Hv. simpl. case_bool_decide; [|done].
    rewrite Hgp by done.
    rewrite (proj2 (goal_positions_lookup n goal_state v r c Hg) Hv). lia.
Qed.

(** Consistency: one move lowers a heuristic by at most one. *)
Lemma hval_slide h gp n goal_state s s' :
  valid n s → slide s s' →
  hval h gp goal_state n s ≤ 1 + hval h gp goal_state n s'.
Proof.
  intros Hs Hslide. pose proof (valid_square _ _ Hs) as Hsq.
  destruct h; simpl.
  - done.
  - destruct (cellsum_slide (misplaced_weight goal_state) n s s')
      as (p & q & v & _ & ->); [done| |done|].
    { intros. unfold misplaced_weight. by rewrite bool_decide_eq_false_2 by tauto. }
    unfold misplaced_weight. repeat case_match; lia.
  - destruct (cellsum_slide (manhattan_weight gp) n s s')
      as ([r c] & [r' c'] & v & Hadj & ->); [done| |done|].
    { intros. unfold manhattan_weight. by rewrite bool_decide_eq_false_2 by tauto. }
    unfold manhattan_weight, adjacent in *. simpl in *.
    case_bool_decide; [|lia]. destruct (gp !! v) as [[gr gc]|]; lia.
Qed.

(** ** The heap invariant of [heapq] *)

Section heapq_correct.
Context {A : Type} (lt : A → A → bool).
(** [<] is a strict weak order on the items. *)
Hypothesis lt_asym : ∀ x y, lt x y = true → lt y x = false.
Hypothesis lt_negtrans :
  ∀ x y z, lt y x = false → lt z y = false → lt z x = false.
Implicit Types (h heap : list A) (i pos : nat).

Definition parentpos (i : nat) : nat := ((i - 1) / 2)%nat.

(** The item at [i] is not smaller than the one at its parent. *)
Definition edge_ok h i : Prop :=
  ∀ x y, h !! i = Some x → h !! parentpos i = Some y → lt x y = false.

Definition is_heap h : Prop := ∀ i, (0 < i)%nat → edge_ok h i.

(** While an item moves up: all is in order except maybe between [pos]
    and its parent, and the children of [pos] are in order with the
    parent of [pos]. *)
Definition up_inv h pos : Prop :=
  (∀ i, (0 < i)%nat → i ≠ pos → edge_ok h i) ∧
  (∀ c x y, (0 < pos)%nat → (0 < c)%nat → parentpos c = pos →
     h !! c = Some x → h !! parentpos pos = Some y → lt x y = false).

(** While the hole moves down: as above, except that nothing is known
    between [pos] and its children either. *)
Definition down_inv h pos : Prop :=
  (∀ i, (0 < i)%nat → i ≠ pos → parentpos i ≠ pos → edge_ok h i) ∧
  (∀ c x y, (0 < pos)%nat → (0 < c)%nat → parentpos c = pos →
     h !! c = Some x → h !! parentpos pos = Some y → lt x y = false).

Lemma lookup_swap h i j x y k :
  i ≠ j → h !! i = Some x → h !! j = Some y →
  <[j := x]> (<[i := y]> h) !! k
  = if decide (k = j) then Some x
    else if decide (k = i) then Some y else h !! k.
Proof.
  intros Hne Hi Hj.
  apply lookup_lt_Some in Hi as Hi'. apply lookup_lt_Some in Hj as Hj'.
  repeat case_decide; subst.
  - rewrite list_lookup_insert_eq; [done|]. by rewrite length_insert.
  - rewrite list_lookup_insert_ne by done. by rewrite list_lookup_insert_eq.
  - by rewrite !list_lookup_insert_ne.
Qed.

Lemma swap_Permutation h i j x y :
  i ≠ j → h !! i = Some x → h !! j = Some y →
  <[j := x]> (<[i := y]> h) ≡ₚ h.
Proof.
  intros Hne Hi Hj. apply (Permutation_cons_inv (a := y)).
  rewrite (insert_cons_Permutation _ j y x).
  - by apply insert_cons_Permutation.
  - by rewrite list_lookup_insert_ne.
Qed.

(** One round of the loop of [_siftdown], seen on the list with the
    new item in the hole. *)
Lemma up_inv_step h pos x y :
  up_inv h pos → (0 < pos)%nat →
  h !! pos = Some x → h !! parentpos pos = Some y → lt x y = true →
  up_inv (<[parentpos pos := x]> (<[pos := y]> h)) (parentpos pos).
Proof.
  intros [Ha Hb] Hpos Hx Hy Hlt.
  assert (parentpos pos ≠ pos) as Hne by (unfold parentpos; lia).
  unfold edge_ok in *. split.
  - intros i Hi Hip a b.
    rewrite !(lookup_swap h pos (parentpos pos) x y) by done.
    rewrite (decide_False (P := i = parentpos pos)) by done.
    destruct (decide (i = pos)) as [->|Hne1].
    { rewrite decide_True by done. intros; simplify_eq. by apply lt_asym. }
    destruct (decide (parentpos i = parentpos pos)) as [Heq|Hne2].
    { intros; simplify_eq. apply (lt_negtrans _ y); [by apply lt_asym|].
      apply (Ha i); try done. by rewrite Heq. }
    destruct (decide (parentpos i = pos)) as [Heq|Hne3].
    { intros; simplify_eq. by eapply (Hb i). }
    by apply Ha.
  - intros c a b Hpp Hc Hcp.
    rewrite !(lookup_swap h pos (parentpos pos) x y) by done.
    rewrite (decide_False (P := c = parentpos pos))
      by (unfold parentpos in *; lia).
    rewrite (decide_False (P := parentpos (parentpos pos) = parentpos pos))
      by (unfold parentpos in *; lia).
    rewrite (decide_False (P := parentpos (parentpos pos) = pos))
      by (unfold parentpos in *; lia).
    destruct (decide (c = pos)) as [->|Hne1].
    { intros; simplify_eq. by eapply (Ha (parentpos pos)). }
    intros Hl1 Hl2. apply (lt_negtrans _ y).
    + by apply (Ha (parentpos pos)).
    + apply (Ha c); try done. by rewrite Hcp.
Qed.

Lemma siftdown_loop_spec rounds heap newitem pos heap' pos' :
  heapq.siftdown_loop lt rounds heap newitem 0 pos = (heap', pos') →
  (pos ≤ rounds)%nat → (pos < length heap)%nat →
  up_inv (<[pos := newitem]> heap) pos →
  is_heap (<[pos' := newitem]> heap') ∧
  <[pos' := newitem]> heap' ≡ₚ <[pos := newitem]> heap.
Proof.
  revert heap pos. induction rounds as [|rounds IH]; intros heap pos.
  - simpl. intros [= <- <-] Hr Hlen [Ha _]. split; [|done].
    intros i Hi. apply Ha; lia.
  - intros Hloop Hr Hlen Hinv. cbn [heapq.siftdown_loop] in Hloop.
    case_bool_decide as Hpos.
    + fold (parentpos pos) in Hloop.
      destruct (heap !! parentpos pos) as [parent|] eqn:Hparent.
      2:{ apply lookup_ge_None in Hparent. unfold parentpos in *. lia. }
      assert (parentpos pos ≠ pos) as Hne by (unfold parentpos; lia).
      assert (<[pos := newitem]> heap !! pos = Some newitem) as Hx
        by by apply list_lookup_insert_eq.
      assert (<[pos := newitem]> heap !! parentpos pos = Some parent) as Hy
        by by rewrite list_lookup_insert_ne.
      destruct (lt newitem parent) eqn:Hlt.
      * pose proof (up_inv_step _ _ _ _ Hinv Hpos Hx Hy Hlt) as Hinv'.
        rewrite list_insert_insert_eq in Hinv'.
        apply IH in Hloop as [Hheap Hperm]; [|unfold parentpos in *; lia| |done].
        { split; [done|]. rewrite Hperm.
          rewrite <- (list_insert_insert_eq heap pos parent newitem).
          by apply swap_Permutation. }
        rewrite length_insert. unfold parentpos in *; lia.
      * injection Hloop as <- <-. destruct Hinv as [Ha _]. split; [|done].
        intros i Hi. destruct (decide (i = pos)) as [->|Hne'].
        -- intros a b Hl1 Hl2. by simplify_eq.
        -- by apply Ha.
    + injection Hloop as <- <-. destruct Hinv as [Ha _]. split; [|done].
      intros i Hi. apply Ha; lia.
Qed.

Lemma siftdown_spec heap pos :
  (pos < length heap)%nat → up_inv heap pos →
  is_heap (heapq._siftdown lt heap 0 pos) ∧
  heapq._siftdown lt heap 0 pos ≡ₚ heap.
Proof.
  intros Hlen Hinv. unfold heapq._siftdown.
  destruct (lookup_lt_is_Some_2 heap pos Hlen) as [newitem Hnew].
  rewrite Hnew.
  destruct (heapq.siftdown_loop lt pos heap newitem 0 pos)
    as [heap' pos'] eqn:Hloop.
  apply siftdown_loop_spec in Hloop; [|done..|by rewrite list_insert_id].
  by rewrite (list_insert_id heap pos newitem) in Hloop.
Qed.

Lemma heappush_spec heap item :
  is_heap heap →
  is_heap (heapq.heappush lt heap item) ∧
  heapq.heappush lt heap item ≡ₚ item :: heap.
Proof.
  intros Hheap. unfold heapq.heappush.
  destruct (siftdown_spec (heap ++ [item]) (length heap)) as [H1 H2].
  - rewrite length_app. simpl. lia.
  - split.
    + intros i Hi Hne a b Hl1 Hl2.
      assert (i < length heap)%nat.
      { apply lookup_lt_Some in Hl1. rewrite length_app in Hl1. simpl in Hl1. lia. }
      rewrite lookup_app_l in Hl1 by done.
      rewrite lookup_app_l in Hl2 by (unfold parentpos; lia).
      by apply (Hheap i).
    + intros c a b _ Hc Hcp Hl1 _.
      apply lookup_lt_Some in Hl1. rewrite length_app in Hl1. simpl in Hl1.
      unfold parentpos in *. lia.
  - split; [done|]. rewrite H2. by rewrite Permutation_app_comm.
Qed.

(** One round of the loop of [_siftup]: the hole at [pos] takes the
    item of its smaller child [cp]. *)
Lemma down_inv_step h pos x cp cv :
  down_inv h pos → h !! pos = Some x →
  (0 < cp)%nat → parentpos cp = pos → h !! cp = Some cv →
  (∀ c' v', (0 < c')%nat → parentpos c' = pos → c' ≠ cp →
     h !! c' = Some v' → lt v' cv = false) →
  down_inv (<[cp := x]> (<[pos := cv]> h)) cp.
Proof.
  intros [Ha Hb] Hx Hcp Hpar Hcv Hsib.
  assert (pos ≠ cp) as Hne by (unfold parentpos in *; lia).
  unfold edge_ok in *. split.
  - intros i Hi Hicp Hpicp a b.
    rewrite !(lookup_swap h pos cp x cv) by done.
    rewrite (decide_False (P := i = cp)) by done.
    rewrite (decide_False (P := parentpos i = cp)) by done.
    destruct (decide (i = pos)) as [->|Hne1].
    { rewrite decide_False by (unfold parentpos in *; lia).
      intros; simplify_eq. by eapply (Hb cp). }
    destruct (decide (parentpos i = pos)) as [Heq|Hne2].
    { intros; simplify_eq. by eapply (Hsib i). }
    by apply Ha.
  - intros c a b Hcp' Hc Hpc.
    rewrite !(lookup_swap h pos cp x cv) by done.
    rewrite (decide_False (P := c = cp)) by (unfold parentpos in *; lia).
    rewrite (decide_False (P := c = pos)) by (unfold parentpos in *; lia).
    rewrite Hpar. rewrite (decide_False (P := pos = cp)) by done.
    rewrite decide_True by done.
    intros Hl1 Hl2. simplify_eq.
    apply (Ha c); try done; unfold parentpos in *; lia.
Qed.

Lemma siftup_loop_spec rounds heap newitem pos heap' pos' :
  heapq.siftup_loop lt rounds heap pos = (heap', pos') →
  (length heap ≤ pos + rounds)%nat → (pos < length heap)%nat →
  down_inv (<[pos := newitem]> heap) pos →
  down_inv (<[pos' := newitem]> heap') pos' ∧
  (length heap' ≤ 2 * pos' + 1)%nat ∧ (pos' < length heap')%nat ∧
  <[pos' := newitem]> heap' ≡ₚ <[pos := newitem]> heap.
Proof.
  revert heap pos. induction rounds as [|rounds IH]; intros heap pos.
  { intros _ ??. lia. }
  intros Hloop Hr Hlen Hinv. cbn [heapq.siftup_loop] in Hloop.
  case_bool_decide as Hchild.
  2:{ injection Hloop as <- <-. split_and!; [done|lia|done|done]. }
  destruct (lookup_lt_is_Some_2 heap (2 * pos + 1)) as [l Hl]; [done|].
  rewrite Hl in Hloop.
  set (H := <[pos := newitem]> heap) in *.
  assert (H !! pos = Some newitem) as Hx by by apply list_lookup_insert_eq.
  assert (∀ cp cv, (cp = 2 * pos + 1 ∨ cp = 2 * pos + 2)%nat →
            heap !! cp = Some cv →
            (∀ c' v', (0 < c')%nat → parentpos c' = pos → c' ≠ cp →
                      heap !! c' = Some v' → lt v' cv = false) →
            heapq.siftup_loop lt rounds (<[pos := cv]> heap) cp = (heap', pos') →
            down_inv (<[pos' := newitem]> heap') pos' ∧
            (length heap' ≤ 2 * pos' + 1)%nat ∧ (pos' < length heap')%nat ∧
            <[pos' := newitem]> heap' ≡ₚ H) as Hstep.
  { intros cp cv Hcp Hcv Hsib Hloop'.
    assert (pos ≠ cp) by lia.
    assert (H !! cp = Some cv) as Hcv'
      by by (unfold H; rewrite list_lookup_insert_ne).
    pose proof (lookup_lt_Some _ _ _ Hcv) as Hcplen.
    apply IH in Hloop' as (Hd & Hleaf & Hlt' & Hperm).
    - split_and!; [done..|]. rewrite Hperm.
      replace (<[pos := cv]> heap) with (<[pos := cv]> H)
        by apply list_insert_insert_eq.
      by apply swap_Permutation.
    - rewrite length_insert. lia.
    - by rewrite length_insert.
    - replace (<[pos := cv]> heap) with (<[pos := cv]> H)
        by apply list_insert_insert_eq.
      apply (down_inv_step H pos newitem cp cv); try done.
      + lia.
      + unfold parentpos. lia.
      + intros c' v' Hc' Hpc' Hne' Hv'. apply (Hsib c'); try done.
        unfold H in Hv'. rewrite list_lookup_insert_ne in Hv'; [done|].
        unfold parentpos in *. lia. }
  replace (2 * pos + 1 + 1)%nat with (2 * pos + 2)%nat in Hloop by lia.
  destruct (heap !! (2 * pos + 2)%nat) as [r|] eqn:Hrgt.
  - destruct (lt l r) eqn:Hlr; cbn [negb] in Hloop.
    + rewrite Hl in Hloop. apply (Hstep (2 * pos + 1)%nat l); [lia|done| |done].
      intros c' v' Hc' Hpc' Hne' Hv'.
      assert (c' = 2 * pos + 2)%nat by (unfold parentpos in *; lia).
      simplify_eq. by apply lt_asym.
    + rewrite Hrgt in Hloop. apply (Hstep (2 * pos + 2)%nat r); [lia|done| |done].
      intros c' v' Hc' Hpc' Hne' Hv'.
      assert (c' = 2 * pos + 1)%nat by (unfold parentpos in *; lia).
      by simplify_eq.
  - rewrite Hl in Hloop. apply (Hstep (2 * pos + 1)%nat l); [lia|done| |done].
    intros c' v' Hc' Hpc' Hne' Hv'.
    assert (c' = 2 * pos + 2)%nat by (unfold parentpos in *; lia).
    simplify_eq.
Qed.

Lemma siftup_spec heap :
  heap ≠ [] → down_inv heap 0 →
  is_heap (heapq._siftup lt heap 0) ∧ heapq._siftup lt heap 0 ≡ₚ heap.
Proof.
  intros Hne Hinv. unfold heapq._siftup.
  destruct heap as [|newitem heap]; [done|]. cbn [lookup list_lookup].
  destruct (heapq.siftup_loop lt (length (newitem :: heap)) (newitem :: heap) 0)
    as [heap' pos'] eqn:Hloop.
  apply (siftup_loop_spec _ _ newitem) in Hloop
    as ([Ha Hb] & Hleaf & Hlt & Hperm); [|lia|simpl; lia|done].
  destruct (siftdown_spec (<[pos' := newitem]> heap') pos') as [H1 H2].
  - by rewrite length_insert.
  - split; [|done]. intros i Hi Hne'.
    destruct (decide (parentpos i = pos')) as [Heq|Hne''].
    + intros a b Hl1 _. apply lookup_lt_Some in Hl1.
      rewrite length_insert in Hl1. unfold parentpos in *. lia.
    + by apply Ha.
  - split; [done|]. by rewrite H2, Hperm.
Qed.

Lemma lt_irrefl x : lt x x = false.
Proof. destruct (lt x x) eqn:H; [|done]. by rewrite (lt_asym _ _ H) in H. Qed.

(** The first item of a heap is a smallest one. *)
Lemma is_heap_root h x y :
  is_heap h → h !! 0%nat = Some x → y ∈ h → lt y x = false.
Proof.
  intros Hheap Hx [i Hy]%list_elem_of_lookup. revert y Hy.
  induction (lt_wf i) as [i _ IH]. intros y Hy.
  destruct (decide (i = 0)%nat) as [->|Hi].
  - simplify_eq. apply lt_irrefl.
  - destruct (lookup_lt_is_Some_2 h (parentpos i)) as [z Hz].
    { apply lookup_lt_Some in Hy. unfold parentpos. lia. }
    apply (lt_negtrans _ z).
    + apply (IH (parentpos i)); [unfold parentpos; lia|done].
    + apply (Hheap i); [lia|done..].
Qed.

Lemma is_heap_nil : is_heap [].
Proof. intros i _ x y Hx. by rewrite lookup_nil in Hx. Qed.

Lemma is_heap_singleton x : is_heap [x].
Proof.
  intros i Hi a b Ha. apply lookup_lt_Some in Ha. simpl in Ha. lia.
Qed.

Lemma heappop_nil : heapq.heappop lt [] = Raise IndexError.
Proof. done. Qed.

Lemma heappop_spec heap :
  is_heap heap → heap ≠ [] →
  ∃ x rest, heapq.heappop lt heap = Ok (x, rest) ∧
    is_heap rest ∧ heap ≡ₚ x :: rest ∧ ∀ y, y ∈ heap → lt y x = false.
Proof.
  intros Hheap Hne.
  destruct (exists_last Hne) as (front & lastelt & ->).
  unfold heapq.heappop. rewrite last_snoc, removelast_last.
  destruct front as [|returnitem rest].
  { exists lastelt, []. split_and!; [done|apply is_heap_nil|done|].
    intros y ->%list_elem_of_singleton. apply lt_irrefl. }
  destruct (siftup_spec (lastelt :: rest)) as [H1 H2]; [done| |].
  { split.
    - intros i Hi _ Hpi a b Hl1 Hl2.
      apply (Hheap i Hi).
      + destruct i as [|i]; [lia|]. simpl in *.
        apply lookup_app_l_Some. done.
      + destruct (parentpos i) as [|j]; [done|]. simpl in *.
        by apply lookup_app_l_Some.
    - intros; lia. }
  exists returnitem, (heapq._siftup lt (lastelt :: rest) 0).
  split; [reflexivity|]. split; [exact H1|]. split.
  - rewrite H2. simpl. f_equiv. by rewrite Permutation_app_comm.
  - intros y Hy. by apply (is_heap_root _ _ _ Hheap).
Qed.
End heapq_correct.

(** [PuzzleNode.__lt__] is a strict weak order: the lexicographic order
    on [(f_cost, g_cost)]. *)
Lemma PuzzleNode_lt_spec a b :
  PuzzleNode_lt a b = true ↔
  f_cost a < f_cost b ∨ (f_cost a = f_cost b ∧ g_cost a < g_cost b).
Proof.
  unfold PuzzleNode_lt. repeat case_bool_decide; split; try done; lia.
Qed.

Lemma PuzzleNode_lt_false a b :
  PuzzleNode_lt a b = false ↔
  f_cost b < f_cost a ∨ (f_cost b = f_cost a ∧ g_cost b ≤ g_cost a).
Proof.
  unfold PuzzleNode_lt. repeat case_bool_decide; split; try done; lia.
Qed.

Lemma PuzzleNode_lt_asym a b :
  PuzzleNode_lt a b = true → PuzzleNode_lt b a = false.
Proof. rewrite PuzzleNode_lt_spec, PuzzleNode_lt_false. lia. Qed.

Lemma PuzzleNode_lt_negtrans a b c :
  PuzzleNode_lt b a = false → PuzzleNode_lt c b = false →
  PuzzleNode_lt c a = false.
Proof. rewrite !PuzzleNode_lt_false. lia. Qed.

(** The frontier is a heap for [PuzzleNode.__lt__]. *)
Definition frontier_heap (frontier : list PuzzleNode) : Prop :=
  is_heap PuzzleNode_lt frontier.

Lemma frontier_heappush frontier node :
  frontier_heap frontier →
  frontier_heap (heapq.heappush PuzzleNode_lt frontier node) ∧
  heapq.heappush PuzzleNode_lt frontier node ≡ₚ node :: frontier.
Proof.
  apply heappush_spec;
    [exact PuzzleNode_lt_asym|exact PuzzleNode_lt_negtrans].
Qed.

Lemma frontier_heappop frontier :
  frontier_heap frontier → frontier ≠ [] →
  ∃ node rest, heapq.heappop PuzzleNode_lt frontier = Ok (node, rest) ∧
    frontier_heap rest ∧ frontier ≡ₚ node :: rest ∧
    ∀ m, m ∈ frontier → PuzzleNode_lt m node = false.
Proof.
  apply heappop_spec;
    [exact PuzzleNode_lt_asym|exact PuzzleNode_lt_negtrans].
Qed.

(** ** The search tree *)

(** The nodes that a search from [initial_state] can build: the root, and
    nodes one move below a node of the tree. *)
Inductive tree_node (initial_state : State) : PuzzleNode → Prop :=
  | tree_root h0 :
      tree_node initial_state (PuzzleNode_init initial_state None None 0 h0)
  | tree_child p s a hv :
      tree_node initial_state p → slide (state p) s →
      tree_node initial_state
        (PuzzleNode_init s (Some p) (Some a) (g_cost p + 1) hv).

(** Consecutive elements are one move apart. *)
Definition is_path (l : list State) : Prop :=
  ∀ i s s', l !! i = Some s → l !! S i = Some s' → slide s s'.

Lemma is_path_snoc l s s' :
  is_path l → last l = Some s → slide s s' → is_path (l ++ [s']).
Proof.
  intros Hl Hlast Hs i a b Ha Hb.
  apply last_Some in Hlast as [l' ->].
  destruct (decide (S i < length (l' ++ [s]))%nat) as [Hlt|Hge].
  - rewrite lookup_app_l in Ha, Hb by lia. by eapply Hl.
  - pose proof (lookup_lt_Some _ _ _ Hb) as Hlen.
    repeat rewrite length_app in Hlen. repeat rewrite length_app in Hge.
    simpl in *. assert (i = length l') as -> by lia.
    rewrite lookup_app_l in Ha by (rewrite length_app; simpl; lia).
    rewrite list_lookup_middle in Ha by done.
    rewrite lookup_app_r in Hb by (rewrite length_app; simpl; lia).
    rewrite length_app in Hb. simpl in Hb.
    replace (S (length l') - (length l' + 1))%nat with 0%nat in Hb by lia.
    by simplify_eq/=.
Qed.

Lemma reconstruct_path_Some node :
  reconstruct_path (Some node)
  = reconstruct_path (parent node) ++ [state node].
Proof.
  unfold reconstruct_path. destruct node as [s [p|] a g hv f]; simpl.
  - by rewrite reverse_cons.
  - done.
Qed.

(** The parent chain of a tree node is a sequence of moves from the
    initial state to the node's state, [g_cost] moves long. *)
Lemma tree_node_path initial_state node :
  tree_node initial_state node →
  let path := reconstruct_path (Some node) in
  head path = Some initial_state ∧ last path = Some (state node) ∧
  is_path path ∧ Z.of_nat (length path) = g_cost node + 1.
Proof.
  induction 1 as [h0|p s a hv Hp (IH1 & IH2 & IH3 & IH4) Hs]; simpl.
  - split_and!; try done.
  - rewrite reconstruct_path_Some. simpl.
    destruct (reconstruct_path (Some p)) as [|s0 l] eqn:Hl; [done|].
    split_and!.
    + done.
    + by rewrite last_snoc.
    + by eapply is_path_snoc.
    + rewrite length_app. simpl in *. lia.
Qed.

Lemma tree_node_f_cost initial_state node :
  tree_node initial_state node → f_cost node = g_cost node + h_cost node.
Proof. by destruct 1. Qed.

Lemma tree_node_reachable initial_state node :
  tree_node initial_state node → rtc slide initial_state (state node).
Proof.
  induction 1 as [h0|p s a hv Hp IH Hs]; simpl; [done|].
  by eapply rtc_r.
Qed.

Lemma reachable_valid n s s' : valid n s → rtc slide s s' → valid n s'.
Proof. induction 2; eauto using slide_valid. Qed.

Lemma expand_tree initial_state node goal_state h gp succs child :
  tree_node initial_state node →
  expand node goal_state h gp = Ok succs → child ∈ succs →
  tree_node initial_state child ∧ parent child = Some node ∧
  slide (state node) (state child) ∧
  heuristic_call h gp (state child) goal_state = Ok (h_cost child).
Proof.
  intros Hnode (br & bc & Hfb & Hall)%expand_Ok Hin.
  apply list_elem_of_lookup in Hin as [i Hi].
  destruct (Forall2_lookup_r _ _ _ _ _ Hall Hi) as (m & Hm & Hsucc).
  assert (expand node goal_state h gp = Ok succs) as Hexp.
  { apply expand_Ok. eauto. }
  destruct (expand_sound _ _ _ _ _ child Hexp) as (Hslide & _).
  { by eapply list_elem_of_lookup_2. }
  apply successor_Ok in Hsucc as (s' & hv & Hswap & Hh & ->).
  simpl in *. split_and!; try done. by constructor.
Qed.

(** ** One round of the search loop *)

Lemma push_successors_spec explored succs frontier :
  frontier_heap frontier →
  frontier_heap (push_successors explored succs frontier) ∧
  push_successors explored succs frontier
  ≡ₚ filter (λ c, state c ∉ explored) succs ++ frontier.
Proof.
  unfold push_successors, state_to_tuple.
  revert frontier. induction succs as [|c succs IH]; intros frontier Hheap.
  { done. }
  simpl. rewrite filter_cons. case_bool_decide as Hc.
  - destruct (frontier_heappush frontier c Hheap) as [Hheap' Hperm].
    destruct (IH _ Hheap') as [Hh' Hperm']. split; [exact Hh'|].
    case_decide; [|done]. rewrite Hperm', Hperm. simpl.
    by rewrite Permutation_middle.
  - case_decide; [done|]. by apply IH.
Qed.

Definition round_max (st : SearchState) : nat :=
  Nat.max (max_queue_size st) (length (frontier st)).

(** The rounds that go on: a stale node is dropped, or a node is
    expanded. *)
Lemma search_round_Continue goal_state h gp st st' :
  frontier_heap (frontier st) →
  search_round goal_state h gp st = Ok (Continue st') →
  ∃ node rest,
    heapq.heappop PuzzleNode_lt (frontier st) = Ok (node, rest) ∧
    frontier st ≡ₚ node :: rest ∧ frontier_heap rest ∧
    (∀ m, m ∈ frontier st → PuzzleNode_lt m node = false) ∧
    state node ≠ goal_state ∧
    ((state node ∈ explored st ∧
      st' = mkSearchState rest (explored st) (expanded_count st) (round_max st))
     ∨
     ((state node ∉ explored st) ∧
      ∃ succs, expand node goal_state h gp = Ok succs ∧
        st' = mkSearchState
                (push_successors ({[state node]} ∪ explored st) succs rest)
                ({[state node]} ∪ explored st)
                (S (expanded_count st)) (round_max st))).
Proof.
  intros Hheap. unfold search_round.
  destruct (frontier st) as [|n0 fr] eqn:Hfr; [done|].
  destruct (frontier_heappop (n0 :: fr) Hheap) as (node & rest & -> & Hh & Hp & Hmin);
    [done|].
  rewrite Ok_bind. unfold goal_test, state_to_tuple.
  case_bool_decide as Hgoal; [done|].
  intros Hround. exists node, rest. split_and!; try done.
  case_bool_decide as Hexp.
  - left. split; [done|]. unfold round_max. rewrite Hfr. by simplify_eq.
  - right. split; [done|].
    destruct (expand node goal_state h gp) as [succs|] eqn:Hexpand; [|done].
    exists succs. split; [done|]. unfold round_max. rewrite Hfr.
    rewrite Ok_bind in Hround. by simplify_eq.
Qed.

(** The rounds that end the loop: the frontier is empty, or the node
    popped holds the goal. *)
Lemma search_round_Return goal_state h gp st res :
  frontier_heap (frontier st) →
  search_round goal_state h gp st = Ok (Return res) →
  (frontier st = [] ∧ res = (None, expanded_count st, max_queue_size st)) ∨
  ∃ node rest,
    heapq.heappop PuzzleNode_lt (frontier st) = Ok (node, rest) ∧
    frontier st ≡ₚ node :: rest ∧
    (∀ m, m ∈ frontier st → PuzzleNode_lt m node = false) ∧
    state node = goal_state ∧
    res = (Some node, expanded_count st, round_max st).
Proof.
  intros Hheap. unfold search_round.
  destruct (frontier st) as [|n0 fr] eqn:Hfr.
  { intros [= <-]. by left. }
  destruct (frontier_heappop (n0 :: fr) Hheap) as (node & rest & -> & Hh & Hp & Hmin);
    [done|].
  rewrite Ok_bind. unfold goal_test, state_to_tuple.
  case_bool_decide as Hgoal.
  - intros [= <-]. right. exists node, rest. unfold round_max. by rewrite Hfr.
  - case_bool_decide; [done|].
    by destruct (expand node goal_state h gp).
Qed.

(** ** The states of a search *)

(** The store that [general_search] leaves before it enters the loop. *)
Definition install_goal_pos (heuristic_func : Heuristic) (goal_state : State)
  : Glob unit :=
  λ goal_pos,
  if bool_decide (heuristic_func = ManhattanDistance)
  then precompute_goal_pos goal_state goal_pos
  else (Ok (), goal_pos).

(** [st'] is what the loop makes of [st] in one round. *)
Definition round_step (goal_state : State) (h : Heuristic) (gp : GoalPos)
    (st st' : SearchState) : Prop :=
  search_round goal_state h gp st = Ok (Continue st').

(** [st] is a state in which the loop test is evaluated, in the search
    that [general_search] runs with dictionary [gp]. *)
Definition reached (initial_state goal_state : State) (h : Heuristic)
    (gp : GoalPos) (st : SearchState) : Prop :=
  ∃ gp0 st0,
    install_goal_pos h goal_state gp0 = (Ok (), gp) ∧
    search_init initial_state goal_state h gp = Ok st0 ∧
    rtc (round_step goal_state h gp) st0 st.

Lemma general_search_unfold rounds initial_state goal_state h gp0 :
  general_search rounds initial_state goal_state h gp0 =
  match install_goal_pos h goal_state gp0 with
  | (Raise e, gp) => (Some (Raise e), gp)
  | (Ok _, gp) =>
    match search_init initial_state goal_state h gp with
    | Raise e => (Some (Raise e), gp)
    | Ok st => (search_loop rounds goal_state h gp st, gp)
    end
  end.
Proof.
  unfold general_search, install_goal_pos.
  by destruct (if bool_decide _ then _ else _) as [[[]|e] gp].
Qed.

Lemma search_loop_Ok rounds goal_state h gp st res :
  search_loop rounds goal_state h gp st = Some (Ok res) →
  ∃ st', rtc (round_step goal_state h gp) st st' ∧
         search_round goal_state h gp st' = Ok (Return res).
Proof.
  revert st. induction rounds as [|rounds IH]; intros st; simpl; [done|].
  destruct (search_round goal_state h gp st) as [[st'|res']|e] eqn:Hround.
  - intros (st'' & Hrtc & Hret)%IH. exists st''. split; [|done].
    by eapply rtc_l.
  - intros [= <-]. by exists st.
  - done.
Qed.

Lemma general_search_Ok rounds initial_state goal_state h gp0 res gp :
  general_search rounds initial_state goal_state h gp0 = (Some (Ok res), gp) →
  ∃ st, reached initial_state goal_state h gp st ∧
        search_round goal_state h gp st = Ok (Return res).
Proof.
  rewrite general_search_unfold.
  destruct (install_goal_pos h goal_state gp0) as [[[]|e] gp1] eqn:Hinst; [|done].
  destruct (search_init initial_state goal_state h gp1) as [st0|] eqn:Hinit;
    [|done].
  intros [= Hloop <-]. apply search_loop_Ok in Hloop as (st & Hrtc & Hret).
  exists st. split; [|done]. by exists gp0, st0.
Qed.

(** What holds in every state of a search, whatever the inputs: the
    frontier is a heap of tree nodes, and the explored states can be
    reached by moves from the initial state. *)
Record basic_inv (initial_state : State) (st : SearchState) : Prop := {
  basic_heap : frontier_heap (frontier st);
  basic_tree : ∀ m, m ∈ frontier st → tree_node initial_state m;
  basic_explored : ∀ t, t ∈ explored st → rtc slide initial_state t;
}.

Lemma search_init_Ok initial_state goal_state h gp st0 :
  search_init initial_state goal_state h gp = Ok st0 ↔
  ∃ initial_h,
    heuristic_call h gp initial_state goal_state = Ok initial_h ∧
    st0 = mkSearchState [PuzzleNode_init initial_state None None 0 initial_h]
            ∅ 0 1.
Proof.
  unfold search_init. rewrite bind_Ok. split.
  - intros (hv & Hh & [= <-]). by exists hv.
  - intros (hv & Hh & ->). by exists hv.
Qed.

Lemma basic_inv_init initial_state goal_state h gp st0 :
  search_init initial_state goal_state h gp = Ok st0 →
  basic_inv initial_state st0.
Proof.
  intros (hv & _ & ->)%search_init_Ok. split; simpl.
  - apply is_heap_singleton.
  - intros m ->%list_elem_of_singleton. constructor.
  - intros t Ht. set_solver.
Qed.

Lemma basic_inv_step initial_state goal_state h gp st st' :
  basic_inv initial_state st → round_step goal_state h gp st st' →
  basic_inv initial_state st'.
Proof.
  intros [Hheap Htree Hexp] Hstep.
  apply search_round_Continue in Hstep
    as (node & rest & _ & Hperm & Hrest & _ & _ & Hcases); [|done].
  assert (tree_node initial_state node) as Hnode.
  { apply Htree. rewrite Hperm. by left. }
  assert (∀ m, m ∈ rest → tree_node initial_state m) as Hrest_tree.
  { intros m Hm. apply Htree. rewrite Hperm. by right. }
  destruct Hcases as [[_ ->]|[_ (succs & Hexpand & ->)]]; [by split|].
  destruct (push_successors_spec ({[state node]} ∪ explored st) succs rest Hrest)
    as [Hheap' Hperm'].
  split; simpl.
  - done.
  - intros m. rewrite Hperm', elem_of_app, list_elem_of_filter.
    intros [[_ Hm]|Hm]; [|by apply Hrest_tree].
    by eapply expand_tree.
  - intros t [->%elem_of_singleton|Ht]%elem_of_union; [|by apply Hexp].
    by apply tree_node_reachable.
Qed.

Lemma reached_basic_inv initial_state goal_state h gp st :
  reached initial_state goal_state h gp st → basic_inv initial_state st.
Proof.
  intros (gp0 & st0 & _ & Hinit & Hrtc).
  apply basic_inv_init in Hinit. induction Hrtc; eauto using basic_inv_step.
Qed.

#[global] Instance valid_dec n s : Decision (valid n s).
Proof. unfold valid. apply _. Defined.

(** The loop run for [k] rounds that all go on. *)
Fixpoint run_rounds (k : nat) (goal_state : State) (h : Heuristic)
    (gp : GoalPos) (st : SearchState) : option SearchState :=
  match k with
  | O => Some st
  | S k' =>
    match search_round goal_state h gp st with
    | Ok (Continue st') => run_rounds k' goal_state h gp st'
    | _ => None
    end
  end.

Lemma run_rounds_rtc k goal_state h gp st st' :
  run_rounds k goal_state h gp st = Some st' →
  rtc (round_step goal_state h gp) st st'.
Proof.
  revert st. induction k as [|k IH]; intros st; simpl.
  - by intros [= ->].
  - destruct (search_round goal_state h gp st) as [[st1|]|] eqn:Hr; try done.
    intros Hrun. eapply rtc_l; [exact Hr|by apply IH].
Qed.

(** Each value of [0 .. n*n-1] occurs exactly once. *)
Definition each_once (n : nat) (s : State) : Prop :=
  ∀ v, 0 ≤ v < Z.of_nat (n * n) → count_occ Z.eq_dec (mjoin s) v = 1%nat.

Lemma valid_each_once n s : valid n s → each_once n s.
Proof.
  intros Hv v Hrange.
  pose proof (valid_NoDup _ _ Hv) as Hnd.
  apply NoDup_ListNoDup in Hnd.
  pose proof (proj1 (NoDup_count_occ Z.eq_dec (mjoin s)) Hnd v) as Hle.
  assert (v ∈ mjoin s) as Hin by by apply (valid_elem_of n).
  apply list_elem_of_In, (count_occ_In Z.eq_dec) in Hin. lia.
Qed.

Lemma goal_positions_is_Some n goal_state r c v :
  square n goal_state → cell goal_state r c = Some v →
  is_Some (goal_positions n goal_state !! v).
Proof.
  intros Hsq Hc. unfold goal_positions.
  assert ((r, c) ∈ cells n) as Hin.
  { apply elem_of_cells. by eapply cell_Some_lt. }
  apply (foldl_insert_is_Some
           (λ p : nat * nat, default 0 (cell goal_state p.1 p.2))).
  apply list_elem_of_fmap. exists (r, c). simpl. by rewrite Hc.
Qed.

(** * The claims *)

(** C10. The value of [manhattan_distance_heuristic] does not depend on
    the contents of its [goal_state] argument, only on its length: with
    the dictionary [goal_pos] fixed, two goal grids of the same size give
    the same result (the same number or the same exception).  The result
    is a function of the state, of that length and of the dictionary
    last installed by [precompute_goal_pos]. *)
Theorem manhattan_ignores_goal_contents (s goal1 goal2 : State) (gp : GoalPos) :
  length goal1 = length goal2 →
  manhattan_distance_heuristic s goal1 gp
  = manhattan_distance_heuristic s goal2 gp.
Proof. unfold manhattan_distance_heuristic. by intros ->. Qed.

Definition sample_state : State := [[1; 2; 3]; [4; 5; 0]; [7; 8; 6]].
Definition other_goal : State := [[8; 7; 6]; [5; 4; 3]; [2; 1; 0]].

Lemma manhattan_ignores_goal_contents_witness :
  length GOAL_STATE_8_PUZZLE = length other_goal ∧
  manhattan_distance_heuristic sample_state GOAL_STATE_8_PUZZLE
    (goal_positions 3 GOAL_STATE_8_PUZZLE)
  = manhattan_distance_heuristic sample_state other_goal
      (goal_positions 3 GOAL_STATE_8_PUZZLE).
Proof.
  split; [reflexivity|].
  apply (manhattan_ignores_goal_contents sample_state
           GOAL_STATE_8_PUZZLE other_goal). reflexivity.
Defined.

(** C8. When the initial grid is the goal grid, [general_search] returns
    at once, with any of the three heuristics: the node returned is the
    root (depth 0), no node was expanded, and the largest frontier seen
    has size 1. *)
Theorem goal_at_start (n rounds : nat) (s : State) (h : Heuristic)
    (gp0 : GoalPos) :
  square n s →
  ∃ node gp,
    general_search (S rounds) s s h gp0
    = (Some (Ok (Some node, 0%nat, 1%nat)), gp) ∧
    state node = s ∧ g_cost node = 0 ∧ parent node = None.
Proof.
  intros Hsq. rewrite general_search_unfold.
  assert (∃ gp, install_goal_pos h s gp0 = (Ok (), gp) ∧
                gp_ready h gp n s) as (gp & -> & Hgp).
  { unfold install_goal_pos, gp_ready. case_bool_decide.
    - rewrite (precompute_goal_pos_square n) by done. by eexists.
    - by eexists. }
  assert (∃ hv, heuristic_call h gp s s = Ok hv) as [hv Hhv].
  { destruct h; simpl.
    - by eexists.
    - rewrite (misplaced_tile_cellsum n) by done. by eexists.
    - rewrite (manhattan_distance_cellsum n); [by eexists|done|apply Hsq|].
      intros v (r & c & Hc)%elem_of_join_cell _. rewrite Hgp by done.
      by eapply goal_positions_is_Some. }
  unfold search_init. rewrite Hhv, Ok_bind.
  eexists _, gp. split.
  - cbn [search_loop]. unfold search_round. simpl frontier.
    unfold heapq.heapify, heapq.heappop. simpl.
    unfold goal_test. rewrite bool_decide_eq_true_2 by done. reflexivity.
  - done.
Qed.

Lemma goal_at_start_witness :
  square 3 GOAL_STATE_8_PUZZLE ∧
  ∃ node gp,
    general_search 1 GOAL_STATE_8_PUZZLE GOAL_STATE_8_PUZZLE
      ManhattanDistance ∅
    = (Some (Ok (Some node, 0%nat, 1%nat)), gp) ∧
    state node = GOAL_STATE_8_PUZZLE ∧ g_cost node = 0 ∧ parent node = None.
Proof.
  assert (square 3 GOAL_STATE_8_PUZZLE) as Hsq
    by (apply (bool_decide_unpack _); vm_compute; exact I).
  split; [exact Hsq|].
  exact (goal_at_start 3 0 GOAL_STATE_8_PUZZLE ManhattanDistance ∅ Hsq).
Defined.

(** C4. A round of the loop that pops a node whose state is not the goal:
    if the state is in the explored set, the node is dropped, the explored
    set and the expansion counter stay as they are and nothing is pushed;
    otherwise the state joins the explored set, the counter goes up by
    one, [expand] is called, and the nodes pushed are exactly the
    successors whose state is not in the (updated) explored set. *)
Theorem search_round_not_goal (goal_state : State) (h : Heuristic)
    (gp : GoalPos) (st : SearchState) (node : PuzzleNode)
    (rest : list PuzzleNode) :
  frontier_heap (frontier st) →
  heapq.heappop PuzzleNode_lt (frontier st) = Ok (node, rest) →
  state node ≠ goal_state →
  (state node ∈ explored st →
     search_round goal_state h gp st
     = Ok (Continue (mkSearchState rest (explored st) (expanded_count st)
                       (round_max st))))
  ∧
  (state node ∉ explored st →
     ∀ succs, expand node goal_state h gp = Ok succs →
       ∃ st', search_round goal_state h gp st = Ok (Continue st') ∧
         explored st' = {[state node]} ∪ explored st ∧
         expanded_count st' = S (expanded_count st) ∧
         frontier st'
         ≡ₚ filter (λ c, state c ∉ explored st') succs ++ rest).
Proof.
  intros Hheap Hpop Hgoal.
  destruct (frontier st) as [|n0 fr] eqn:Hfr; [done|].
  destruct (frontier_heappop (n0 :: fr) Hheap) as (node' & rest' & Hpop' & Hrest & _);
    [done|].
  rewrite Hpop in Hpop'. injection Hpop' as <- <-.
  unfold search_round, round_max. rewrite Hfr, Hpop, Ok_bind.
  unfold goal_test, state_to_tuple.
  rewrite (bool_decide_eq_false_2 (state node = goal_state)) by done.
  split.
  - intros Hin. by rewrite bool_decide_eq_true_2.
  - intros Hnot succs Hexpand. rewrite bool_decide_eq_false_2 by done.
    rewrite Hexpand, Ok_bind. eexists. split; [reflexivity|]. simpl.
    split_and!; [done..|].
    by apply push_successors_spec.
Qed.

Definition sample_root : PuzzleNode :=
  PuzzleNode_init sample_state None None 0 1.

Lemma search_round_not_goal_witness :
  let st := mkSearchState [sample_root] ∅ 0 1 in
  (state sample_root ∈ explored st →
     search_round GOAL_STATE_8_PUZZLE NoHeuristic ∅ st
     = Ok (Continue (mkSearchState [] (explored st) (expanded_count st)
                       (round_max st))))
  ∧
  (state sample_root ∉ explored st →
     ∀ succs, expand sample_root GOAL_STATE_8_PUZZLE NoHeuristic ∅ = Ok succs →
       ∃ st', search_round GOAL_STATE_8_PUZZLE NoHeuristic ∅ st
              = Ok (Continue st') ∧
         explored st' = {[state sample_root]} ∪ explored st ∧
         expanded_count st' = S (expanded_count st) ∧
         frontier st'
         ≡ₚ filter (λ c, state c ∉ explored st') succs ++ []).
Proof.
  apply (search_round_not_goal GOAL_STATE_8_PUZZLE NoHeuristic ∅
           (mkSearchState [sample_root] ∅ 0 1) sample_root []).
  - apply is_heap_singleton.
  - reflexivity.
  - apply (bool_decide_unpack _). vm_compute. exact I.
Defined.

(** C9. In a search started from a Configuration, every state in the
    frontier and every state in the explored set, at every round, is a
    Configuration: an [n] by [n] grid in which each value of
    [0 .. n*n-1] occurs exactly once.  (A move only swaps two cells.) *)
Theorem search_states_valid (n : nat) (initial_state goal_state : State)
    (h : Heuristic) (gp : GoalPos) (st : SearchState) :
  valid n initial_state →
  reached initial_state goal_state h gp st →
  (∀ m, m ∈ frontier st → valid n (state m) ∧ each_once n (state m)) ∧
  (∀ t, t ∈ explored st → valid n t ∧ each_once n t).
Proof.
  intros Hv [_ Htree Hexp]%reached_basic_inv. split.
  - intros m Hm%Htree%tree_node_reachable.
    assert (valid n (state m)) by by eapply reachable_valid.
    split; [done|by apply valid_each_once].
  - intros t Ht%Hexp.
    assert (valid n t) by by eapply reachable_valid.
    split; [done|by apply valid_each_once].
Qed.

Lemma reached_run_rounds k initial_state goal_state h gp0 gp st0 st :
  install_goal_pos h goal_state gp0 = (Ok (), gp) →
  search_init initial_state goal_state h gp = Ok st0 →
  run_rounds k goal_state h gp st0 = Some st →
  reached initial_state goal_state h gp st.
Proof. intros ?? Hrun%run_rounds_rtc. by exists gp0, st0. Qed.

(** The state of the sample search (Manhattan distance, from
    [sample_state]) after its first round. *)
Definition sample_search_state : SearchState :=
  default (mkSearchState [] ∅ 0 0)
    (run_rounds 1 GOAL_STATE_8_PUZZLE ManhattanDistance
       (goal_positions 3 GOAL_STATE_8_PUZZLE)
       (mkSearchState [sample_root] ∅ 0 1)).

Lemma sample_search_state_reached :
  reached sample_state GOAL_STATE_8_PUZZLE ManhattanDistance
    (goal_positions 3 GOAL_STATE_8_PUZZLE) sample_search_state.
Proof.
  apply (reached_run_rounds 1 _ _ _ ∅ _ (mkSearchState [sample_root] ∅ 0 1)).
  - unfold install_goal_pos. simpl.
    apply (precompute_goal_pos_square 3).
    apply (bool_decide_unpack _). vm_compute. exact I.
  - vm_compute. reflexivity.
  - vm_compute. reflexivity.
Defined.

Lemma search_states_valid_witness :
  valid 3 sample_state ∧
  reached sample_state GOAL_STATE_8_PUZZLE ManhattanDistance
    (goal_positions 3 GOAL_STATE_8_PUZZLE) sample_search_state ∧
  (∀ m, m ∈ frontier sample_search_state →
        valid 3 (state m) ∧ each_once 3 (state m)) ∧
  (∀ t, t ∈ explored sample_search_state → valid 3 t ∧ each_once 3 t).
Proof.
  assert (valid 3 sample_state) as Hv
    by (apply (bool_decide_unpack _); vm_compute; exact I).
  split; [exact Hv|]. split; [exact sample_search_state_reached|].
  exact (search_states_valid 3 sample_state GOAL_STATE_8_PUZZLE
           ManhattanDistance _ sample_search_state Hv
           sample_search_state_reached).
Defined.

(** C7. For the node that a successful search from a Configuration
    returns, [reconstruct_path] gives a sequence that starts with the
    initial state, ends with the goal state, and in which each state
    comes from the one before by one move (the blank changes places with
    a tile next to it); the sequence has [g_cost] moves. *)
Theorem reconstruct_path_solution (n rounds : nat)
    (initial_state goal_state : State) (h : Heuristic) (gp0 gp : GoalPos)
    (node : PuzzleNode) (expanded max_queue : nat) :
  valid n initial_state →
  general_search rounds initial_state goal_state h gp0
  = (Some (Ok (Some node, expanded, max_queue)), gp) →
  let path := reconstruct_path (Some node) in
  head path = Some initial_state ∧ last path = Some goal_state ∧
  is_path path ∧ Z.of_nat (length path) = g_cost node + 1.
Proof.
  intros _ (st & Hreached & Hret)%general_search_Ok.
  apply reached_basic_inv in Hreached as [Hheap Htree _].
  apply search_round_Return in Hret
    as [[_ [=]]|(node' & rest & _ & Hperm & _ & Hgoal & [= <-])]; [|done].
  intros path. subst goal_state. apply tree_node_path.
  apply Htree. rewrite Hperm. by left.
Qed.

Lemma reconstruct_path_solution_witness :
  ∃ node expanded max_queue gp,
    valid 3 sample_state ∧
    general_search 5 sample_state GOAL_STATE_8_PUZZLE ManhattanDistance ∅
    = (Some (Ok (Some node, expanded, max_queue)), gp) ∧
    let path := reconstruct_path (Some node) in
    head path = Some sample_state ∧ last path = Some GOAL_STATE_8_PUZZLE ∧
    is_path path ∧ Z.of_nat (length path) = g_cost node + 1.
Proof.
  eexists _, _, _, _.
  assert (valid 3 sample_state) as Hv
    by (apply (bool_decide_unpack _); vm_compute; exact I).
  split; [exact Hv|].
  match goal with |- ?P ∧ _ => assert P as Hrun end.
  { vm_compute. reflexivity. }
  split; [exact Hrun|].
  exact (reconstruct_path_solution 3 _ _ _ _ _ _ _ _ _ Hv Hrun).
Defined.

(** C2 (as amended). The node popped in a round is a least element of the
    frontier for the order "[f_cost] ascending, ties broken by [g_cost]
    ascending": every node of the frontier has a larger [f_cost], or the
    same [f_cost] and a [g_cost] that is not smaller.  Among nodes of
    equal [f_cost] the tie-break therefore favours the shallower nodes. *)
Theorem popped_node_minimal (initial_state goal_state : State)
    (h : Heuristic) (gp : GoalPos) (st : SearchState) (node : PuzzleNode)
    (rest : list PuzzleNode) :
  reached initial_state goal_state h gp st →
  heapq.heappop PuzzleNode_lt (frontier st) = Ok (node, rest) →
  ∀ m, m ∈ frontier st →
    f_cost node < f_cost m ∨
    (f_cost node = f_cost m ∧ g_cost node ≤ g_cost m).
Proof.
  intros [Hheap _ _]%reached_basic_inv Hpop m Hm.
  destruct (frontier st) as [|n0 fr] eqn:Hfr; [done|].
  destruct (frontier_heappop (n0 :: fr) Hheap)
    as (node' & rest' & Hpop' & _ & _ & Hmin); [done|].
  rewrite Hpop in Hpop'. injection Hpop' as <- <-.
  apply PuzzleNode_lt_false. by apply Hmin.
Qed.

(** The search of the program's default puzzle with the Manhattan
    distance, and its state after two rounds. *)
Definition default_puzzle : State := [[1; 6; 7]; [5; 0; 3]; [4; 8; 2]].

Definition default_search_state : SearchState :=
  default (mkSearchState [] ∅ 0 0)
    (st0 ← (match search_init default_puzzle GOAL_STATE_8_PUZZLE
                    ManhattanDistance (goal_positions 3 GOAL_STATE_8_PUZZLE)
            with Ok st0 => Some st0 | Raise _ => None end);
     run_rounds 2 GOAL_STATE_8_PUZZLE ManhattanDistance
       (goal_positions 3 GOAL_STATE_8_PUZZLE) st0).

Lemma default_search_state_reached :
  reached default_puzzle GOAL_STATE_8_PUZZLE ManhattanDistance
    (goal_positions 3 GOAL_STATE_8_PUZZLE) default_search_state.
Proof.
  destruct (search_init default_puzzle GOAL_STATE_8_PUZZLE ManhattanDistance
              (goal_positions 3 GOAL_STATE_8_PUZZLE)) as [st0|] eqn:Hinit;
    [|by vm_compute in Hinit].
  apply (reached_run_rounds 2 _ _ _ ∅ _ st0).
  - unfold install_goal_pos. simpl.
    apply (precompute_goal_pos_square 3).
    apply (bool_decide_unpack _). vm_compute. exact I.
  - exact Hinit.
  - unfold default_search_state. rewrite Hinit. simpl.
    vm_compute in Hinit. injection Hinit as <-. vm_compute. reflexivity.
Defined.

Lemma popped_node_minimal_witness :
  ∃ node rest,
    reached default_puzzle GOAL_STATE_8_PUZZLE ManhattanDistance
      (goal_positions 3 GOAL_STATE_8_PUZZLE) default_search_state ∧
    heapq.heappop PuzzleNode_lt (frontier default_search_state)
    = Ok (node, rest) ∧
    ∀ m, m ∈ frontier default_search_state →
      f_cost node < f_cost m ∨
      (f_cost node = f_cost m ∧ g_cost node ≤ g_cost m).
Proof.
  eexists _, _.
  split; [exact default_search_state_reached|].
  match goal with |- ?P ∧ _ => assert P as Hpop end.
  { vm_compute. reflexivity. }
  split; [exact Hpop|].
  exact (popped_node_minimal _ _ _ _ _ _ _ default_search_state_reached Hpop).
Defined.

(** C2 as stated fails.  In the search of the default puzzle with the
    Manhattan distance, the third round pops a node with [f_cost = 12]
    and [g_cost = 1] while the frontier holds a node with the same
    [f_cost] and [g_cost = 2]: the deeper node is not the one favoured. *)
Lemma tie_break_favours_shallower_node :
  ∃ node rest m,
    reached default_puzzle GOAL_STATE_8_PUZZLE ManhattanDistance
      (goal_positions 3 GOAL_STATE_8_PUZZLE) default_search_state ∧
    heapq.heappop PuzzleNode_lt (frontier default_search_state)
    = Ok (node, rest) ∧
    m ∈ frontier default_search_state ∧
    f_cost m = f_cost node ∧ f_cost node = 12 ∧
    g_cost node = 1 ∧ g_cost m = 2 ∧
    state node = [[1; 6; 7]; [0; 5; 3]; [4; 8; 2]] ∧
    state m = [[1; 7; 0]; [5; 6; 3]; [4; 8; 2]].
Proof.
  eexists _, _, _.
  split; [exact default_search_state_reached|].
  split; [vm_compute; reflexivity|].
  split.
  { apply list_elem_of_lookup. exists 1%nat. vm_compute. reflexivity. }
  vm_compute. by repeat split.
Qed.

(** ** Finitely many Configurations *)

Lemma join_inj_rows n (s1 s2 : State) :
  Forall (λ row, length row = n) s1 → Forall (λ row, length row = n) s2 →
  length s1 = length s2 → mjoin s1 = mjoin s2 → s1 = s2.
Proof.
  intros H1. revert s2. induction H1 as [|row1 s1 Hrow1 _ IH];
    intros s2 H2 Hlen Hjoin.
  - by destruct s2.
  - destruct H2 as [|row2 s2 Hrow2 H2]; [done|]. simpl in *.
    apply app_inj_1 in Hjoin as [-> Hjoin]; [|congruence].
    f_equal. apply IH; [done|lia|done].
Qed.

Lemma join_inj_square n s1 s2 :
  square n s1 → square n s2 → mjoin s1 = mjoin s2 → s1 = s2.
Proof.
  intros [Hl1 H1] [Hl2 H2]. apply (join_inj_rows n); [done..|congruence].
Qed.

(** The number of arrangements of [0 .. n*n-1]. *)
Definition configurations (n : nat) : nat :=
  length (permutations (seqZ 0 (Z.of_nat (n * n)))).

Lemma size_valid_set (n : nat) (X : gset (list (list Z))) :
  (∀ t, t ∈ X → valid n t) → (size X ≤ configurations n)%nat.
Proof.
  intros HX. unfold size, set_size, configurations. simpl.
  rewrite <- (length_fmap mjoin (elements X)).
  apply submseteq_length, NoDup_submseteq.
  - apply NoDup_fmap_2_strong; [|apply NoDup_elements].
    intros s1 s2 Hs1%elem_of_elements%HX Hs2%elem_of_elements%HX.
    apply (join_inj_square n); by apply valid_square.
  - intros l (s & -> & Hs%elem_of_elements%HX)%list_elem_of_fmap.
    apply permutations_Permutation. symmetry. apply Hs.
Qed.

(** ** Optimality of the search *)

Lemma valid_0_nil s : valid 0 s → s = [].
Proof. intros [[Hlen _] _]. by destruct s. Qed.

Lemma expand_length node goal_state h gp succs :
  expand node goal_state h gp = Ok succs → (length succs ≤ 4)%nat.
Proof.
  intros (br & bc & _ & Hall)%expand_Ok.
  rewrite <- (Forall2_length _ _ _ Hall). unfold legal_moves.
  etrans; [apply length_filter|]. done.
Qed.

Section astar.
Context (n : nat) (initial_state goal_state : State).
Context (h : Heuristic) (gp : GoalPos).
Hypothesis Hinit : valid n initial_state.
Hypothesis Hgoal : valid n goal_state.
Hypothesis Hgp : gp_ready h gp n goal_state.
(** Some sequence of moves from the initial state to the goal. *)
Context (path : list State).
Hypothesis Hhead : head path = Some initial_state.
Hypothesis Hlast : last path = Some goal_state.
Hypothesis Hpath : is_path path.

Local Abbreviation hv := (hval h gp goal_state n).

Lemma path_valid i s : path !! i = Some s → valid n s.
Proof.
  revert s. induction i as [|i IH]; intros s Hs.
  - rewrite <- head_lookup, Hhead in Hs. by simplify_eq.
  - destruct (lookup_lt_is_Some_2 path i) as [s0 Hs0].
    { apply lookup_lt_Some in Hs. lia. }
    eapply slide_valid; [by apply IH|by eapply Hpath].
Qed.

Lemma hval_path j i s s' :
  (j ≤ i)%nat → path !! j = Some s → path !! i = Some s' →
  hv s ≤ Z.of_nat (i - j) + hv s'.
Proof.
  intros Hji Hs. revert s'. induction i as [|i IH]; intros s' Hs'.
  - assert (j = 0)%nat as -> by lia. simplify_eq. simpl. lia.
  - destruct (decide (j = S i)) as [->|Hne].
    { simplify_eq. rewrite Nat.sub_diag. simpl. lia. }
    destruct (lookup_lt_is_Some_2 path i) as [s0 Hs0].
    { apply lookup_lt_Some in Hs'. lia. }
    assert (hv s ≤ Z.of_nat (i - j) + hv s0) by (apply IH; [lia|done]).
    assert (hv s0 ≤ 1 + hv s').
    { apply hval_slide; [by eapply path_valid|by eapply Hpath]. }
    lia.
Qed.

(** What the search keeps true about the heuristic values and about the
    given sequence of moves: whenever a state of the sequence has been
    explored, the next one has been explored too or waits in the
    frontier at a depth that is not larger than its place in the
    sequence. *)
Record astar_inv (st : SearchState) : Prop := {
  astar_h : ∀ m, m ∈ frontier st → h_cost m = hv (state m);
  astar_goal : goal_state ∉ explored st;
  astar_root :
    initial_state ∈ explored st ∨
    ∃ m, m ∈ frontier st ∧ state m = initial_state ∧ g_cost m ≤ 0;
  astar_edge : ∀ i s s',
    path !! i = Some s → path !! S i = Some s' → s ∈ explored st →
    s' ∈ explored st ∨
    ∃ m, m ∈ frontier st ∧ state m = s' ∧ g_cost m ≤ Z.of_nat (S i);
}.

(** The first state of the sequence that is not explored waits in the
    frontier. *)
Lemma astar_witness st :
  astar_inv st →
  ∃ j m, path !! j = Some (state m) ∧ m ∈ frontier st ∧
         g_cost m ≤ Z.of_nat j ∧ (state m ∉ explored st) ∧
         ∀ i s, (i < j)%nat → path !! i = Some s → s ∈ explored st.
Proof.
  intros [_ Hg Hroot Hedge].
  destruct (list_find (λ s, s ∉ explored st) path) as [[j s]|] eqn:Hfind.
  - apply list_find_Some in Hfind as (Hj & Hs & Hbefore).
    assert (∀ i s0, (i < j)%nat → path !! i = Some s0 → s0 ∈ explored st)
      as Hbefore'.
    { intros i s0 Hi Hs0. apply dec_stable. by eapply Hbefore. }
    destruct j as [|j].
    + rewrite <- head_lookup, Hhead in Hj. simplify_eq.
      destruct Hroot as [?|(m & Hm & <- & Hgm)]; [done|].
      exists 0%nat, m. rewrite <- head_lookup. split_and!; try done.
    + destruct (lookup_lt_is_Some_2 path j) as [s0 Hs0].
      { apply lookup_lt_Some in Hj. lia. }
      destruct (Hedge j s0 s Hs0 Hj) as [?|(m & Hm & <- & Hgm)]; [|done|].
      { apply (Hbefore' j); [lia|done]. }
      exists (S j), m. split_and!; try done.
  - apply list_find_None in Hfind.
    apply last_Some in Hlast as [l' ->].
    apply Forall_app in Hfind as [_ Hf]. apply Forall_inv in Hf.
    by destruct Hf.
Qed.

(** A least node of the frontier whose state is the [i]-th of the
    sequence, and not yet explored, has depth at most [i]. *)
Lemma astar_bound st node i :
  basic_inv initial_state st → astar_inv st →
  node ∈ frontier st →
  (∀ m, m ∈ frontier st → PuzzleNode_lt m node = false) →
  path !! i = Some (state node) → state node ∉ explored st →
  g_cost node ≤ Z.of_nat i.
Proof.
  intros [_ Htree _] Hinv Hnode Hmin Hi Hnot.
  destruct (astar_witness st Hinv) as (j & m & Hj & Hm & Hgm & _ & Hbefore).
  assert (j ≤ i)%nat as Hji.
  { destruct (decide (j ≤ i)%nat); [done|].
    destruct Hnot. apply (Hbefore i); [lia|done]. }
  pose proof (hval_path j i _ _ Hji Hj Hi) as Hcons.
  pose proof (Hmin m Hm) as Hle. apply PuzzleNode_lt_false in Hle.
  rewrite (tree_node_f_cost initial_state node) in Hle by by apply Htree.
  rewrite (tree_node_f_cost initial_state m) in Hle by by apply Htree.
  rewrite (astar_h st Hinv node Hnode), (astar_h st Hinv m Hm) in Hle.
  lia.
Qed.

Lemma astar_inv_init st0 :
  search_init initial_state goal_state h gp = Ok st0 → astar_inv st0.
Proof.
  intros (hv0 & Hh & ->)%search_init_Ok. split; simpl.
  - intros m ->%list_elem_of_singleton. simpl.
    rewrite (heuristic_call_valid h gp n) in Hh by done. by simplify_eq.
  - set_solver.
  - right. eexists. split; [by left|]. done.
  - intros i s s' _ _ Hs. set_solver.
Qed.

Lemma astar_inv_step st st' :
  basic_inv initial_state st → astar_inv st →
  round_step goal_state h gp st st' → astar_inv st'.
Proof.
  intros Hbasic Hinv Hstep. pose proof Hbasic as [Hheap Htree Hexp].
  apply search_round_Continue in Hstep
    as (node & rest & _ & Hperm & Hrest & Hmin & Hng & Hcases); [|done].
  assert (node ∈ frontier st) as Hnode by (rewrite Hperm; by left).
  assert (∀ m, m ∈ frontier st → m = node ∨ m ∈ rest) as Hsplit.
  { intros m. rewrite Hperm. by intros ?%elem_of_cons. }
  destruct Hinv as [Hh Hg Hroot Hedge].
  destruct Hcases as [[Hin ->]|[Hnot (succs & Hexpand & ->)]].
  - (* a stale node is dropped *)
    split; simpl.
    + intros m Hm. apply Hh. rewrite Hperm. by right.
    + done.
    + destruct Hroot as [?|(m & Hm & Hs & Hgm)]; [by left|].
      destruct (Hsplit m Hm) as [->|?]; [left; congruence|right; eauto].
    + intros i s s' Hs Hs' Hse.
      destruct (Hedge i s s' Hs Hs' Hse) as [?|(m & Hm & Hsm & Hgm)]; [by left|].
      destruct (Hsplit m Hm) as [->|?]; [left; congruence|right; eauto].
  - (* a node is expanded *)
    destruct (push_successors_spec ({[state node]} ∪ explored st) succs rest Hrest)
      as [_ Hperm'].
    assert (tree_node initial_state node) as Htn by by apply Htree.
    split; simpl.
    + intros m. rewrite Hperm', elem_of_app, list_elem_of_filter.
      intros [[_ Hm]|Hm]; [|apply Hh; rewrite Hperm; by right].
      destruct (expand_tree initial_state node goal_state h gp succs m)
        as (Htm & _ & _ & Hhm); [done..|].
      rewrite (heuristic_call_valid h gp n) in Hhm; [by simplify_eq|done..|].
      eapply reachable_valid; [exact Hinit|by apply tree_node_reachable].
    + set_solver.
    + destruct Hroot as [?|(m & Hm & Hs & Hgm)]; [left; set_solver|].
      destruct (Hsplit m Hm) as [->|?]; [left; set_solver|].
      right. exists m. split; [|done]. rewrite Hperm'. set_solver.
    + intros i s s' Hs Hs' [->%elem_of_singleton|Hse]%elem_of_union.
      * (* the state just explored *)
        destruct (decide (s' ∈ {[state node]} ∪ explored st)) as [?|Hs'not];
          [by left|right].
        assert (valid n (state node)) as Hvn by by eapply path_valid.
        assert (0 < n)%nat as Hn.
        { destruct n; [|lia]. apply valid_0_nil in Hvn, Hgoal. congruence. }
        destruct (expand_complete n node goal_state h gp Hvn Hn)
          as (succs' & Hexpand' & Hall).
        { intros. eexists. by apply heuristic_call_valid. }
        rewrite Hexpand in Hexpand'. injection Hexpand' as <-.
        destruct (Hall s') as (child & Hchild & Hcs); [by eapply Hpath|].
        exists child. split_and!; [|done|].
        { rewrite Hperm'. apply elem_of_app. left.
          apply list_elem_of_filter. by rewrite Hcs. }
        destruct (expand_sound _ _ _ _ _ child Hexpand Hchild)
          as (_ & _ & -> & _).
        assert (g_cost node ≤ Z.of_nat i); [|lia].
        by apply (astar_bound st node i).
      * destruct (Hedge i s s' Hs Hs' Hse) as [?|(m & Hm & Hsm & Hgm)];
          [left; set_solver|].
        destruct (Hsplit m Hm) as [->|?]; [left; set_solver|].
        right. exists m. split; [|done]. rewrite Hperm'. set_solver.
Qed.

(** Termination: the frontier shrinks, or the explored set grows inside
    the finite set of Configurations. *)
Definition search_measure (st : SearchState) : nat :=
  (length (frontier st) + 4 * (configurations n - size (explored st)))%nat.

Lemma explored_size st :
  basic_inv initial_state st → (size (explored st) ≤ configurations n)%nat.
Proof.
  intros [_ _ Hexp]. apply size_valid_set. intros t Ht.
  eapply reachable_valid; [exact Hinit|by apply Hexp].
Qed.

Lemma search_measure_step st st' :
  basic_inv initial_state st → round_step goal_state h gp st st' →
  (search_measure st' < search_measure st)%nat.
Proof.
  intros Hbasic Hstep.
  pose proof (basic_inv_step _ _ _ _ _ _ Hbasic Hstep) as Hbasic'.
  pose proof (explored_size _ Hbasic') as Hsize.
  destruct Hbasic as [Hheap _ _].
  apply search_round_Continue in Hstep
    as (node & rest & _ & Hperm & Hrest & _ & _ & Hcases); [|done].
  unfold search_measure. rewrite Hperm.
  destruct Hcases as [[_ ->]|[Hnot (succs & Hexpand & ->)]]; simpl in *.
  - lia.
  - destruct (push_successors_spec ({[state node]} ∪ explored st) succs rest Hrest)
      as [_ Hperm'].
    rewrite Hperm', length_app.
    pose proof (length_filter (λ c, state c ∉ {[state node]} ∪ explored st) succs).
    pose proof (expand_length _ _ _ _ _ Hexpand).
    rewrite size_union in * by set_solver. rewrite size_singleton in *. lia.
Qed.

(** Every round goes on, or returns a goal node that is not deeper than
    the given sequence of moves is long. *)
Lemma search_round_progress st :
  basic_inv initial_state st → astar_inv st →
  (∃ st', search_round goal_state h gp st = Ok (Continue st')) ∨
  (∃ node,
     search_round goal_state h gp st
     = Ok (Return (Some node, expanded_count st, round_max st)) ∧
     state node = goal_state ∧ tree_node initial_state node ∧
     g_cost node + 1 ≤ Z.of_nat (length path)).
Proof.
  intros Hbasic Hinv. pose proof Hbasic as [Hheap Htree Hexp].
  destruct (astar_witness st Hinv) as (j & m & Hj & Hm & _).
  destruct (frontier_heappop (frontier st) Hheap)
    as (node & rest & Hpop & Hrest & Hperm & Hmin).
  { intros Heq. rewrite Heq in Hm. by apply elem_of_nil in Hm. }
  assert (node ∈ frontier st) as Hnode by (rewrite Hperm; by left).
  unfold search_round, round_max.
  destruct (frontier st) as [|n0 fr] eqn:Hfr; [by apply elem_of_nil in Hm|].
  rewrite Hpop, Ok_bind. unfold goal_test, state_to_tuple.
  case_bool_decide as Hg.
  - right. exists node. split_and!; [done|done|by apply Htree|].
    pose proof Hlast as Hlast'. apply last_Some in Hlast' as [l' Hl'].
    assert (path !! length l' = Some (state node)) as Hi.
    { rewrite Hl', Hg. by apply list_lookup_middle. }
    assert (g_cost node ≤ Z.of_nat (length l')).
    { apply (astar_bound st node); try done; rewrite ?Hfr; try done.
      rewrite Hg. by apply Hinv. }
    rewrite Hl', length_app. simpl. lia.
  - left. case_bool_decide; [by eexists|].
    assert (valid n (state node)) as Hvn.
    { eapply reachable_valid; [exact Hinit|].
      by apply tree_node_reachable, Htree. }
    assert (0 < n)%nat as Hn.
    { destruct n; [|lia]. apply valid_0_nil in Hvn, Hgoal. congruence. }
    destruct (expand_complete n node goal_state h gp Hvn Hn)
      as (succs & -> & _).
    { intros. eexists. by apply heuristic_call_valid. }
    rewrite Ok_bind. by eexists.
Qed.

Lemma search_loop_solves rounds st :
  basic_inv initial_state st → astar_inv st →
  (search_measure st < rounds)%nat →
  ∃ node expanded max_queue,
    search_loop rounds goal_state h gp st
    = Some (Ok (Some node, expanded, max_queue)) ∧
    state node = goal_state ∧ tree_node initial_state node ∧
    g_cost node + 1 ≤ Z.of_nat (length path).
Proof.
  revert st. induction rounds as [|rounds IH]; intros st Hbasic Hinv Hlt;
    [lia|].
  simpl. destruct (search_round_progress st Hbasic Hinv)
    as [[st' Hst']|(node & -> & Hnode)].
  - rewrite Hst'. apply IH.
    + by eapply basic_inv_step.
    + by eapply astar_inv_step.
    + pose proof (search_measure_step st st' Hbasic Hst'). lia.
  - by eexists _, _, _.
Qed.
End astar.

Lemma search_loop_mono rounds rounds' goal_state h gp st r :
  search_loop rounds goal_state h gp st = Some r → (rounds ≤ rounds')%nat →
  search_loop rounds' goal_state h gp st = Some r.
Proof.
  revert rounds' st. induction rounds as [|rounds IH]; intros rounds' st;
    simpl; [done|].
  intros Hloop Hle. destruct rounds' as [|rounds']; [lia|]. simpl.
  destruct (search_round goal_state h gp st) as [[st'|res]|e]; try done.
  apply IH; [done|lia].
Qed.

Lemma install_goal_pos_square n h goal_state gp0 :
  square n goal_state →
  ∃ gp, install_goal_pos h goal_state gp0 = (Ok (), gp) ∧
        gp_ready h gp n goal_state.
Proof.
  intros Hsq. unfold install_goal_pos, gp_ready. case_bool_decide.
  - rewrite (precompute_goal_pos_square n) by done. by eexists.
  - by eexists.
Qed.

(** A sequence of moves from [s] to [s']. *)
Definition moves_from_to (s s' : State) (path : list State) : Prop :=
  head path = Some s ∧ last path = Some s' ∧ is_path path.

Lemma general_search_solves n initial_state goal_state h gp0 path :
  valid n initial_state → valid n goal_state →
  moves_from_to initial_state goal_state path →
  ∃ rounds0 node expanded max_queue gp,
    (∀ rounds, (rounds0 ≤ rounds)%nat →
       general_search rounds initial_state goal_state h gp0
       = (Some (Ok (Some node, expanded, max_queue)), gp)) ∧
    state node = goal_state ∧ tree_node initial_state node ∧
    g_cost node + 1 ≤ Z.of_nat (length path).
Proof.
  intros Hinit Hgoal (Hhead & Hlast & Hpath).
  destruct (install_goal_pos_square n h goal_state gp0) as (gp & Hinst & Hgp);
    [by apply valid_square|].
  destruct (search_init initial_state goal_state h gp) as [st0|] eqn:Hst0.
  2:{ unfold search_init in Hst0.
      by rewrite (heuristic_call_valid h gp n) in Hst0. }
  destruct (search_loop_solves n initial_state goal_state h gp Hinit Hgoal Hgp
              path Hhead Hlast Hpath
              (S (search_measure n st0)) st0)
    as (node & e & m & Hloop & Hnode); [by eapply basic_inv_init| |lia|].
  { by apply (astar_inv_init n initial_state goal_state h gp). }
  exists (S (search_measure n st0)), node, e, m, gp. split; [|done].
  intros rounds Hrounds. rewrite general_search_unfold, Hinst, Hst0.
  f_equal. by eapply search_loop_mono.
Qed.

(** C1. For each of the three heuristics, and for every initial
    Configuration from which the goal Configuration can be reached by
    moves, [general_search] returns (given enough rounds of its loop) a
    node that holds the goal and whose [g_cost] is the length of a
    shortest sequence of moves from the initial state to the goal:
    [reconstruct_path] gives a sequence of [g_cost] moves, and no
    sequence of moves from the initial state to the goal is shorter. *)
Theorem general_search_optimal (n : nat) (initial_state goal_state : State)
    (h : Heuristic) (gp0 : GoalPos) (path : list State) :
  valid n initial_state → valid n goal_state →
  moves_from_to initial_state goal_state path →
  ∃ rounds0 node expanded max_queue gp,
    (∀ rounds, (rounds0 ≤ rounds)%nat →
       general_search rounds initial_state goal_state h gp0
       = (Some (Ok (Some node, expanded, max_queue)), gp)) ∧
    state node = goal_state ∧
    moves_from_to initial_state goal_state (reconstruct_path (Some node)) ∧
    Z.of_nat (length (reconstruct_path (Some node))) = g_cost node + 1 ∧
    ∀ path', moves_from_to initial_state goal_state path' →
             g_cost node + 1 ≤ Z.of_nat (length path').
Proof.
  intros Hinit Hgoal Hmoves.
  destruct (general_search_solves n initial_state goal_state h gp0 path)
    as (rounds0 & node & e & m & gp & Hrun & Hstate & Htree & _); [done..|].
  exists rounds0, node, e, m, gp. split_and!; [done..| | |].
  - destruct (tree_node_path _ _ Htree) as (? & ? & ? & _).
    split_and!; [done|congruence|done].
  - by destruct (tree_node_path _ _ Htree) as (_ & _ & _ & ?).
  - intros path' Hmoves'.
    destruct (general_search_solves n initial_state goal_state h gp0 path')
      as (rounds1 & node' & e' & m' & gp' & Hrun' & _ & _ & Hle); [done..|].
    specialize (Hrun (rounds0 `max` rounds1)%nat).
    specialize (Hrun' (rounds0 `max` rounds1)%nat).
    rewrite Hrun in Hrun' by lia.
    assert (rounds1 ≤ rounds0 `max` rounds1)%nat as Hmax by lia.
    apply Hrun' in Hmax. by simplify_eq.
Qed.

Lemma sample_moves :
  moves_from_to sample_state GOAL_STATE_8_PUZZLE
    [sample_state; GOAL_STATE_8_PUZZLE].
Proof.
  unfold moves_from_to. split_and!; [done..|].
  intros [|i] s s' Hs Hs'; simplify_eq/=.
  exists (1, 2)%nat, (2, 2)%nat, 6. split_and!; [done..| |done].
  unfold adjacent. simpl. lia.
Qed.

Lemma general_search_optimal_witness :
  valid 3 sample_state ∧ valid 3 GOAL_STATE_8_PUZZLE ∧
  moves_from_to sample_state GOAL_STATE_8_PUZZLE
    [sample_state; GOAL_STATE_8_PUZZLE] ∧
  ∃ rounds0 node expanded max_queue gp,
    (∀ rounds, (rounds0 ≤ rounds)%nat →
       general_search rounds sample_state GOAL_STATE_8_PUZZLE
         MisplacedTile ∅
       = (Some (Ok (Some node, expanded, max_queue)), gp)) ∧
    state node = GOAL_STATE_8_PUZZLE ∧
    moves_from_to sample_state GOAL_STATE_8_PUZZLE
      (reconstruct_path (Some node)) ∧
    Z.of_nat (length (reconstruct_path (Some node))) = g_cost node + 1 ∧
    ∀ path', moves_from_to sample_state GOAL_STATE_8_PUZZLE path' →
             g_cost node + 1 ≤ Z.of_nat (length path').
Proof.
  assert (valid 3 sample_state) as Hv1
    by (apply (bool_decide_unpack _); vm_compute; exact I).
  assert (valid 3 GOAL_STATE_8_PUZZLE) as Hv2
    by (apply (bool_decide_unpack _); vm_compute; exact I).
  split; [exact Hv1|]. split; [exact Hv2|]. split; [exact sample_moves|].
  exact (general_search_optimal 3 sample_state GOAL_STATE_8_PUZZLE
           MisplacedTile ∅ _ Hv1 Hv2 sample_moves).
Defined.

(** The grid after the swap, cell by cell. *)
Lemma cell_swap s r1 c1 r2 c2 v1 v2 r c :
  cell s r1 c1 = Some v1 → cell s r2 c2 = Some v2 → (r1, c1) ≠ (r2, c2) →
  cell (setitem2 (setitem2 s r1 c1 v2) r2 c2 v1) r c
  = if decide ((r, c) = (r1, c1)) then Some v2
    else if decide ((r, c) = (r2, c2)) then Some v1
    else cell s r c.
Proof.
  intros H1 H2 Hne. destruct (decide ((r, c) = (r2, c2))) as [[= -> ->]|Hne2].
  - rewrite decide_False by congruence.
    apply cell_setitem2_eq. rewrite cell_setitem2_ne by done. by eexists.
  - rewrite cell_setitem2_ne by congruence.
    destruct (decide ((r, c) = (r1, c1))) as [[= -> ->]|Hne1].
    + apply cell_setitem2_eq. by eexists.
    + rewrite cell_setitem2_ne by congruence. done.
Qed.




(** ** Grids that are not Configurations *)

Lemma find_blank_no_blank n s :
  square n s → 0 ∉ mjoin s → find_blank s = Ok None.
Proof.
  intros Hsq Hno. unfold find_blank.
  rewrite for_return_nested, for_return_None, Forall_forall.
  intros [r c] [Hr Hc]%elem_of_pairs. simpl.
  rewrite find_blank_body_cell.
  apply elem_of_range in Hr, Hc. destruct Hsq as [Hlen Hall].
  rewrite Hlen in Hr, Hc.
  destruct (proj2 (cell_is_Some n s r c (conj Hlen Hall))) as [v Hv]; [done|].
  rewrite Hv. rewrite bool_decide_eq_false_2; [done|].
  intros ->. apply Hno, elem_of_join_cell. eauto.
Qed.

(** C3 (as amended). [general_search] does not check its input and has
    no rejection of its own; a grid that is not a Configuration reaches
    the search loop.  With the zero or the misplaced-tile heuristic, a
    square grid without a blank that is not the goal becomes the root
    node and enters the loop; only in the first round, when the
    root is expanded, is [TypeError] raised, because [expand] unpacks the
    [None] that [find_blank] returns. *)
Theorem no_blank_raises_in_first_round (n rounds : nat)
    (initial_state goal_state : State) (h : Heuristic) (gp0 : GoalPos) :
  h ≠ ManhattanDistance →
  square n initial_state → square n goal_state →
  0 ∉ mjoin initial_state → initial_state ≠ goal_state →
  ∃ st0 root,
    install_goal_pos h goal_state gp0 = (Ok (), gp0) ∧
    search_init initial_state goal_state h gp0 = Ok st0 ∧
    frontier st0 = [root] ∧ state root = initial_state ∧
    expand root goal_state h gp0 = Raise TypeError ∧
    search_round goal_state h gp0 st0 = Raise TypeError ∧
    general_search (S rounds) initial_state goal_state h gp0
    = (Some (Raise TypeError), gp0).
Proof.
  intros Hh Hsq Hgoal Hno Hne.
  assert (install_goal_pos h goal_state gp0 = (Ok (), gp0)) as Hinst.
  { unfold install_goal_pos. by rewrite bool_decide_eq_false_2. }
  assert (∃ hv, heuristic_call h gp0 initial_state goal_state = Ok hv)
    as [hv Hhv].
  { destruct h; simpl; [by eexists| |done].
    rewrite (misplaced_tile_cellsum n) by done. by eexists. }
  set (root := PuzzleNode_init initial_state None None 0 hv).
  assert (search_init initial_state goal_state h gp0
          = Ok (mkSearchState [root] ∅ 0 1)) as Hinit.
  { unfold search_init. by rewrite Hhv. }
  assert (expand root goal_state h gp0 = Raise TypeError) as Hexpand.
  { unfold expand. simpl. by rewrite (find_blank_no_blank n). }
  assert (search_round goal_state h gp0 (mkSearchState [root] ∅ 0 1)
          = Raise TypeError) as Hround.
  { unfold search_round. simpl frontier. unfold heapq.heappop. simpl.
    unfold goal_test, state_to_tuple. simpl.
    rewrite bool_decide_eq_false_2 by done.
    rewrite bool_decide_eq_false_2 by set_solver.
    by rewrite Hexpand. }
  exists (mkSearchState [root] ∅ 0 1), root.
  split_and!; try done.
  rewrite general_search_unfold, Hinst, Hinit. simpl. by rewrite Hround.
Qed.

Definition no_blank_grid : State := [[1; 2; 3]; [4; 5; 6]; [7; 8; 8]].

Lemma no_blank_raises_in_first_round_witness :
  NoHeuristic ≠ ManhattanDistance ∧
  square 3 no_blank_grid ∧ square 3 GOAL_STATE_8_PUZZLE ∧
  (0 ∉ mjoin no_blank_grid) ∧ no_blank_grid ≠ GOAL_STATE_8_PUZZLE ∧
  ∃ st0 root,
    install_goal_pos NoHeuristic GOAL_STATE_8_PUZZLE ∅ = (Ok (), ∅) ∧
    search_init no_blank_grid GOAL_STATE_8_PUZZLE NoHeuristic ∅ = Ok st0 ∧
    frontier st0 = [root] ∧ state root = no_blank_grid ∧
    expand root GOAL_STATE_8_PUZZLE NoHeuristic ∅ = Raise TypeError ∧
    search_round GOAL_STATE_8_PUZZLE NoHeuristic ∅ st0 = Raise TypeError ∧
    general_search 1 no_blank_grid GOAL_STATE_8_PUZZLE NoHeuristic ∅
    = (Some (Raise TypeError), ∅).
Proof.
  assert (NoHeuristic ≠ ManhattanDistance) as H1 by discriminate.
  assert (square 3 no_blank_grid) as H2
    by (apply (bool_decide_unpack _); vm_compute; exact I).
  assert (square 3 GOAL_STATE_8_PUZZLE) as H3
    by (apply (bool_decide_unpack _); vm_compute; exact I).
  assert (0 ∉ mjoin no_blank_grid) as H4
    by (apply (bool_decide_unpack _); vm_compute; exact I).
  assert (no_blank_grid ≠ GOAL_STATE_8_PUZZLE) as H5 by discriminate.
  split; [exact H1|]. split; [exact H2|]. split; [exact H3|].
  split; [exact H4|]. split; [exact H5|].
  exact (no_blank_raises_in_first_round 3 0 no_blank_grid GOAL_STATE_8_PUZZLE
           NoHeuristic ∅ H1 H2 H3 H4 H5).
Defined.

Definition all_blank_grid : State := [[0; 0; 0]; [0; 0; 0]; [0; 0; 0]].

(** C3 as stated fails: a grid of nine blanks is not a Configuration, yet
    [general_search] neither rejects it nor raises.  With each of the
    three heuristics the root is popped and expanded, its two successors
    (the same grid again) are left out because their state is explored,
    and the search ends with the ordinary "no solution" result
    [(None, 1, 1)]. *)
Lemma malformed_grid_searched :
  ¬ valid 3 all_blank_grid ∧
  (general_search 2 all_blank_grid GOAL_STATE_8_PUZZLE NoHeuristic ∅).1
  = Some (Ok (None, 1%nat, 1%nat)) ∧
  (general_search 2 all_blank_grid GOAL_STATE_8_PUZZLE MisplacedTile ∅).1
  = Some (Ok (None, 1%nat, 1%nat)) ∧
  (general_search 2 all_blank_grid GOAL_STATE_8_PUZZLE ManhattanDistance ∅).1
  = Some (Ok (None, 1%nat, 1%nat)).
Proof.
  split_and!.
  - apply (bool_decide_unpack _). vm_compute. exact I.
  - vm_compute. reflexivity.
  - vm_compute. reflexivity.
  - vm_compute. reflexivity.
Qed.

(** ** The Manhattan distance, tile by tile *)

(** Where the tile [t] is in the grid [s]. *)
Definition locate (s : State) (t : Z) : option (nat * nat) :=
  head (filter (λ p, cell s p.1 p.2 = Some t) (cells (length s))).

(** The row distance plus the column distance between the place of the
    tile [t] in [s] and its place in the goal. *)
Definition tile_distance (s goal_state : State) (t : Z) : Z :=
  match locate s t, locate goal_state t with
  | Some (r, c), Some (goal_r, goal_c) =>
    Z.abs (Z.of_nat r - Z.of_nat goal_r) + Z.abs (Z.of_nat c - Z.of_nat goal_c)
  | _, _ => 0
  end.

(** The sum over the non-blank tiles [1 .. n*n-1]. *)
Definition manhattan_sum (n : nat) (s goal_state : State) : Z :=
  Zsum (tile_distance s goal_state <$> seqZ 1 (Z.of_nat (n * n) - 1)).

Lemma locate_valid n s r c t :
  valid n s → cell s r c = Some t → locate s t = Some (r, c).
Proof.
  intros Hv Hc. pose proof (valid_square _ _ Hv) as Hsq.
  unfold locate. assert (length s = n) as -> by apply Hsq.
  assert ((r, c) ∈ filter (λ p, cell s p.1 p.2 = Some t) (cells n)) as Hin.
  { apply list_elem_of_filter. split; [done|].
    apply elem_of_cells. by eapply cell_Some_lt. }
  destruct (filter _ (cells n)) as [|[r' c'] l] eqn:Hf; [by inv Hin|].
  simpl. assert ((r', c') ∈ filter (λ p, cell s p.1 p.2 = Some t) (cells n))
    as [Hc' _]%list_elem_of_filter by (rewrite Hf; by left).
  simpl in Hc'.
  destruct (cell_inj n s r c r' c' t) as [-> ->]; eauto using valid_NoDup.
Qed.

Lemma Zsum_Permutation l l' : l ≡ₚ l' → Zsum l = Zsum l'.
Proof.
  induction 1 as [|x l l' _ IH|x y l|l l' l'' _ IH1 _ IH2];
    rewrite ?Zsum_cons; try done; lia.
Qed.

(** The values of a square grid, read cell by cell, are its rows joined. *)
Lemma cells_values_Permutation n s :
  valid n s →
  (λ p, default 0 (cell s p.1 p.2)) <$> cells n ≡ₚ mjoin s.
Proof.
  intros Hv. pose proof (valid_square _ _ Hv) as Hsq.
  apply NoDup_Permutation.
  - apply NoDup_fmap_2_strong; [|apply NoDup_cells].
    intros [r1 c1] [r2 c2] H1%elem_of_cells H2%elem_of_cells Heq. simpl in *.
    destruct (proj2 (cell_is_Some n s r1 c1 Hsq) H1) as [w1 Hw1].
    destruct (proj2 (cell_is_Some n s r2 c2 Hsq) H2) as [w2 Hw2].
    rewrite Hw1, Hw2 in Heq. simpl in Heq. subst w2.
    destruct (cell_inj n s r1 c1 r2 c2 w1) as [-> ->]; eauto using valid_NoDup.
  - by eapply valid_NoDup.
  - intros v. rewrite list_elem_of_fmap, elem_of_join_cell. split.
    + intros ([r c] & -> & Hin%elem_of_cells). simpl.
      destruct (proj2 (cell_is_Some n s r c Hsq) Hin) as [w Hw].
      exists r, c. by rewrite Hw.
    + intros (r & c & Hc). exists (r, c). simpl. rewrite Hc. split; [done|].
      apply elem_of_cells. by eapply cell_Some_lt.
Qed.

(** The loop over the cells computes the sum over the tiles. *)
Lemma manhattan_cellsum_tiles n s goal_state :
  valid n s → valid n goal_state → (0 < n)%nat →
  cellsum (manhattan_weight (goal_positions n goal_state)) n s
  = manhattan_sum n s goal_state.
Proof.
  intros Hs Hg Hn. pose proof (valid_square _ _ Hs) as Hsq.
  set (D t := if bool_decide (t = 0) then 0 else tile_distance s goal_state t).
  transitivity (Zsum (D <$> ((λ p, default 0 (cell s p.1 p.2)) <$> cells n))).
  - unfold cellsum. rewrite <- list_fmap_compose. f_equal.
    apply list_fmap_ext. intros i [r c] Hin%list_elem_of_lookup_2%elem_of_cells.
    simpl. destruct (proj2 (cell_is_Some n s r c Hsq) Hin) as [v Hv].
    rewrite Hv. simpl. unfold manhattan_weight, D, tile_distance.
    case_bool_decide; [|by rewrite bool_decide_eq_true_2 by tauto].
    rewrite bool_decide_eq_false_2 by done.
    rewrite (locate_valid n s r c v) by done.
    assert (v ∈ mjoin goal_state) as (gr & gc & Hgv)%elem_of_join_cell.
    { apply (valid_same_values n s); [done..|]. apply elem_of_join_cell. eauto. }
    rewrite (locate_valid n goal_state gr gc v) by done.
    by rewrite (proj2 (goal_positions_lookup n goal_state v gr gc Hg) Hgv).
  - rewrite (Zsum_Permutation _ (D <$> seqZ 0 (Z.of_nat (n * n)))).
    2:{ apply fmap_Permutation. rewrite (cells_values_Permutation n) by done.
        apply Hs. }
    unfold manhattan_sum.
    replace (Z.of_nat (n * n)) with (Z.succ (Z.of_nat (n * n) - 1)) at 1 by lia.
    rewrite seqZ_cons by nia. rewrite fmap_cons, Zsum_cons.
    unfold D at 1. rewrite bool_decide_eq_true_2 by done.
    replace (Z.pred (Z.succ (Z.of_nat (n * n) - 1))) with (Z.of_nat (n * n) - 1)
      by lia.
    replace (Z.succ 0) with 1 by lia. rewrite Z.add_0_l. f_equal.
    apply list_fmap_ext. intros i t Ht%list_elem_of_lookup_2%elem_of_seqZ.
    unfold D. by rewrite bool_decide_eq_false_2 by lia.
Qed.

(** The [h_cost] of every node in the frontier is what the heuristic
    gives for the node's state with the dictionary of this search. *)
Lemma reached_h_cost initial_state goal_state h gp st m :
  reached initial_state goal_state h gp st → m ∈ frontier st →
  heuristic_call h gp (state m) goal_state = Ok (h_cost m).
Proof.
  intros (gp0 & st0 & _ & Hinit & Hrtc).
  assert (basic_inv initial_state st0) as Hbasic by by eapply basic_inv_init.
  assert (∀ m, m ∈ frontier st0 →
            heuristic_call h gp (state m) goal_state = Ok (h_cost m)) as Hh.
  { apply search_init_Ok in Hinit as (hv & Hhv & ->).
    by intros ? ->%list_elem_of_singleton. }
  clear Hinit. revert m. induction Hrtc as [st|st st1 st2 Hstep _ IH];
    [done|].
  apply IH; [by eapply basic_inv_step|].
  pose proof Hbasic as [Hheap Htree _].
  apply search_round_Continue in Hstep
    as (node & rest & _ & Hperm & Hrest & _ & _ & Hcases); [|done].
  destruct Hcases as [[_ ->]|[_ (succs & Hexpand & ->)]]; simpl.
  - intros m Hm. apply Hh. rewrite Hperm. by right.
  - destruct (push_successors_spec ({[state node]} ∪ explored st) succs rest Hrest)
      as [_ Hperm'].
    intros m. rewrite Hperm', elem_of_app, list_elem_of_filter.
    intros [[_ Hm]|Hm]; [|apply Hh; rewrite Hperm; by right].
    eapply expand_tree; [|done..]. apply Htree. rewrite Hperm. by left.
Qed.

(** C6. [precompute_goal_pos] maps each value to its cell in the goal;
    with that dictionary, [manhattan_distance_heuristic] returns the sum,
    over the non-blank tiles, of the row distance plus the column
    distance between the tile's place in the state and its place in the
    goal.  [general_search] builds the dictionary once, before the loop:
    it is the store the run ends with, and the [h_cost] of every node
    that enters the frontier is that sum for the node's state. *)
Theorem manhattan_distance_sum (n : nat) (s goal_state : State)
    (gp0 : GoalPos) :
  valid n s → valid n goal_state → (0 < n)%nat →
  ∃ gp,
    precompute_goal_pos goal_state gp0 = (Ok (), gp) ∧
    (∀ t r c, gp !! t = Some (r, c) ↔ cell goal_state r c = Some t) ∧
    manhattan_distance_heuristic s goal_state gp
    = Ok (manhattan_sum n s goal_state) ∧
    (∀ rounds initial_state,
       (general_search rounds initial_state goal_state ManhattanDistance gp0).2
       = gp) ∧
    (∀ initial_state st m,
       valid n initial_state →
       reached initial_state goal_state ManhattanDistance gp st →
       m ∈ frontier st → h_cost m = manhattan_sum n (state m) goal_state).
Proof.
  intros Hs Hg Hn. pose proof (valid_square _ _ Hg) as Hgsq.
  exists (goal_positions n goal_state).
  assert (gp_ready ManhattanDistance (goal_positions n goal_state) n goal_state)
    as Hgp by done.
  assert (∀ s', valid n s' →
    manhattan_distance_heuristic s' goal_state (goal_positions n goal_state)
    = Ok (manhattan_sum n s' goal_state)) as Hsum.
  { intros s' Hs'.
    pose proof (heuristic_call_valid ManhattanDistance _ n goal_state s' Hg Hgp Hs')
      as Hcall.
    simpl in Hcall. by rewrite Hcall, manhattan_cellsum_tiles. }
  split_and!.
  - by apply precompute_goal_pos_square.
  - intros t r c. by apply goal_positions_lookup.
  - by apply Hsum.
  - intros rounds initial_state. rewrite general_search_unfold.
    unfold install_goal_pos. simpl.
    rewrite (precompute_goal_pos_square n) by done.
    by destruct (search_init _ _ _ _).
  - intros initial_state st m Hinit Hreached Hm.
    pose proof (reached_h_cost _ _ _ _ _ _ Hreached Hm) as Hcall.
    simpl in Hcall. rewrite Hsum in Hcall; [by simplify_eq|].
    apply reached_basic_inv in Hreached as [_ Htree _].
    eapply reachable_valid; [exact Hinit|].
    by apply tree_node_reachable, Htree.
Qed.

Lemma manhattan_distance_sum_witness :
  valid 3 default_puzzle ∧ valid 3 GOAL_STATE_8_PUZZLE ∧ (0 < 3)%nat ∧
  ∃ gp,
    precompute_goal_pos GOAL_STATE_8_PUZZLE ∅ = (Ok (), gp) ∧
    (∀ t r c, gp !! t = Some (r, c) ↔ cell GOAL_STATE_8_PUZZLE r c = Some t) ∧
    manhattan_distance_heuristic default_puzzle GOAL_STATE_8_PUZZLE gp
    = Ok (manhattan_sum 3 default_puzzle GOAL_STATE_8_PUZZLE) ∧
    (∀ rounds initial_state,
       (general_search rounds initial_state GOAL_STATE_8_PUZZLE
          ManhattanDistance ∅).2 = gp) ∧
    (∀ initial_state st m,
       valid 3 initial_state →
       reached initial_state GOAL_STATE_8_PUZZLE ManhattanDistance gp st →
       m ∈ frontier st →
       h_cost m = manhattan_sum 3 (state m) GOAL_STATE_8_PUZZLE).
Proof.
  assert (valid 3 default_puzzle) as Hv1
    by (apply (bool_decide_unpack _); vm_compute; exact I).
  assert (valid 3 GOAL_STATE_8_PUZZLE) as Hv2
    by (apply (bool_decide_unpack _); vm_compute; exact I).
  assert (0 < 3)%nat as Hn by lia.
  split; [exact Hv1|]. split; [exact Hv2|]. split; [exact Hn|].
  exact (manhattan_distance_sum 3 default_puzzle GOAL_STATE_8_PUZZLE ∅
           Hv1 Hv2 Hn).
Defined.

Example manhattan_default_puzzle :
  manhattan_sum 3 default_puzzle GOAL_STATE_8_PUZZLE = 12.
Proof. vm_compute. reflexivity. Qed.

(** ** The input check and the scenarios of the program *)

(** The check at the end of [get_user_puzzle] accepts exactly the
    three-row grids that hold each of [0 .. 8] once; [general_search]
    itself has no such check. *)
Lemma check_user_puzzle_Some puzzle :
  check_user_puzzle puzzle = Some puzzle ↔ mjoin puzzle ≡ₚ seqZ 0 9.
Proof.
  unfold check_user_puzzle.
  assert (concat puzzle = mjoin puzzle) as ->.
  { induction puzzle as [|row puzzle IH]; simpl; [done|]. by rewrite IH. }
  case_bool_decide as Hsort; split; try done.
  - intros Hperm. destruct Hsort.
    apply (Sorted_unique Z.le).
    + apply Sorted_merge_sort; apply _.
    + by vm_compute; repeat constructor.
    + by rewrite merge_sort_Permutation.
  - intros _. by rewrite <- Hsort, merge_sort_Permutation.
Qed.

(** What the program prints after a successful run: the solution depth,
    the number of nodes expanded and the largest frontier. *)
Definition search_summary (rounds : nat) (initial_state : State)
    (h : Heuristic) : option (result (option Z * nat * nat)) :=
  match (general_search rounds initial_state GOAL_STATE_8_PUZZLE h ∅).1 with
  | Some (Ok (node, expanded, max_queue)) =>
    Some (Ok (g_cost <$> node, expanded, max_queue))
  | Some (Raise e) => Some (Raise e)
  | None => None
  end.

Example one_move_manhattan :
  search_summary 5 sample_state ManhattanDistance
  = Some (Ok (Some 1, 1%nat, 3%nat)).
Proof. vm_compute. reflexivity. Qed.

Example two_moves_misplaced :
  search_summary 5 [[1; 2; 3]; [4; 0; 5]; [7; 8; 6]] MisplacedTile
  = Some (Ok (Some 2, 2%nat, 5%nat)).
Proof. vm_compute. reflexivity. Qed.

Example two_moves_uniform_cost :
  search_summary 20 [[1; 2; 3]; [4; 0; 5]; [7; 8; 6]] NoHeuristic
  = Some (Ok (Some 2, 9%nat, 8%nat)).
Proof. vm_compute. reflexivity. Qed.

(** * Further properties of the code *)

(** ** [find_blank] *)

Lemma for_return_Raise {I A} (xs : list I) (body : I → result (option A)) e :
  for_return xs body = Raise e → ∃ i, i ∈ xs ∧ body i = Raise e.
Proof.
  induction xs as [|i xs IH]; simpl; [done|].
  destruct (body i) as [[w|]|e'] eqn:Hb; [done| |].
  - intros (j & Hj & Hbj)%IH. exists j. split; [by right|done].
  - intros [= ->]. exists i. split; [by left|done].
Qed.

Lemma range_split n xs1 i xs2 :
  range n = xs1 ++ i :: xs2 → (i < n)%nat ∧ ∀ j, (j < i)%nat → j ∈ xs1.
Proof.
  unfold range. intros Heq.
  assert (length xs1 = i) as Hlen.
  { pose proof (list_lookup_middle xs1 xs2 i _ eq_refl) as Hi.
    rewrite <- Heq in Hi. apply lookup_seq in Hi. lia. }
  assert (i < n)%nat as Hin.
  { pose proof (f_equal length Heq) as Hl.
    rewrite length_seq, length_app in Hl. simpl in Hl. lia. }
  split; [done|]. intros j Hj.
  apply list_elem_of_lookup. exists j.
  assert (seq 0 n !! j = Some j) as Hs by (apply lookup_seq; lia).
  rewrite Heq, lookup_app_l in Hs by lia. done.
Qed.

(** X1. The position that [find_blank] returns is the first blank in
    reading order: it is inside the grid, the cell there holds 0, and
    every cell before it (in an earlier row, or earlier in the same row)
    exists and holds a value other than 0. *)
Theorem find_blank_first (s : State) (r c : nat) :
  find_blank s = Ok (Some (r, c)) →
  (r < length s)%nat ∧ (c < length s)%nat ∧ cell s r c = Some 0 ∧
  ∀ r' c', (r' < r ∨ (r' = r ∧ c' < c))%nat → (c' < length s)%nat →
           ∃ v, cell s r' c' = Some v ∧ v ≠ 0.
Proof.
  unfold find_blank.
  intros (rs1 & r0 & rs2 & Hrs & Hrow & Hbefore)%for_return_Some.
  apply for_return_Some in Hrow as (cs1 & c0 & cs2 & Hcs & Hcell & Hbefore').
  rewrite find_blank_body_cell in Hcell.
  destruct (cell s r0 c0) as [v|] eqn:Hv; [|done].
  case_bool_decide; simplify_eq.
  destruct (range_split _ _ _ _ Hrs) as [Hr Hrs1].
  destruct (range_split _ _ _ _ Hcs) as [Hc Hcs1].
  split_and!; try done.
  intros r' c' Hlt Hc'.
  assert (find_blank_cell :
    (row ← getitem s r'; v ← getitem row c';
     if bool_decide (v = 0) then Ok (Some (r', c')) else Ok None) = Ok None).
  { destruct Hlt as [Hlt|[-> Hlt]].
    - apply Hrs1 in Hlt. rewrite Forall_forall in Hbefore.
      apply Hbefore in Hlt. rewrite for_return_None, Forall_forall in Hlt.
      apply Hlt. by apply elem_of_range.
    - apply Hcs1 in Hlt. rewrite Forall_forall in Hbefore'.
      by apply Hbefore'. }
  rewrite find_blank_body_cell in find_blank_cell.
  destruct (cell s r' c') as [v|]; [|done].
  exists v. split; [done|]. by case_bool_decide.
Qed.

Definition two_blanks : State := [[1; 2; 3]; [4; 0; 6]; [0; 8; 0]].

Lemma find_blank_first_witness :
  find_blank two_blanks = Ok (Some (1, 1)%nat) ∧
  (1 < length two_blanks)%nat ∧ (1 < length two_blanks)%nat ∧
  cell two_blanks 1 1 = Some 0 ∧
  ∀ r' c', (r' < 1 ∨ (r' = 1 ∧ c' < 1))%nat → (c' < length two_blanks)%nat →
           ∃ v, cell two_blanks r' c' = Some v ∧ v ≠ 0.
Proof.
  assert (find_blank two_blanks = Ok (Some (1, 1)%nat)) as H
    by (vm_compute; reflexivity).
  split; [exact H|]. exact (find_blank_first two_blanks 1 1 H).
Defined.

(** X2. On a square grid [find_blank] never raises: it returns a
    position when the grid holds a 0 and [None] when it holds none.  On
    any grid, the only exception it can raise is [IndexError], and then
    the grid is not square. *)
Theorem find_blank_outcomes (s : State) :
  (∀ n, square n s →
     (0 ∈ mjoin s ∧ ∃ r c, find_blank s = Ok (Some (r, c))) ∨
     ((0 ∉ mjoin s) ∧ find_blank s = Ok None)) ∧
  (∀ e, find_blank s = Raise e → e = IndexError ∧ ¬ square (length s) s).
Proof.
  split.
  - intros n Hsq. destruct (decide (0 ∈ mjoin s)) as [H0|H0].
    + left. split; [done|].
      destruct (find_blank_square n s Hsq H0) as (r & c & ? & _). eauto.
    + right. split; [done|]. by apply (find_blank_no_blank n).
  - intros e He. split.
    + unfold find_blank in He.
      apply for_return_Raise in He as (r & _ & He).
      apply for_return_Raise in He as (c & _ & He).
      rewrite find_blank_body_cell in He.
      destruct (cell s r c); [by case_bool_decide|by simplify_eq].
    + intros Hsq. destruct (decide (0 ∈ mjoin s)) as [H0|H0].
      * destruct (find_blank_square _ s Hsq H0) as (r & c & ? & _). congruence.
      * rewrite (find_blank_no_blank _ s Hsq H0) in He. done.
Qed.

(** ** [expand] *)

(** Two grids with the same number of rows and the same cells are equal. *)
Lemma grid_ext (s1 s2 : State) :
  length s1 = length s2 → (∀ r c, cell s1 r c = cell s2 r c) → s1 = s2.
Proof.
  intros Hlen Hcell. apply list_eq_same_length with (length s1); [done..|].
  intros r row1 row2 Hr H1 H2. apply list_eq. intros c.
  specialize (Hcell r c). unfold cell in Hcell. by rewrite H1, H2 in Hcell.
Qed.

Lemma adjacent_sym p q : adjacent p q → adjacent q p.
Proof. unfold adjacent. lia. Qed.

(** A move can be taken back. *)
Lemma slide_sym s s' : slide s s' → slide s' s.
Proof.
  intros ([r c] & [r' c'] & v & Hp & Hq & Hadj & ->). simpl in *.
  pose proof (adjacent_ne _ _ Hadj) as Hne.
  pose proof (cell_swap s r c r' c' 0 v) as Hcell.
  exists (r', c'), (r, c), v. simpl. split_and!.
  - rewrite Hcell by done. rewrite decide_False by congruence.
    by rewrite decide_True.
  - rewrite Hcell by done. by rewrite decide_True.
  - by apply adjacent_sym.
  - apply grid_ext; [by rewrite !length_setitem2|].
    intros r0 c0. rewrite (cell_swap _ r' c' r c 0 v).
    + repeat case_decide; simplify_eq; try done.
      rewrite Hcell by done. by rewrite !decide_False by congruence.
    + rewrite Hcell by done. rewrite decide_False by congruence.
      by rewrite decide_True.
    + rewrite Hcell by done. by rewrite decide_True.
    + congruence.
Qed.

Lemma find_blank_bounds s r c :
  find_blank s = Ok (Some (r, c)) → (r < length s)%nat ∧ (c < length s)%nat.
Proof.
  unfold find_blank.
  intros (rs1 & r0 & rs2 & Hrs & Hrow & _)%for_return_Some.
  apply for_return_Some in Hrow as (cs1 & c0 & cs2 & Hcs & Hcell & _).
  rewrite find_blank_body_cell in Hcell.
  destruct (cell s r0 c0) as [v|] eqn:Hv; [|done].
  case_bool_decide; simplify_eq.
  split; by eapply range_split.
Qed.

Lemma NoDup_moves : NoDup moves.
Proof. unfold moves. repeat constructor; set_solver. Qed.

Lemma expand_states node goal_state h gp succs br bc :
  expand node goal_state h gp = Ok succs →
  find_blank (state node) = Ok (Some (br, bc)) →
  state <$> succs
  = (λ m, let r' := Z.to_nat (Z.of_nat br + m.1.1) in
          let c' := Z.to_nat (Z.of_nat bc + m.1.2) in
          setitem2 (setitem2 (state node) br bc
                      (default 0 (cell (state node) r' c'))) r' c' 0)
    <$> legal_moves (length (state node)) br bc.
Proof.
  intros (br' & bc' & Hfb & Hall)%expand_Ok Hfb'.
  rewrite Hfb in Hfb'. injection Hfb' as -> ->.
  apply find_blank_Some in Hfb.
  induction Hall as [|m child ms succs Hsucc _ IH]; [done|].
  rewrite !fmap_cons, IH. f_equal.
  apply successor_Ok in Hsucc as (s' & hv & Hswap & _ & ->).
  apply swap_cells_Ok in Hswap as (v1 & v2 & H1 & H2 & ->). simpl.
  rewrite H2. simpl. congruence.
Qed.

(** X3. [expand] returns one node for each neighbour of the blank inside
    the grid: one when the blank has a row above it, one when it has a
    row below, one when it has a column to its left and one when it has a
    column to its right.  (Two nodes in a corner, three on an edge, four
    elsewhere.) *)
Theorem expand_count (node : PuzzleNode) (goal_state : State)
    (h : Heuristic) (gp : GoalPos) (succs : list PuzzleNode) (br bc : nat) :
  expand node goal_state h gp = Ok succs →
  find_blank (state node) = Ok (Some (br, bc)) →
  let n := length (state node) in
  length succs
  = (Nat.b2n (bool_decide (0 < br)%nat) + Nat.b2n (bool_decide (br + 1 < n)%nat)
     + Nat.b2n (bool_decide (0 < bc)%nat)
     + Nat.b2n (bool_decide (bc + 1 < n)%nat))%nat.
Proof.
  intros (br' & bc' & Hfb & Hall)%expand_Ok Hfb' n.
  rewrite Hfb in Hfb'. injection Hfb' as -> ->.
  destruct (find_blank_bounds _ _ _ Hfb) as (Hbr & Hbc).
  rewrite <- (Forall2_length _ _ _ Hall). fold n in Hbr, Hbc |- *.
  unfold legal_moves, moves, in_grid. rewrite !filter_cons, filter_nil. simpl.
  repeat case_bool_decide; simpl; try lia.
Qed.

Lemma expand_count_witness :
  expand sample_root GOAL_STATE_8_PUZZLE NoHeuristic ∅
  = Ok (default [] (match expand sample_root GOAL_STATE_8_PUZZLE NoHeuristic ∅
                    with Ok l => Some l | Raise _ => None end)) ∧
  find_blank (state sample_root) = Ok (Some (1, 2)%nat) ∧
  length (default [] (match expand sample_root GOAL_STATE_8_PUZZLE NoHeuristic ∅
                      with Ok l => Some l | Raise _ => None end))
  = 3%nat.
Proof.
  assert (expand sample_root GOAL_STATE_8_PUZZLE NoHeuristic ∅
    = Ok (default [] (match expand sample_root GOAL_STATE_8_PUZZLE NoHeuristic ∅
                      with Ok l => Some l | Raise _ => None end))) as H1
    by (vm_compute; reflexivity).
  assert (find_blank (state sample_root) = Ok (Some (1, 2)%nat)) as H2
    by (vm_compute; reflexivity).
  split; [exact H1|]. split; [exact H2|].
  exact (expand_count sample_root GOAL_STATE_8_PUZZLE NoHeuristic ∅ _ 1 2 H1 H2).
Defined.

Lemma legal_move_tile n s br bc m :
  valid n s → cell s br bc = Some 0 → m ∈ legal_moves n br bc →
  ∃ v, cell s (Z.to_nat (Z.of_nat br + m.1.1))
              (Z.to_nat (Z.of_nat bc + m.1.2)) = Some v ∧ v ≠ 0 ∧
       (br, bc) ≠ (Z.to_nat (Z.of_nat br + m.1.1),
                   Z.to_nat (Z.of_nat bc + m.1.2)).
Proof.
  intros Hv H0 (Hr & Hc & Hadj)%legal_move_target.
  pose proof (valid_square _ _ Hv) as Hsq.
  destruct (proj2 (cell_is_Some n s _ _ Hsq) (conj Hr Hc)) as [v Hcv].
  apply adjacent_ne in Hadj. exists v. split_and!; [done| |done].
  intros ->. destruct Hadj.
  destruct (cell_inj n s _ _ _ _ 0 Hsq (valid_NoDup _ _ Hv) H0 Hcv) as [<- <-].
  done.
Qed.

Lemma legal_move_same_target n br bc m m' :
  m ∈ legal_moves n br bc → m' ∈ legal_moves n br bc →
  Z.to_nat (Z.of_nat br + m.1.1) = Z.to_nat (Z.of_nat br + m'.1.1) →
  Z.to_nat (Z.of_nat bc + m.1.2) = Z.to_nat (Z.of_nat bc + m'.1.2) →
  m = m'.
Proof.
  intros (Hm & ? & ?)%elem_of_legal_moves (Hm' & ? & ?)%elem_of_legal_moves.
  apply elem_of_moves in Hm, Hm'.
  destruct Hm as [-> | [-> | [-> | ->]]], Hm' as [-> | [-> | [-> | ->]]];
    simpl in *; intros; try done; lia.
Qed.

(** X4. The nodes that [expand] returns for a node holding a
    Configuration carry pairwise different states, and none of them
    carries the state of the node itself. *)
Theorem expand_states_distinct (n : nat) (node : PuzzleNode)
    (goal_state : State) (h : Heuristic) (gp : GoalPos)
    (succs : list PuzzleNode) :
  valid n (state node) →
  expand node goal_state h gp = Ok succs →
  NoDup (state <$> succs) ∧ ∀ child, child ∈ succs → state child ≠ state node.
Proof.
  intros Hv Hexpand. pose proof Hexpand as (br & bc & Hfb & _)%expand_Ok.
  pose proof (expand_states _ _ _ _ _ br bc Hexpand Hfb) as Hstates.
  assert (length (state node) = n) as Hlen by apply Hv.
  rewrite Hlen in Hstates. rewrite Hstates.
  apply find_blank_Some in Hfb as H0.
  set (F := λ m : Z * Z * string, _) in *.
  assert (∀ m, m ∈ legal_moves n br bc →
    ∃ v, v ≠ 0 ∧ ∀ r c, cell (F m) r c
      = if decide ((r, c) = (br, bc)) then Some v
        else if decide ((r, c) = (Z.to_nat (Z.of_nat br + m.1.1),
                                  Z.to_nat (Z.of_nat bc + m.1.2)))
             then Some 0 else cell (state node) r c) as HF.
  { intros m Hm.
    destruct (legal_move_tile n _ br bc m Hv H0 Hm) as (v & Hcv & Hv0 & Hne).
    exists v. split; [done|]. intros r c. unfold F. simpl. rewrite Hcv. simpl.
    by apply cell_swap. }
  split.
  - apply NoDup_fmap_2_strong; [|apply NoDup_filter, NoDup_moves].
    intros m m' Hm Hm' Heq.
    destruct (HF m Hm) as (v & Hv0 & Hcell).
    destruct (HF m' Hm') as (v' & Hv0' & Hcell').
    destruct (legal_move_tile n _ br bc m Hv H0 Hm) as (w & Hcw & Hw0 & Hne).
    specialize (Hcell (Z.to_nat (Z.of_nat br + m.1.1))
                      (Z.to_nat (Z.of_nat bc + m.1.2))).
    specialize (Hcell' (Z.to_nat (Z.of_nat br + m.1.1))
                       (Z.to_nat (Z.of_nat bc + m.1.2))).
    rewrite Heq in Hcell. rewrite Hcell in Hcell'. clear Hcell.
    repeat case_decide; try congruence.
    match goal with H : (_, _) = (_, _) |- _ => injection H as ?? end.
    by apply (legal_move_same_target n br bc).
  - intros child Hchild. apply (list_elem_of_fmap_2 state) in Hchild.
    rewrite Hstates in Hchild.
    apply list_elem_of_fmap in Hchild as (m & -> & Hm).
    destruct (HF m Hm) as (v & Hv0 & Hcell). intros Heq.
    specialize (Hcell br bc). rewrite Heq, decide_True in Hcell by done.
    congruence.
Qed.

Lemma expand_states_distinct_witness :
  let succs := default [] (match expand sample_root GOAL_STATE_8_PUZZLE
                                   NoHeuristic ∅
                           with Ok l => Some l | Raise _ => None end) in
  valid 3 (state sample_root) ∧
  expand sample_root GOAL_STATE_8_PUZZLE NoHeuristic ∅ = Ok succs ∧
  NoDup (state <$> succs) ∧
  ∀ child, child ∈ succs → state child ≠ state sample_root.
Proof.
  intros succs.
  assert (valid 3 (state sample_root)) as H1
    by (apply (bool_decide_unpack _); vm_compute; exact I).
  assert (expand sample_root GOAL_STATE_8_PUZZLE NoHeuristic ∅ = Ok succs)
    as H2 by (vm_compute; reflexivity).
  split; [exact H1|]. split; [exact H2|].
  exact (expand_states_distinct 3 sample_root GOAL_STATE_8_PUZZLE NoHeuristic
           ∅ succs H1 H2).
Defined.

(** X5. Moves can be taken back: when [expand] of a node holding a
    Configuration returns a child, [expand] of that child returns a node
    that carries the state of the first node again. *)
Theorem expand_child_leads_back (n : nat) (node child : PuzzleNode)
    (goal_state : State) (h : Heuristic) (gp : GoalPos)
    (succs : list PuzzleNode) :
  valid n (state node) → valid n goal_state → gp_ready h gp n goal_state →
  expand node goal_state h gp = Ok succs → child ∈ succs →
  ∃ succs' back,
    expand child goal_state h gp = Ok succs' ∧ back ∈ succs' ∧
    state back = state node ∧ parent back = Some child ∧
    g_cost back = g_cost node + 2.
Proof.
  intros Hv Hgoal Hgp Hexpand Hchild.
  destruct (expand_sound _ _ _ _ _ _ Hexpand Hchild) as (Hslide & _ & Hg & _).
  assert (valid n (state child)) as Hvc
    by (eapply slide_valid; [exact Hv|exact Hslide]).
  assert (0 < n)%nat as Hn.
  { destruct n; [|lia]. apply valid_0_nil in Hv.
    apply expand_Ok in Hexpand as (br & bc & Hfb & _).
    rewrite Hv in Hfb. done. }
  destruct (expand_complete n child goal_state h gp Hvc Hn)
    as (succs' & Hexpand' & Hall).
  { intros. eexists. by apply heuristic_call_valid. }
  destruct (Hall (state node)) as (back & Hback & Hstate);
    [by apply slide_sym|].
  exists succs', back. split_and!; try done.
  - by destruct (expand_sound _ _ _ _ _ _ Hexpand' Hback) as (_ & ? & _).
  - destruct (expand_sound _ _ _ _ _ _ Hexpand' Hback) as (_ & _ & -> & _).
    lia.
Qed.

Lemma expand_child_leads_back_witness :
  let succs := default [] (match expand sample_root GOAL_STATE_8_PUZZLE
                                   NoHeuristic ∅
                           with Ok l => Some l | Raise _ => None end) in
  let child := default sample_root (head succs) in
  valid 3 (state sample_root) ∧ valid 3 GOAL_STATE_8_PUZZLE ∧
  gp_ready NoHeuristic ∅ 3 GOAL_STATE_8_PUZZLE ∧
  expand sample_root GOAL_STATE_8_PUZZLE NoHeuristic ∅ = Ok succs ∧
  child ∈ succs ∧
  ∃ succs' back,
    expand child GOAL_STATE_8_PUZZLE NoHeuristic ∅ = Ok succs' ∧
    back ∈ succs' ∧ state back = state sample_root ∧
    parent back = Some child ∧ g_cost back = g_cost sample_root + 2.
Proof.
  intros succs child.
  assert (valid 3 (state sample_root)) as H1
    by (apply (bool_decide_unpack _); vm_compute; exact I).
  assert (valid 3 GOAL_STATE_8_PUZZLE) as H2
    by (apply (bool_decide_unpack _); vm_compute; exact I).
  assert (gp_ready NoHeuristic ∅ 3 GOAL_STATE_8_PUZZLE) as H3
    by (intros Hh; discriminate Hh).
  assert (expand sample_root GOAL_STATE_8_PUZZLE NoHeuristic ∅ = Ok succs)
    as H4 by (vm_compute; reflexivity).
  assert (child ∈ succs) as H5
    by (apply list_elem_of_lookup; exists 0%nat; vm_compute; reflexivity).
  split; [exact H1|]. split; [exact H2|]. split; [exact H3|].
  split; [exact H4|]. split; [exact H5|].
  exact (expand_child_leads_back 3 sample_root child GOAL_STATE_8_PUZZLE
           NoHeuristic ∅ succs H1 H2 H3 H4 H5).
Defined.

(** ** The heuristics *)

Lemma Zsum_nonneg l : Forall (λ x, 0 ≤ x) l → 0 ≤ Zsum l.
Proof. induction 1; rewrite ?Zsum_cons; [done|lia]. Qed.

Lemma Zsum_zero l : Forall (λ x, 0 ≤ x) l → Zsum l = 0 → Forall (λ x, x = 0) l.
Proof.
  induction 1 as [|x l Hx Hl IH]; [done|]. rewrite Zsum_cons. intros Hsum.
  pose proof (Zsum_nonneg l Hl). constructor; [lia|]. apply IH. lia.
Qed.

Lemma Zsum_le {X} (f g : X → Z) (xs : list X) :
  (∀ x, x ∈ xs → f x ≤ g x) → Zsum (f <$> xs) ≤ Zsum (g <$> xs).
Proof.
  induction xs as [|x xs IH]; intros Hfg; [done|].
  rewrite !fmap_cons, !Zsum_cons.
  assert (f x ≤ g x) by (apply Hfg; by left).
  assert (Zsum (f <$> xs) ≤ Zsum (g <$> xs)); [|lia].
  apply IH. intros. apply Hfg. by right.
Qed.

Lemma misplaced_weight_range goal_state r c v :
  0 ≤ misplaced_weight goal_state r c v ≤ 1.
Proof. unfold misplaced_weight. case_match; lia. Qed.

Lemma manhattan_weight_nonneg gp r c v : 0 ≤ manhattan_weight gp r c v.
Proof.
  unfold manhattan_weight. case_bool_decide; [|done].
  destruct (gp !! v) as [[??]|]; lia.
Qed.

Lemma hval_nonneg h gp goal_state n s : 0 ≤ hval h gp goal_state n s.
Proof.
  destruct h; simpl; [done| |]; apply Zsum_nonneg, Forall_fmap, Forall_forall;
    intros [r c] _; simpl.
  - apply misplaced_weight_range.
  - apply manhattan_weight_nonneg.
Qed.

(** X6. The three heuristics are consistent: on Configurations, with the
    dictionary of the goal installed, each returns a number that is not
    negative, and one move of the puzzle changes that number by at most
    one. *)
Theorem heuristic_consistent (n : nat) (h : Heuristic) (gp : GoalPos)
    (goal_state s s' : State) :
  valid n goal_state → gp_ready h gp n goal_state →
  valid n s → slide s s' →
  ∃ v v',
    heuristic_call h gp s goal_state = Ok v ∧
    heuristic_call h gp s' goal_state = Ok v' ∧
    0 ≤ v ∧ 0 ≤ v' ∧ Z.abs (v - v') ≤ 1.
Proof.
  intros Hg Hgp Hs Hslide.
  assert (valid n s') as Hs' by by eapply slide_valid.
  exists (hval h gp goal_state n s), (hval h gp goal_state n s').
  split_and!; try (by apply heuristic_call_valid); try apply hval_nonneg.
  pose proof (hval_slide h gp n goal_state s s' Hs Hslide).
  pose proof (hval_slide h gp n goal_state s' s Hs' (slide_sym _ _ Hslide)).
  lia.
Qed.

Lemma heuristic_consistent_witness :
  valid 3 GOAL_STATE_8_PUZZLE ∧
  gp_ready ManhattanDistance (goal_positions 3 GOAL_STATE_8_PUZZLE) 3
    GOAL_STATE_8_PUZZLE ∧
  valid 3 sample_state ∧ slide sample_state GOAL_STATE_8_PUZZLE ∧
  ∃ v v',
    heuristic_call ManhattanDistance (goal_positions 3 GOAL_STATE_8_PUZZLE)
      sample_state GOAL_STATE_8_PUZZLE = Ok v ∧
    heuristic_call ManhattanDistance (goal_positions 3 GOAL_STATE_8_PUZZLE)
      GOAL_STATE_8_PUZZLE GOAL_STATE_8_PUZZLE = Ok v' ∧
    0 ≤ v ∧ 0 ≤ v' ∧ Z.abs (v - v') ≤ 1.
Proof.
  assert (valid 3 GOAL_STATE_8_PUZZLE) as H1
    by (apply (bool_decide_unpack _); vm_compute; exact I).
  assert (gp_ready ManhattanDistance (goal_positions 3 GOAL_STATE_8_PUZZLE) 3
            GOAL_STATE_8_PUZZLE) as H2 by (intros _; reflexivity).
  assert (valid 3 sample_state) as H3
    by (apply (bool_decide_unpack _); vm_compute; exact I).
  assert (slide sample_state GOAL_STATE_8_PUZZLE) as H4.
  { destruct sample_moves as (_ & _ & Hpath). by apply (Hpath 0%nat). }
  split; [exact H1|]. split; [exact H2|]. split; [exact H3|].
  split; [exact H4|].
  exact (heuristic_consistent 3 ManhattanDistance _ GOAL_STATE_8_PUZZLE
           sample_state GOAL_STATE_8_PUZZLE H1 H2 H3 H4).
Defined.

(** X7. The three heuristics are admissible: on a Configuration, with the
    dictionary of the goal installed, the number returned is not larger
    than the number of moves of any sequence of moves that leads from
    the state to the goal. *)
Theorem heuristic_admissible (n : nat) (h : Heuristic) (gp : GoalPos)
    (goal_state s : State) (path : list State) :
  valid n goal_state → gp_ready h gp n goal_state →
  valid n s → moves_from_to s goal_state path →
  ∃ v, heuristic_call h gp s goal_state = Ok v ∧
       0 ≤ v ∧ v + 1 ≤ Z.of_nat (length path).
Proof.
  intros Hg Hgp Hs (Hhead & Hlast & Hpath).
  exists (hval h gp goal_state n s).
  split_and!; [by apply heuristic_call_valid|apply hval_nonneg|].
  pose proof Hlast as Hlast'. apply last_Some in Hlast' as [l' Hl'].
  assert (path !! length l' = Some goal_state) as Hk
    by (rewrite Hl'; by apply list_lookup_middle).
  assert (path !! 0%nat = Some s) as H0 by by rewrite <- head_lookup.
  pose proof (hval_path n s goal_state h gp Hs path Hhead Hpath 0 (length l')
                s goal_state) as Hle.
  rewrite (hval_goal h gp n goal_state) in Hle by done.
  rewrite Hl', length_app. simpl. lia.
Qed.

Lemma heuristic_admissible_witness :
  valid 3 GOAL_STATE_8_PUZZLE ∧
  gp_ready MisplacedTile ∅ 3 GOAL_STATE_8_PUZZLE ∧
  valid 3 sample_state ∧
  moves_from_to sample_state GOAL_STATE_8_PUZZLE
    [sample_state; GOAL_STATE_8_PUZZLE] ∧
  ∃ v, heuristic_call MisplacedTile ∅ sample_state GOAL_STATE_8_PUZZLE = Ok v ∧
       0 ≤ v ∧ v + 1 ≤ Z.of_nat (length [sample_state; GOAL_STATE_8_PUZZLE]).
Proof.
  assert (valid 3 GOAL_STATE_8_PUZZLE) as H1
    by (apply (bool_decide_unpack _); vm_compute; exact I).
  assert (gp_ready MisplacedTile ∅ 3 GOAL_STATE_8_PUZZLE) as H2
    by (intros Hh; discriminate Hh).
  assert (valid 3 sample_state) as H3
    by (apply (bool_decide_unpack _); vm_compute; exact I).
  split; [exact H1|]. split; [exact H2|]. split; [exact H3|].
  split; [exact sample_moves|].
  exact (heuristic_admissible 3 MisplacedTile ∅ GOAL_STATE_8_PUZZLE
           sample_state _ H1 H2 H3 sample_moves).
Defined.

(** X8. On Configurations, with the dictionary of the goal installed, the
    Manhattan distance is never smaller than the misplaced-tile count:
    both heuristics return a number, and the first is at most the
    second. *)
Theorem misplaced_le_manhattan (n : nat) (s goal_state : State) :
  valid n s → valid n goal_state →
  ∃ v w,
    misplaced_tile_heuristic s goal_state = Ok v ∧
    manhattan_distance_heuristic s goal_state (goal_positions n goal_state)
    = Ok w ∧
    0 ≤ v ∧ v ≤ w.
Proof.
  intros Hs Hg.
  pose proof (valid_square _ _ Hs) as Hsq.
  exists (hval MisplacedTile ∅ goal_state n s),
         (hval ManhattanDistance (goal_positions n goal_state) goal_state n s).
  split_and!.
  - by apply (heuristic_call_valid MisplacedTile ∅ n).
  - by apply (heuristic_call_valid ManhattanDistance _ n).
  - apply hval_nonneg.
  - simpl. unfold cellsum. apply Zsum_le.
    intros [r c] Hin%elem_of_cells. simpl.
    destruct (proj2 (cell_is_Some n s r c Hsq) Hin) as [v Hv].
    rewrite Hv. simpl. unfold misplaced_weight.
    pose proof (manhattan_weight_nonneg (goal_positions n goal_state) r c v).
    destruct (decide (v = 0)) as [->|Hv0].
    { by rewrite (bool_decide_eq_false_2 (0 ≠ 0)) by tauto. }
    rewrite (bool_decide_eq_true_2 (v ≠ 0)) by done. simpl.
    case_bool_decide as Hmis; [|done].
    unfold manhattan_weight. rewrite (bool_decide_eq_true_2 (v ≠ 0)) by done.
    assert (v ∈ mjoin goal_state) as (gr & gc & Hgv)%elem_of_join_cell.
    { apply (valid_same_values n s); [done..|]. apply elem_of_join_cell. eauto. }
    rewrite (proj2 (goal_positions_lookup n goal_state v gr gc Hg) Hgv).
    assert ((gr, gc) ≠ (r, c)) by congruence.
    assert (gr ≠ r ∨ gc ≠ c) by (destruct (decide (gr = r)); [right|left]; congruence).
    lia.
Qed.

Lemma misplaced_le_manhattan_witness :
  valid 3 default_puzzle ∧ valid 3 GOAL_STATE_8_PUZZLE ∧
  ∃ v w,
    misplaced_tile_heuristic default_puzzle GOAL_STATE_8_PUZZLE = Ok v ∧
    manhattan_distance_heuristic default_puzzle GOAL_STATE_8_PUZZLE
      (goal_positions 3 GOAL_STATE_8_PUZZLE) = Ok w ∧
    0 ≤ v ∧ v ≤ w.
Proof.
  assert (valid 3 default_puzzle) as H1
    by (apply (bool_decide_unpack _); vm_compute; exact I).
  assert (valid 3 GOAL_STATE_8_PUZZLE) as H2
    by (apply (bool_decide_unpack _); vm_compute; exact I).
  split; [exact H1|]. split; [exact H2|].
  exact (misplaced_le_manhattan 3 default_puzzle GOAL_STATE_8_PUZZLE H1 H2).
Defined.

(** Two Configurations that agree on every tile agree on the blank too. *)
Lemma valid_agree_tiles n s goal_state :
  valid n s → valid n goal_state →
  (∀ r c v, cell s r c = Some v → v ≠ 0 → cell goal_state r c = Some v) →
  s = goal_state.
Proof.
  intros Hs Hg Hagree.
  pose proof (valid_square _ _ Hs) as Hsq.
  pose proof (valid_square _ _ Hg) as Hgsq.
  apply grid_ext; [destruct Hsq, Hgsq; congruence|].
  intros r c. destruct (cell s r c) as [v|] eqn:Hv.
  - destruct (decide (v = 0)) as [->|Hv0]; [|symmetry; by apply Hagree].
    destruct (cell_Some_lt _ _ _ _ _ Hsq Hv) as [Hr Hc].
    destruct (proj2 (cell_is_Some n goal_state r c Hgsq) (conj Hr Hc))
      as [w Hw].
    destruct (decide (w = 0)) as [->|Hw0]; [done|].
    assert (w ∈ mjoin s) as (r' & c' & Hw')%elem_of_join_cell.
    { apply (valid_same_values n goal_state); [done..|].
      apply elem_of_join_cell. eauto. }
    pose proof (Hagree _ _ _ Hw' Hw0) as Hw''.
    destruct (cell_inj n goal_state r c r' c' w) as [<- <-];
      eauto using valid_NoDup. congruence.
  - symmetry. apply eq_None_not_Some. intros Hsome.
    apply (cell_is_Some n _ _ _ Hgsq) in Hsome.
    apply (cell_is_Some n _ _ _ Hsq) in Hsome. rewrite Hv in Hsome.
    by destruct Hsome.
Qed.

(** X9. On Configurations, with the dictionary of the goal installed, the
    misplaced-tile count and the Manhattan distance are zero at the goal
    and nowhere else. *)
Theorem heuristic_zero_iff_goal (n : nat) (h : Heuristic) (gp : GoalPos)
    (s goal_state : State) :
  h ≠ NoHeuristic →
  valid n s → valid n goal_state → gp_ready h gp n goal_state →
  heuristic_call h gp s goal_state = Ok 0 ↔ s = goal_state.
Proof.
  intros Hh Hs Hg Hgp. pose proof (valid_square _ _ Hs) as Hsq.
  rewrite (heuristic_call_valid h gp n) by done. split.
  2:{ intros ->. f_equal. by apply hval_goal. }
  intros [= Hzero]. apply (valid_agree_tiles n); [done..|].
  intros r c v Hv Hv0.
  assert ((r, c) ∈ cells n) as Hin
    by (apply elem_of_cells; by eapply cell_Some_lt).
  destruct h; [done| |]; simpl in Hzero; unfold cellsum in Hzero;
    apply Zsum_zero in Hzero.
  - rewrite Forall_fmap, Forall_forall in Hzero.
    specialize (Hzero _ Hin). simpl in Hzero. rewrite Hv in Hzero.
    simpl in Hzero. unfold misplaced_weight in Hzero.
    rewrite bool_decide_eq_true_2 in Hzero by done. simpl in Hzero.
    destruct (decide (cell goal_state r c = Some v)) as [|Hne]; [done|].
    by rewrite bool_decide_eq_true_2 in Hzero by done.
  - apply Forall_fmap, Forall_forall. intros [??] _. simpl.
    apply misplaced_weight_range.
  - rewrite Forall_fmap, Forall_forall in Hzero.
    specialize (Hzero _ Hin). simpl in Hzero. rewrite Hv in Hzero.
    simpl in Hzero. unfold manhattan_weight in Hzero.
    rewrite bool_decide_eq_true_2 in Hzero by done.
    assert (v ∈ mjoin goal_state) as (gr & gc & Hgv)%elem_of_join_cell.
    { apply (valid_same_values n s); [done..|]. apply elem_of_join_cell. eauto. }
    rewrite Hgp in Hzero by done.
    rewrite (proj2 (goal_positions_lookup n goal_state v gr gc Hg) Hgv) in Hzero.
    assert (r = gr ∧ c = gc) as [-> ->] by lia. done.
  - apply Forall_fmap, Forall_forall. intros [??] _. simpl.
    apply manhattan_weight_nonneg.
Qed.

Lemma heuristic_zero_iff_goal_witness :
  MisplacedTile ≠ NoHeuristic ∧
  valid 3 sample_state ∧ valid 3 GOAL_STATE_8_PUZZLE ∧
  gp_ready MisplacedTile ∅ 3 GOAL_STATE_8_PUZZLE ∧
  (heuristic_call MisplacedTile ∅ sample_state GOAL_STATE_8_PUZZLE = Ok 0
   ↔ sample_state = GOAL_STATE_8_PUZZLE).
Proof.
  assert (MisplacedTile ≠ NoHeuristic) as H0 by discriminate.
  assert (valid 3 sample_state) as H1
    by (apply (bool_decide_unpack _); vm_compute; exact I).
  assert (valid 3 GOAL_STATE_8_PUZZLE) as H2
    by (apply (bool_decide_unpack _); vm_compute; exact I).
  assert (gp_ready MisplacedTile ∅ 3 GOAL_STATE_8_PUZZLE) as H3
    by (intros Hh; discriminate Hh).
  split; [exact H0|]. split; [exact H1|]. split; [exact H2|].
  split; [exact H3|].
  exact (heuristic_zero_iff_goal 3 MisplacedTile ∅ sample_state
           GOAL_STATE_8_PUZZLE H0 H1 H2 H3).
Defined.

Lemma for_acc_Raise {X S} (xs : list X) (body : X → S → result S) acc e :
  (∀ i a, i ∈ xs → (∃ a', body i a = Ok a') ∨ body i a = Raise e) →
  (∃ i, i ∈ xs ∧ ∀ a, body i a = Raise e) →
  for_acc xs body acc = Raise e.
Proof.
  revert acc. induction xs as [|i xs IH]; intros acc Hall (j & Hj & Hraise).
  { by apply elem_of_nil in Hj. }
  simpl. destruct (Hall i acc) as [[a' Ha']| ->]; [by left| |done].
  rewrite Ha'. simpl. apply IH.
  - intros. apply Hall. by right.
  - apply elem_of_cons in Hj as [->|Hj]; [|eauto].
    rewrite Hraise in Ha'. done.
Qed.

Lemma manhattan_KeyError n s goal_state gp r c v :
  square n s → length goal_state = n →
  cell s r c = Some v → v ≠ 0 → gp !! v = None →
  manhattan_distance_heuristic s goal_state gp = Raise KeyError.
Proof.
  intros Hsq Hlen Hv Hv0 Hgp. unfold manhattan_distance_heuristic.
  rewrite for_acc_nested, Hlen. fold (cells n). apply for_acc_Raise.
  - intros [r' c'] a Hin%elem_of_cells. simpl.
    destruct (proj2 (cell_is_Some n s r' c' Hsq) Hin) as [w Hw].
    rewrite (getitem2_cell _ _ _ _ _ Hw).
    case_bool_decide; [|by left; eexists].
    destruct (gp !! w) as [[??]|]; [left; by eexists|by right].
  - exists (r, c). split; [apply elem_of_cells; by eapply cell_Some_lt|].
    intros a. simpl. rewrite (getitem2_cell _ _ _ _ _ Hv).
    by rewrite bool_decide_eq_true_2, Hgp by done.
Qed.

(** X10. A tile without an entry in the dictionary makes
    [manhattan_distance_heuristic] raise [KeyError]: on a square grid
    that holds a value other than 0 for which [goal_pos] has no entry
    (for one, when [precompute_goal_pos] was never called and the
    dictionary is empty), no number is returned. *)
Theorem manhattan_missing_key (n : nat) (s goal_state : State)
    (gp : GoalPos) (r c : nat) (v : Z) :
  square n s → length goal_state = n →
  cell s r c = Some v → v ≠ 0 → gp !! v = None →
  manhattan_distance_heuristic s goal_state gp = Raise KeyError.
Proof. apply manhattan_KeyError. Qed.

Lemma manhattan_missing_key_witness :
  square 3 sample_state ∧ length GOAL_STATE_8_PUZZLE = 3%nat ∧
  cell sample_state 0 0 = Some 1 ∧ 1 ≠ 0 ∧ (∅ : GoalPos) !! 1 = None ∧
  manhattan_distance_heuristic sample_state GOAL_STATE_8_PUZZLE ∅
  = Raise KeyError.
Proof.
  assert (square 3 sample_state) as H1
    by (apply (bool_decide_unpack _); vm_compute; exact I).
  assert (length GOAL_STATE_8_PUZZLE = 3%nat) as H2 by reflexivity.
  assert (cell sample_state 0 0 = Some 1) as H3 by reflexivity.
  assert (1 ≠ 0) as H4 by lia.
  assert ((∅ : GoalPos) !! 1 = None) as H5 by reflexivity.
  split; [exact H1|]. split; [exact H2|]. split; [exact H3|].
  split; [exact H4|]. split; [exact H5|].
  exact (manhattan_missing_key 3 sample_state GOAL_STATE_8_PUZZLE ∅ 0 0 1
           H1 H2 H3 H4 H5).
Defined.

(** ** The dictionary [goal_pos] *)

(** X11. What [general_search] returns never depends on what the global
    dictionary held when it was called.  With the zero heuristic or the
    misplaced-tile count the dictionary is neither read nor written and
    comes out as it went in; with the Manhattan distance it is rebuilt
    from the goal, so that nothing of its old content is left. *)
Theorem search_and_goal_pos (rounds : nat)
    (initial_state goal_state : State) (h : Heuristic) (gp0 gp1 : GoalPos) :
  (general_search rounds initial_state goal_state h gp0).1
  = (general_search rounds initial_state goal_state h gp1).1 ∧
  (h ≠ ManhattanDistance →
   (general_search rounds initial_state goal_state h gp0).2 = gp0) ∧
  (h = ManhattanDistance →
   (general_search rounds initial_state goal_state h gp0).2
   = (general_search rounds initial_state goal_state h gp1).2).
Proof.
  destruct (decide (h = ManhattanDistance)) as [->|Hh].
  { split; [done|]. split; [done|]. done. }
  split; [|split; [|done]].
  - rewrite !general_search_unfold. unfold install_goal_pos.
    rewrite !bool_decide_eq_false_2 by done.
    assert (∀ st, search_loop rounds goal_state h gp0 st
                  = search_loop rounds goal_state h gp1 st) as Hloop.
    { induction rounds as [|k IH]; intros st; [done|].
      simpl. assert (search_round goal_state h gp0 st
                     = search_round goal_state h gp1 st) as ->
        by (by destruct h).
      destruct (search_round goal_state h gp1 st) as [[st'|]|]; auto. }
    assert (search_init initial_state goal_state h gp0
            = search_init initial_state goal_state h gp1) as ->
      by (by destruct h).
    destruct (search_init initial_state goal_state h gp1); simpl; [|done].
    by rewrite Hloop.
  - intros _. rewrite general_search_unfold. unfold install_goal_pos.
    rewrite bool_decide_eq_false_2 by done.
    by destruct (search_init initial_state goal_state h gp0).
Qed.

(** X12. On a square goal grid, whatever values it holds and whatever the
    dictionary held before, [precompute_goal_pos] succeeds and leaves a
    dictionary whose keys are exactly the values of the grid, each key
    mapped to a cell that holds it; nothing of the old dictionary is
    kept. *)
Theorem precompute_goal_pos_keys (n : nat) (goal_state : State)
    (gp0 : GoalPos) :
  square n goal_state →
  ∃ gp,
    precompute_goal_pos goal_state gp0 = (Ok (), gp) ∧
    (∀ v, is_Some (gp !! v) ↔ v ∈ mjoin goal_state) ∧
    (∀ v r c, gp !! v = Some (r, c) → cell goal_state r c = Some v).
Proof.
  intros Hsq. exists (goal_positions n goal_state).
  split; [by apply precompute_goal_pos_square|].
  assert (∀ v r c, goal_positions n goal_state !! v = Some (r, c) →
                   cell goal_state r c = Some v) as Hsound.
  { intros v r c [Hk|[Hin Hkey]]%foldl_insert_Some; [done|].
    apply elem_of_cells in Hin.
    destruct (proj2 (cell_is_Some n goal_state r c Hsq) Hin) as [w Hw].
    simpl in Hkey. rewrite Hw in Hkey. simpl in Hkey. by subst. }
  split; [|done]. intros v. split.
  - intros [[r c] Hrc]. apply elem_of_join_cell. eauto.
  - intros (r & c & Hc)%elem_of_join_cell.
    by eapply goal_positions_is_Some.
Qed.

Definition repeated_goal : State := [[1; 1; 2]; [2; 0; 0]; [1; 2; 0]].

Lemma precompute_goal_pos_keys_witness :
  square 3 repeated_goal ∧
  ∃ gp,
    precompute_goal_pos repeated_goal (goal_positions 3 GOAL_STATE_8_PUZZLE)
    = (Ok (), gp) ∧
    (∀ v, is_Some (gp !! v) ↔ v ∈ mjoin repeated_goal) ∧
    (∀ v r c, gp !! v = Some (r, c) → cell repeated_goal r c = Some v).
Proof.
  assert (square 3 repeated_goal) as H
    by (apply (bool_decide_unpack _); vm_compute; exact I).
  split; [exact H|].
  exact (precompute_goal_pos_keys 3 repeated_goal
           (goal_positions 3 GOAL_STATE_8_PUZZLE) H).
Defined.

(** ** The search loop *)

Lemma reached_invariant initial_state goal_state h gp
    (P : SearchState → Prop) :
  (∀ st0, search_init initial_state goal_state h gp = Ok st0 → P st0) →
  (∀ st st', reached initial_state goal_state h gp st → P st →
             round_step goal_state h gp st st' → P st') →
  ∀ st, reached initial_state goal_state h gp st → P st.
Proof.
  intros H0 Hstep st (gp0 & st0 & Hinst & Hinit & Hrtc).
  revert st Hrtc. apply rtc_ind_r; [by apply H0|].
  intros st1 st2 Hrtc Hlast IH.
  apply (Hstep st1); [by exists gp0, st0|done|done].
Qed.

Lemma reached_step initial_state goal_state h gp st st' :
  reached initial_state goal_state h gp st →
  round_step goal_state h gp st st' →
  reached initial_state goal_state h gp st'.
Proof.
  intros (gp0 & st0 & Hinst & Hinit & Hrtc) Hstep.
  exists gp0, st0. split_and!; [done|done|]. by eapply rtc_r.
Qed.

Lemma reached_gp_ready n initial_state goal_state h gp st :
  valid n goal_state → reached initial_state goal_state h gp st →
  gp_ready h gp n goal_state.
Proof.
  intros Hgoal (gp0 & _ & Hinst & _).
  destruct (install_goal_pos_square n h goal_state gp0) as (gp' & Hinst' & Hgp);
    [by apply valid_square|].
  rewrite Hinst in Hinst'. by simplify_eq.
Qed.

Lemma search_measure_decreases n initial_state goal_state h gp st st' :
  valid n initial_state →
  basic_inv initial_state st → round_step goal_state h gp st st' →
  (search_measure n st' < search_measure n st)%nat.
Proof.
  intros Hinit Hbasic Hstep.
  pose proof (basic_inv_step _ _ _ _ _ _ Hbasic Hstep) as Hbasic'.
  pose proof (explored_size n initial_state Hinit _ Hbasic') as Hsize.
  destruct Hbasic as [Hheap _ _].
  apply search_round_Continue in Hstep
    as (node & rest & _ & Hperm & Hrest & _ & _ & Hcases); [|done].
  unfold search_measure. rewrite Hperm.
  destruct Hcases as [[_ ->]|[Hnot (succs & Hexpand & ->)]]; simpl in *.
  - lia.
  - destruct (push_successors_spec ({[state node]} ∪ explored st) succs rest Hrest)
      as [_ Hperm'].
    rewrite Hperm', length_app.
    pose proof (length_filter (λ c, state c ∉ {[state node]} ∪ explored st) succs).
    pose proof (expand_length _ _ _ _ _ Hexpand).
    rewrite size_union in * by set_solver. rewrite size_singleton in *. lia.
Qed.

(** On valid grids no round raises. *)
Lemma search_round_valid n initial_state goal_state h gp st :
  valid n initial_state → valid n goal_state → gp_ready h gp n goal_state →
  basic_inv initial_state st →
  ∃ r, search_round goal_state h gp st = Ok r.
Proof.
  intros Hinit Hgoal Hgp [Hheap Htree Hexp]. unfold search_round.
  destruct (frontier st) as [|n0 fr] eqn:Hfr; [by eexists|].
  destruct (frontier_heappop (n0 :: fr) Hheap)
    as (node & rest & Hpop & Hrest & Hperm & Hmin); [done|].
  rewrite Hpop, Ok_bind. unfold goal_test, state_to_tuple.
  case_bool_decide as Hg; [by eexists|].
  case_bool_decide; [by eexists|].
  assert (valid n (state node)) as Hvn.
  { eapply reachable_valid; [exact Hinit|].
    apply tree_node_reachable, Htree. rewrite Hperm. by left. }
  assert (0 < n)%nat as Hn.
  { destruct n; [|lia]. apply valid_0_nil in Hvn, Hgoal. congruence. }
  destruct (expand_complete n node goal_state h gp Hvn Hn)
    as (succs & -> & _).
  { intros. eexists. by apply heuristic_call_valid. }
  rewrite Ok_bind. by eexists.
Qed.

Lemma search_loop_terminates n initial_state goal_state h gp rounds st :
  valid n initial_state → valid n goal_state → gp_ready h gp n goal_state →
  basic_inv initial_state st → (search_measure n st < rounds)%nat →
  ∃ res, search_loop rounds goal_state h gp st = Some (Ok res).
Proof.
  intros Hinit Hgoal Hgp. revert st.
  induction rounds as [|rounds IH]; intros st Hbasic Hlt; [lia|].
  simpl.
  destruct (search_round_valid n initial_state goal_state h gp st)
    as [[st'|res] Hr]; try done; rewrite Hr; [|by eexists].
  apply IH; [by eapply basic_inv_step|].
  pose proof (search_measure_decreases n _ _ _ _ _ _ Hinit Hbasic Hr). lia.
Qed.

(** X13. On valid grids [general_search] always comes to an end, without
    an exception, after at most [4 * (n*n)! + 1] rounds of its loop; and
    it returns [None] as the node ("Search failed") exactly when no
    sequence of moves leads from the initial state to the goal. *)
Theorem general_search_terminates (n : nat)
    (initial_state goal_state : State) (h : Heuristic) (gp0 : GoalPos) :
  valid n initial_state → valid n goal_state →
  ∃ res gp,
    (∀ rounds, (4 * configurations n + 2 ≤ rounds)%nat →
       general_search rounds initial_state goal_state h gp0
       = (Some (Ok res), gp)) ∧
    (res.1.1 = None ↔
     ¬ ∃ path, moves_from_to initial_state goal_state path).
Proof.
  intros Hinit Hgoal.
  destruct (install_goal_pos_square n h goal_state gp0) as (gp & Hinst & Hgp);
    [by apply valid_square|].
  destruct (search_init initial_state goal_state h gp) as [st0|] eqn:Hst0.
  2:{ unfold search_init in Hst0.
      by rewrite (heuristic_call_valid h gp n) in Hst0. }
  pose proof (basic_inv_init _ _ _ _ _ Hst0) as Hbasic0.
  assert (search_measure n st0 < 4 * configurations n + 2)%nat as Hm0.
  { apply search_init_Ok in Hst0 as (hv & _ & ->).
    unfold search_measure. simpl. lia. }
  destruct (search_loop_terminates n initial_state goal_state h gp
              (4 * configurations n + 2) st0) as [res Hloop]; try done.
  assert (∀ rounds, (4 * configurations n + 2 ≤ rounds)%nat →
            general_search rounds initial_state goal_state h gp0
            = (Some (Ok res), gp)) as Hrun.
  { intros rounds Hrounds. rewrite general_search_unfold, Hinst, Hst0.
    f_equal. by eapply search_loop_mono. }
  exists res, gp. split; [done|]. split.
  - intros Hnone (path & Hpath).
    destruct (general_search_solves n initial_state goal_state h gp0 path
                Hinit Hgoal Hpath)
      as (rounds0 & node & e & q & gp' & Hsolves & _).
    pose proof (Hsolves (rounds0 `max` (4 * configurations n + 2))%nat
                  ltac:(lia)) as H1.
    rewrite Hrun in H1 by lia. by simplify_eq.
  - intros Hno. apply search_loop_Ok in Hloop as (st & Hrtc & Hret).
    assert (basic_inv initial_state st) as [Hheap Htree _].
    { apply (reached_basic_inv _ goal_state h gp). by exists gp0, st0. }
    apply search_round_Return in Hret
      as [[_ ->]|(node & rest & _ & Hperm & _ & Hg & ->)]; [done| |done].
    destruct Hno. exists (reconstruct_path (Some node)).
    assert (tree_node initial_state node) as Hnode.
    { apply Htree. rewrite Hperm. by left. }
    destruct (tree_node_path _ _ Hnode) as (Hh & Hl & Hp & _).
    rewrite Hg in Hl. done.
Qed.

Definition swapped_pair : State := [[2; 1]; [3; 0]].
Definition goal_2x2 : State := [[1; 2]; [3; 0]].

Lemma general_search_terminates_witness :
  valid 2 swapped_pair ∧ valid 2 goal_2x2 ∧
  ∃ res gp,
    (∀ rounds, (4 * configurations 2 + 2 ≤ rounds)%nat →
       general_search rounds swapped_pair goal_2x2 MisplacedTile ∅
       = (Some (Ok res), gp)) ∧
    (res.1.1 = None ↔ ¬ ∃ path, moves_from_to swapped_pair goal_2x2 path).
Proof.
  assert (valid 2 swapped_pair) as H1
    by (apply (bool_decide_unpack _); vm_compute; exact I).
  assert (valid 2 goal_2x2) as H2
    by (apply (bool_decide_unpack _); vm_compute; exact I).
  split; [exact H1|]. split; [exact H2|].
  exact (general_search_terminates 2 swapped_pair goal_2x2 MisplacedTile ∅
           H1 H2).
Defined.

Lemma path_to_root_parent node p :
  parent node = Some p → path_to_root node = state node :: path_to_root p.
Proof. destruct node; simpl. by intros ->. Qed.

Lemma path_to_root_head node :
  path_to_root node = state node :: tail (path_to_root node).
Proof. by destruct node. Qed.

(** The states above a frontier node are explored, and no state occurs
    twice on the way from a frontier node to the root. *)
Definition ancestors_explored (st : SearchState) : Prop :=
  ∀ m, m ∈ frontier st →
    NoDup (path_to_root m) ∧
    ∀ t, t ∈ tail (path_to_root m) → t ∈ explored st.

Lemma reached_ancestors_explored initial_state goal_state h gp st :
  reached initial_state goal_state h gp st → ancestors_explored st.
Proof.
  revert st. apply reached_invariant.
  - intros st0 (hv & _ & ->)%search_init_Ok m Hm. simpl in Hm.
    apply list_elem_of_singleton in Hm as ->. simpl. split.
    + apply NoDup_singleton.
    + intros t Ht. by apply elem_of_nil in Ht.
  - intros st st' Hreached Hinv Hstep.
    apply reached_basic_inv in Hreached as [Hheap _ _].
    apply search_round_Continue in Hstep
      as (node & rest & _ & Hperm & Hrest & _ & _ & Hcases); [|done].
    assert (node ∈ frontier st) as Hnode by (rewrite Hperm; by left).
    destruct Hcases as [[_ ->]|[Hnot (succs & Hexpand & ->)]];
      intros m Hm; simpl in *.
    + apply Hinv. rewrite Hperm. by right.
    + destruct (push_successors_spec ({[state node]} ∪ explored st)
                  succs rest Hrest) as [_ Hperm'].
      rewrite Hperm' in Hm.
      apply elem_of_app in Hm as [[Hfresh Hm]%list_elem_of_filter|Hm].
      * destruct (expand_sound _ _ _ _ _ m Hexpand Hm) as (_ & Hpar & _).
        rewrite (path_to_root_parent _ _ Hpar). simpl.
        destruct (Hinv node Hnode) as [Hnd Htail].
        assert (∀ t, t ∈ path_to_root node →
                     t ∈ ({[state node]} ∪ explored st : gset State))
          as Hall.
        { intros t. rewrite path_to_root_head.
          intros [->|Ht]%elem_of_cons; [set_solver|].
          apply elem_of_union_r. by apply Htail. }
        split; [|done]. apply NoDup_cons. split; [|done].
        intros Hin. by apply Hfresh, Hall.
      * destruct (Hinv m) as [Hnd Htail]; [rewrite Hperm; by right|].
        split; [done|]. intros t Ht. apply elem_of_union_r. by apply Htail.
Qed.

(** X14. The solution that [general_search] returns visits no state
    twice: the sequence of states that [reconstruct_path] gives for the
    returned node has no repetition, whatever the input grids are. *)
Theorem solution_path_NoDup (rounds : nat)
    (initial_state goal_state : State) (h : Heuristic) (gp0 gp : GoalPos)
    (node : PuzzleNode) (expanded max_queue : nat) :
  general_search rounds initial_state goal_state h gp0
  = (Some (Ok (Some node, expanded, max_queue)), gp) →
  NoDup (reconstruct_path (Some node)).
Proof.
  intros (st & Hreached & Hret)%general_search_Ok.
  pose proof (reached_ancestors_explored _ _ _ _ _ Hreached) as Hinv.
  apply reached_basic_inv in Hreached as [Hheap _ _].
  apply search_round_Return in Hret
    as [[_ [=]]|(node' & rest & _ & Hperm & _ & _ & [= <-])]; [|done].
  unfold reconstruct_path. simpl. rewrite reverse_Permutation.
  apply Hinv. rewrite Hperm. by left.
Qed.

Lemma solution_path_NoDup_witness :
  ∃ node expanded max_queue gp,
    general_search 20 [[1; 2; 3]; [4; 0; 5]; [7; 8; 6]]
      GOAL_STATE_8_PUZZLE NoHeuristic ∅
    = (Some (Ok (Some node, expanded, max_queue)), gp) ∧
    NoDup (reconstruct_path (Some node)).
Proof.
  eexists _, _, _, _.
  match goal with |- ?P ∧ _ => assert P as Hrun end.
  { vm_compute. reflexivity. }
  split; [exact Hrun|].
  exact (solution_path_NoDup _ _ _ _ _ _ _ _ _ Hrun).
Defined.

(** X15. At every test of the loop condition the counter
    [expanded_count] is the number of states in [explored], the goal
    state is not among the explored states, and every state above a
    frontier node, on its way to the root, is explored. *)
Theorem explored_counted (initial_state goal_state : State) (h : Heuristic)
    (gp : GoalPos) (st : SearchState) :
  reached initial_state goal_state h gp st →
  expanded_count st = size (explored st) ∧
  (goal_state ∉ explored st) ∧
  ∀ m p, m ∈ frontier st → parent m = Some p → state p ∈ explored st.
Proof.
  intros Hreached. split_and!.
  - revert st Hreached. apply reached_invariant.
    + by intros st0 (hv & _ & ->)%search_init_Ok.
    + intros st st' Hreached Hinv Hstep.
      apply reached_basic_inv in Hreached as [Hheap _ _].
      apply search_round_Continue in Hstep
        as (node & rest & _ & _ & _ & _ & _ & Hcases); [|done].
      destruct Hcases as [[_ ->]|[Hnot (succs & _ & ->)]]; simpl; [done|].
      rewrite size_union, size_singleton by set_solver. by rewrite Hinv.
  - revert st Hreached. apply reached_invariant.
    + intros st0 (hv & _ & ->)%search_init_Ok. simpl. set_solver.
    + intros st st' Hreached Hinv Hstep.
      apply reached_basic_inv in Hreached as [Hheap _ _].
      apply search_round_Continue in Hstep
        as (node & rest & _ & _ & _ & _ & Hng & Hcases); [|done].
      destruct Hcases as [[_ ->]|[Hnot (succs & _ & ->)]]; simpl; [done|].
      set_solver.
  - intros m p Hm Hpar.
    destruct (reached_ancestors_explored _ _ _ _ _ Hreached m Hm)
      as [_ Htail].
    apply Htail. rewrite (path_to_root_parent _ _ Hpar). simpl.
    rewrite path_to_root_head. by left.
Qed.

Lemma explored_counted_witness :
  reached default_puzzle GOAL_STATE_8_PUZZLE ManhattanDistance
    (goal_positions 3 GOAL_STATE_8_PUZZLE) default_search_state ∧
  expanded_count default_search_state
  = size (explored default_search_state) ∧
  (GOAL_STATE_8_PUZZLE ∉ explored default_search_state) ∧
  ∀ m p, m ∈ frontier default_search_state → parent m = Some p →
         state p ∈ explored default_search_state.
Proof.
  split; [exact default_search_state_reached|].
  exact (explored_counted _ _ _ _ _ default_search_state_reached).
Defined.

(** X16. On valid grids the nodes leave the frontier in the order of
    their [f_cost]: the node popped in one round has an [f_cost] no
    larger than that of the node popped in the next round.  With the
    zero heuristic the same holds of [g_cost]: uniform cost search pops
    the nodes in the order of their depth. *)
Theorem popped_f_cost_monotone (n : nat) (initial_state goal_state : State)
    (h : Heuristic) (gp : GoalPos) (st st' : SearchState)
    (node node' : PuzzleNode) (rest rest' : list PuzzleNode) :
  valid n initial_state → valid n goal_state →
  reached initial_state goal_state h gp st →
  round_step goal_state h gp st st' →
  heapq.heappop PuzzleNode_lt (frontier st) = Ok (node, rest) →
  heapq.heappop PuzzleNode_lt (frontier st') = Ok (node', rest') →
  f_cost node ≤ f_cost node' ∧
  (h = NoHeuristic → g_cost node ≤ g_cost node').
Proof.
  intros Hinit Hgoal Hreached Hstep Hpop Hpop'.
  pose proof (reached_gp_ready n _ _ _ _ _ Hgoal Hreached) as Hgp.
  pose proof (reached_step _ _ _ _ _ _ Hreached Hstep) as Hreached'.
  pose proof (reached_basic_inv _ _ _ _ _ Hreached) as [Hheap Htree _].
  pose proof (reached_basic_inv _ _ _ _ _ Hreached') as [Hheap' Htree' _].
  assert (node' ∈ frontier st') as Hin'.
  { destruct (frontier_heappop (frontier st') Hheap')
      as (x & r & Hx & _ & Hpermx & _).
    { intros Heq. rewrite Heq in Hpop'. by vm_compute in Hpop'. }
    rewrite Hpop' in Hx. simplify_eq. rewrite Hpermx. by left. }
  apply search_round_Continue in Hstep
    as (node1 & rest1 & Hpop1 & Hperm & Hrest & Hmin & Hng & Hcases); [|done].
  rewrite Hpop in Hpop1. injection Hpop1 as <- <-.
  assert (node ∈ frontier st) as Hin by (rewrite Hperm; by left).
  assert (∀ m, m ∈ rest → f_cost node ≤ f_cost m) as Hrest_min.
  { intros m Hm. assert (m ∈ frontier st) as Hm' by (rewrite Hperm; by right).
    apply Hmin, PuzzleNode_lt_false in Hm'. lia. }
  assert (f_cost node ≤ f_cost node') as Hf.
  { destruct Hcases as [[_ ->]|[Hnot (succs & Hexpand & ->)]]; simpl in *;
      [by apply Hrest_min|].
    destruct (push_successors_spec ({[state node]} ∪ explored st) succs rest
                Hrest) as [_ Hperm'].
    rewrite Hperm' in Hin'.
    apply elem_of_app in Hin' as [[_ Hm]%list_elem_of_filter|Hm];
      [|by apply Hrest_min].
    destruct (expand_sound _ _ _ _ _ node' Hexpand Hm)
      as (Hslide & _ & Hg & Hfc & Hh).
    assert (valid n (state node)) as Hvn.
    { eapply reachable_valid; [exact Hinit|].
      by apply tree_node_reachable, Htree. }
    assert (valid n (state node')) as Hvn'.
    { eapply slide_valid; [exact Hvn|exact Hslide]. }
    pose proof (reached_h_cost _ _ _ _ _ _ Hreached Hin) as Hhn.
    rewrite (heuristic_call_valid h gp n) in Hhn, Hh by done.
    pose proof (tree_node_f_cost _ _ (Htree _ Hin)) as Hfn.
    pose proof (hval_slide h gp n goal_state _ _ Hvn Hslide).
    simplify_eq. lia. }
  split; [done|]. intros ->.
  pose proof (reached_h_cost _ _ _ _ _ _ Hreached Hin) as Hhn.
  pose proof (reached_h_cost _ _ _ _ _ _ Hreached' Hin') as Hhn'.
  pose proof (tree_node_f_cost _ _ (Htree _ Hin)) as Hfn.
  pose proof (tree_node_f_cost _ _ (Htree' _ Hin')) as Hfn'.
  simpl in Hhn, Hhn'. unfold no_heuristic in *. simplify_eq. lia.
Qed.

Definition two_moves_state : State := [[1; 2; 3]; [4; 0; 5]; [7; 8; 6]].

Definition uniform_cost_start : SearchState :=
  mkSearchState [PuzzleNode_init two_moves_state None None 0 0] ∅ 0 1.

Lemma uniform_cost_start_reached :
  reached two_moves_state GOAL_STATE_8_PUZZLE NoHeuristic ∅
    uniform_cost_start.
Proof. exists ∅, uniform_cost_start. split_and!; [done|done|constructor]. Defined.

Lemma popped_f_cost_monotone_witness :
  ∃ st' node rest node' rest',
    valid 3 two_moves_state ∧ valid 3 GOAL_STATE_8_PUZZLE ∧
    reached two_moves_state GOAL_STATE_8_PUZZLE NoHeuristic ∅
      uniform_cost_start ∧
    round_step GOAL_STATE_8_PUZZLE NoHeuristic ∅ uniform_cost_start st' ∧
    heapq.heappop PuzzleNode_lt (frontier uniform_cost_start)
    = Ok (node, rest) ∧
    heapq.heappop PuzzleNode_lt (frontier st') = Ok (node', rest') ∧
    f_cost node ≤ f_cost node' ∧
    (NoHeuristic = NoHeuristic → g_cost node ≤ g_cost node').
Proof.
  eexists _, _, _, _, _.
  assert (valid 3 two_moves_state) as H1
    by (apply (bool_decide_unpack _); vm_compute; exact I).
  assert (valid 3 GOAL_STATE_8_PUZZLE) as H2
    by (apply (bool_decide_unpack _); vm_compute; exact I).
  split; [exact H1|]. split; [exact H2|].
  split; [exact uniform_cost_start_reached|].
  match goal with |- ?P ∧ _ => assert P as Hstep end.
  { unfold round_step. vm_compute. reflexivity. }
  split; [exact Hstep|].
  match goal with |- ?P ∧ _ => assert P as Hpop end.
  { vm_compute. reflexivity. }
  split; [exact Hpop|].
  match goal with |- ?P ∧ _ => assert P as Hpop' end.
  { vm_compute. reflexivity. }
  split; [exact Hpop'|].
  exact (popped_f_cost_monotone 3 _ _ _ _ _ _ _ _ _ _ H1 H2
           uniform_cost_start_reached Hstep Hpop Hpop').
Defined.

(** X17. The frontier never holds more than [1 + 3 * expanded_count]
    nodes: each expansion takes one node out and puts at most four in.
    So the two statistics that [general_search] returns beside the node
    are related: [1 ≤ max_queue_size ≤ 1 + 3 * expanded_count]. *)
Theorem max_queue_size_bound (rounds : nat)
    (initial_state goal_state : State) (h : Heuristic) (gp0 gp : GoalPos)
    (node : option PuzzleNode) (expanded max_queue : nat) :
  general_search rounds initial_state goal_state h gp0
  = (Some (Ok (node, expanded, max_queue)), gp) →
  (1 ≤ max_queue ≤ 1 + 3 * expanded)%nat.
Proof.
  intros (st & Hreached & Hret)%general_search_Ok.
  assert ((1 ≤ max_queue_size st ≤ 1 + 3 * expanded_count st)%nat ∧
          (length (frontier st) ≤ 1 + 3 * expanded_count st)%nat)
    as [Hq Hlen].
  { clear Hret. revert st Hreached. apply reached_invariant.
    - intros st0 (hv & _ & ->)%search_init_Ok. simpl. lia.
    - intros st st' Hreached [Hq Hlen] Hstep.
      apply reached_basic_inv in Hreached as [Hheap _ _].
      apply search_round_Continue in Hstep
        as (nd & rest & _ & Hperm & Hrest & _ & _ & Hcases); [|done].
      rewrite Hperm in Hlen. simpl in Hlen.
      destruct Hcases as [[_ ->]|[Hnot (succs & Hexpand & ->)]];
        unfold round_max; rewrite Hperm; simpl; [lia|].
      destruct (push_successors_spec ({[state nd]} ∪ explored st) succs rest
                  Hrest) as [_ Hperm'].
      rewrite Hperm', length_app.
      pose proof (length_filter (λ c, state c ∉ {[state nd]} ∪ explored st)
                    succs).
      pose proof (expand_length _ _ _ _ _ Hexpand). lia. }
  apply reached_basic_inv in Hreached as [Hheap _ _].
  apply search_round_Return in Hret
    as [[_ Heq]|(nd & rest & _ & Hperm & _ & _ & Heq)];
    [| |done]; simplify_eq; [done|].
  unfold round_max. lia.
Qed.

Lemma max_queue_size_bound_witness :
  ∃ node expanded max_queue gp,
    general_search 20 two_moves_state GOAL_STATE_8_PUZZLE NoHeuristic ∅
    = (Some (Ok (node, expanded, max_queue)), gp) ∧
    (1 ≤ max_queue ≤ 1 + 3 * expanded)%nat.
Proof.
  eexists _, _, _, _.
  match goal with |- ?P ∧ _ => assert P as Hrun end.
  { vm_compute. reflexivity. }
  split; [exact Hrun|].
  exact (max_queue_size_bound _ _ _ _ _ _ _ _ _ Hrun).
Defined.

(** ** [PuzzleNode.__lt__] *)

(** X18. [PuzzleNode.__lt__] is a strict weak order, as [heapq] needs:
    it is irreflexive, asymmetric and transitive, being unordered is
    transitive, and two nodes are unordered exactly when they agree on
    [f_cost] and [g_cost] (whatever their states are). *)
Theorem PuzzleNode_lt_strict_weak_order (a b c : PuzzleNode) :
  PuzzleNode_lt a a = false ∧
  (PuzzleNode_lt a b = true → PuzzleNode_lt b a = false) ∧
  (PuzzleNode_lt a b = true → PuzzleNode_lt b c = true →
   PuzzleNode_lt a c = true) ∧
  (PuzzleNode_lt a b = false → PuzzleNode_lt b c = false →
   PuzzleNode_lt a c = false) ∧
  (PuzzleNode_lt a b = false ∧ PuzzleNode_lt b a = false ↔
   f_cost a = f_cost b ∧ g_cost a = g_cost b).
Proof.
  rewrite !PuzzleNode_lt_spec, !PuzzleNode_lt_false. lia.
Qed.

(** ** [get_user_puzzle] *)

(** A row that the input loop accepts. *)
Definition accepted_row (row : list Z) : Prop :=
  length row = 3%nat ∧ Forall (λ x, 0 ≤ x ≤ 8) row.

#[global] Instance accepted_row_dec row : Decision (accepted_row row).
Proof. unfold accepted_row. apply _. Defined.

Lemma forallb_bool_decide {X} (P : X → Prop) `{!∀ x, Decision (P x)}
    (l : list X) :
  forallb (λ x, bool_decide (P x)) l = true ↔ Forall P l.
Proof.
  induction l as [|x l IH]; simpl.
  - split; [by constructor|done].
  - rewrite andb_true_iff, IH, bool_decide_eq_true, Forall_cons. done.
Qed.

Lemma read_rows_spec inputs puzzle p :
  (length puzzle ≤ 3)%nat → read_rows inputs puzzle = Some p →
  p = take 3 (puzzle ++ filter accepted_row (omap id inputs)) ∧
  length p = 3%nat.
Proof.
  revert puzzle.
  assert (∀ puzzle rows, (length puzzle ≤ 3)%nat →
            ¬ (length puzzle < 3)%nat → Some puzzle = Some p →
            p = take 3 (puzzle ++ rows) ∧ length p = 3%nat) as Hfull.
  { intros puzzle rows Hle Hnlt [= <-].
    split; [|lia]. rewrite take_app_length'; [done|lia]. }
  induction inputs as [|[row|] inputs IH]; intros puzzle Hle; simpl;
    case_bool_decide as Hlt; try (by apply Hfull); try done.
  - case_bool_decide as Hlen.
    { intros Hr. destruct (IH puzzle Hle Hr) as [-> Hl]. split; [|done].
      rewrite filter_cons_False; [done|]. intros [? _]. done. }
    destruct (forallb _ row) eqn:Hall; simpl.
    + apply forallb_bool_decide in Hall.
      intros Hr. destruct (IH (puzzle ++ [row])) as [-> Hl]; [|done|].
      { rewrite length_app. simpl. lia. }
      split; [|done]. rewrite filter_cons_True, <- app_assoc; [done|].
      by split.
    + intros Hr. destruct (IH puzzle Hle Hr) as [-> Hl]. split; [|done].
      rewrite filter_cons_False; [done|]. intros [_ HF].
      apply (forallb_bool_decide (λ x, 0 ≤ x ≤ 8)) in HF. congruence.
  - by apply IH.
Qed.

(** X19. The last check of [get_user_puzzle] accepts a grid of three
    rows of three numbers exactly when it is a valid Configuration of
    the 8-puzzle: the grids it returns are those for which
    [general_search] is meant, and every such grid is returned. *)
Theorem check_user_puzzle_valid (puzzle : State) :
  square 3 puzzle →
  match check_user_puzzle puzzle with
  | Some p => p = puzzle ∧ valid 3 puzzle
  | None => ¬ valid 3 puzzle
  end.
Proof.
  intros Hsq. pose proof (check_user_puzzle_Some puzzle) as Hiff.
  unfold check_user_puzzle in *. case_bool_decide.
  - intros [_ Hperm]. apply Hiff in Hperm. done.
  - split; [done|]. split; [done|]. by apply Hiff.
Qed.

Lemma check_user_puzzle_valid_witness :
  square 3 default_puzzle ∧
  match check_user_puzzle default_puzzle with
  | Some p => p = default_puzzle ∧ valid 3 default_puzzle
  | None => ¬ valid 3 default_puzzle
  end.
Proof.
  assert (square 3 default_puzzle) as H
    by (apply (bool_decide_unpack _); vm_compute; exact I).
  split; [exact H|]. exact (check_user_puzzle_valid default_puzzle H).
Defined.

(** X20. When [get_user_puzzle] returns, the rows it has kept are the
    first three lines that have three numbers between 0 and 8; it
    returns them as the puzzle exactly when they form a valid
    Configuration of the 8-puzzle, and [None] otherwise.  So a puzzle
    from [get_user_puzzle] is always a valid input of
    [general_search]. *)
Theorem get_user_puzzle_valid (inputs : list (option (list Z)))
    (r : option State) :
  get_user_puzzle inputs = Some r →
  let rows := take 3 (filter accepted_row (omap id inputs)) in
  length rows = 3%nat ∧
  ((r = Some rows ∧ valid 3 rows) ∨ (r = None ∧ ¬ valid 3 rows)).
Proof.
  intros Hr rows. unfold get_user_puzzle in Hr.
  destruct (read_rows inputs []) as [p|] eqn:Hread; [|done].
  simpl in Hr. injection Hr as <-.
  apply read_rows_spec in Hread as [Hp Hlen]; [|simpl; lia].
  simpl in Hp. fold rows in Hp. subst p. split; [done|].
  assert (square 3 rows) as Hsq.
  { split; [done|]. apply Forall_forall. intros row Hrow.
    unfold rows in Hrow. apply elem_of_take in Hrow as (i & Hrow & _).
    apply list_elem_of_lookup_2, list_elem_of_filter in Hrow as [[? _] _].
    done. }
  pose proof (check_user_puzzle_Some rows) as Hiff.
  unfold check_user_puzzle in *. case_bool_decide.
  - right. split; [done|]. intros [_ Hperm]. apply Hiff in Hperm. done.
  - left. split; [done|]. split; [done|]. by apply Hiff.
Qed.

Lemma get_user_puzzle_valid_witness :
  ∃ r,
    get_user_puzzle
      [Some [1; 6; 7]; Some [5; 0]; None; Some [5; 0; 9]; Some [5; 0; 3];
       Some [4; 8; 2]] = Some r ∧
    let rows :=
      take 3 (filter accepted_row
                (omap id [Some [1; 6; 7]; Some [5; 0]; None; Some [5; 0; 9];
                          Some [5; 0; 3]; Some [4; 8; 2]])) in
    length rows = 3%nat ∧
    ((r = Some rows ∧ valid 3 rows) ∨ (r = None ∧ ¬ valid 3 rows)).
Proof.
  eexists.
  match goal with |- ?P ∧ _ => assert P as Hrun end.
  { vm_compute. reflexivity. }
  split; [exact Hrun|].
  exact (get_user_puzzle_valid _ _ Hrun).
Defined.

(** ** A start grid with a tile that the goal does not have *)

Lemma goal_positions_None n goal_state v :
  square n goal_state → v ∉ mjoin goal_state →
  goal_positions n goal_state !! v = None.
Proof.
  intros Hsq Hv. apply eq_None_not_Some. intros [[r c] Hrc].
  apply foldl_insert_Some in Hrc as [Hk|[Hin Hkey]]; [done|].
  apply elem_of_cells in Hin.
  destruct (proj2 (cell_is_Some n goal_state r c Hsq) Hin) as [w Hw].
  simpl in Hkey. rewrite Hw in Hkey. simpl in Hkey. subst w.
  apply Hv, elem_of_join_cell. eauto.
Qed.

(** X21. With the Manhattan distance, a start grid holding a tile that
    the goal grid does not hold is refused before the loop is entered:
    [general_search] raises [KeyError] while it computes the heuristic of
    the root, however many rounds it is given, and leaves the dictionary
    of the goal behind. *)
Theorem manhattan_search_foreign_tile (n rounds : nat)
    (initial_state goal_state : State) (gp0 : GoalPos) (r c : nat) (v : Z) :
  square n initial_state → square n goal_state →
  cell initial_state r c = Some v → v ≠ 0 → v ∉ mjoin goal_state →
  general_search rounds initial_state goal_state ManhattanDistance gp0
  = (Some (Raise KeyError), goal_positions n goal_state).
Proof.
  intros Hsq Hgoal Hv Hv0 Hnot.
  rewrite general_search_unfold. unfold install_goal_pos.
  rewrite bool_decide_eq_true_2 by done.
  rewrite (precompute_goal_pos_square n) by done.
  unfold search_init. simpl.
  rewrite (manhattan_KeyError n _ _ _ r c v); try done.
  - by destruct Hgoal.
  - by apply goal_positions_None.
Qed.

Definition foreign_tile_grid : State := [[1; 2; 3]; [4; 5; 6]; [7; 9; 0]].

Lemma manhattan_search_foreign_tile_witness :
  square 3 foreign_tile_grid ∧ square 3 GOAL_STATE_8_PUZZLE ∧
  cell foreign_tile_grid 2 1 = Some 9 ∧ 9 ≠ 0 ∧
  (9 ∉ mjoin GOAL_STATE_8_PUZZLE) ∧
  general_search 0 foreign_tile_grid GOAL_STATE_8_PUZZLE ManhattanDistance ∅
  = (Some (Raise KeyError), goal_positions 3 GOAL_STATE_8_PUZZLE).
Proof.
  assert (square 3 foreign_tile_grid) as H1
    by (apply (bool_decide_unpack _); vm_compute; exact I).
  assert (square 3 GOAL_STATE_8_PUZZLE) as H2
    by (apply (bool_decide_unpack _); vm_compute; exact I).
  assert (cell foreign_tile_grid 2 1 = Some 9) as H3 by reflexivity.
  assert (9 ≠ 0) as H4 by lia.
  assert (9 ∉ mjoin GOAL_STATE_8_PUZZLE) as H5
    by (apply (bool_decide_unpack _); vm_compute; exact I).
  split; [exact H1|]. split; [exact H2|]. split; [exact H3|].
  split; [exact H4|]. split; [exact H5|].
  exact (manhattan_search_foreign_tile 3 0 foreign_tile_grid
           GOAL_STATE_8_PUZZLE ∅ 2 1 9 H1 H2 H3 H4 H5).
Defined.
